(** * directus-sync: the restore driver, the snapshot client and the
    request validation helper, embedded from the TypeScript sources.

    Asynchronous functions are modelled as state-passing actions that
    either return a value or throw; the one unbounded loop of the
    restore driver is run with a fuel that counts its iterations, a
    promise that has not settled when the fuel is spent being pending. *)

From stdpp Require Import base list strings pretty gmap sorting.
From Stdlib Require Import ZArith Lia Ascii.

Set Default Proof Using "Type".
#[local] Set Warnings "-clear-no-such-hyp".

(** ** Actions: a state and exception monad *)

Inductive result (E A : Type) : Type :=
| Ok (a : A)
| Throw (e : E).
Arguments Ok {E A} a.
Arguments Throw {E A} e.

Definition action (S E A : Type) : Type := S → result E A * S.

#[global] Instance action_ret {S E} : MRet (action S E) :=
  λ A a s, (Ok a, s).

#[global] Instance action_bind {S E} : MBind (action S E) :=
  λ A B f m s,
    match m s with
    | (Ok a, s') => f a s'
    | (Throw e, s') => (Throw e, s')
    end.

(** The state of a settled or unsettled promise of an [async] function
    returning nothing. *)
Inductive promise (E : Type) : Type :=
| Fulfilled
| Rejected (e : E)
| Pending.
Arguments Fulfilled {E}.
Arguments Rejected {E} e.
Arguments Pending {E}.

(** ** The restore driver (the [run] script) *)

Section RestoreDriver.
Context {W E : Type}.

(** A collection as the driver sees it: the two asynchronous methods
    it awaits, acting on the world (the remote instance together with
    the in-memory state of the collections). *)
Record Collection : Type := {
  cleanUp : action W E unit;
  restore : action W E bool;
}.

(** The calls the driver makes, in the order it makes them, each with
    the way it settled; [i] is the position of the collection in the
    list returned by [loadCollections]. *)
Inductive call : Type :=
| CleanUpCall (i : nat) (r : result E unit)
| RestoreCall (i : nat) (r : result E bool)
| LogErrorAndStopCall (e : E).

Inductive method : Type := MCleanUp | MRestore | MLogErrorAndStop.

Definition callee (c : call) : method * nat :=
  match c with
  | CleanUpCall i _ => (MCleanUp, i)
  | RestoreCall i _ => (MRestore, i)
  | LogErrorAndStopCall _ => (MLogErrorAndStop, 0)
  end.

Record driver_state : Type := {
  world : W;
  calls : list call;
  logged : list string;
}.

(** [logger.info(msg)] *)
Definition info (msg : string) : action driver_state E unit :=
  λ s, (Ok tt,
        {| world := world s; calls := calls s; logged := logged s ++ [msg] |}).

(** An awaited call on the world, recorded in the trace as [ev r]. *)
Definition await {A} (ev : result E A → call) (m : action W E A)
    : action driver_state E A :=
  λ s, let '(r, w) := m (world s) in
       (r, {| world := w; calls := calls s ++ [ev r]; logged := logged s |}).

(** An awaited call that leaves no entry in the trace of calls. *)
Definition await_silent {A} (m : action W E A) : action driver_state E A :=
  λ s, let '(r, w) := m (world s) in
       (r, {| world := w; calls := calls s; logged := logged s |}).

(** [Container.get(SnapshotClient).restore()] and [loadCollections()] *)
Variable snapshotClient_restore : action W E unit.
Variable loadCollections : list Collection.

(** [for (const collection of collections) await collection.cleanUp();]
    from position [i] on. *)
Fixpoint cleanUpLoop (i : nat) (collections : list Collection)
    : action driver_state E unit :=
  match collections with
  | [] => mret tt
  | collection :: rest =>
      await (CleanUpCall i) (cleanUp collection) ;;
      cleanUpLoop (S i) rest
  end.

(** The inner [for] of one iteration, from position [i] on, [stop]
    being the variable it clears when a collection asks for a retry. *)
Fixpoint restorePass (i : nat) (collections : list Collection) (stop : bool)
    : action driver_state E bool :=
  match collections with
  | [] => mret stop
  | collection :: rest =>
      retry ← await (RestoreCall i) (restore collection);
      restorePass (S i) rest (if retry : bool then false else stop)
  end.

Definition iteration_message (index : N) : string :=
  "---- Restore: iteration " +:+ pretty index +:+ " ----".

(** [while (!stop) { ... }]: [fuel] bounds the number of iterations
    that are run; the loop has no bound of its own. *)
Fixpoint restoreLoop (fuel : nat) (collections : list Collection)
    (stop : bool) (index : N) (s : driver_state)
    : promise E * driver_state :=
  if stop then (Fulfilled, s)
  else
    match fuel with
    | O => (Pending, s)
    | S fuel' =>
        match (info (iteration_message index) ;;
               restorePass 0 collections true) s with
        | (Throw e, s') => (Rejected e, s')
        | (Ok stop', s') =>
            restoreLoop fuel' collections stop' (index + 1 + 1)%N s'
        end
    end.

(** The steps of [run] before the loop: the schema restore and the
    clean up of every collection. *)
Definition prepare : action driver_state E (list Collection) :=
  info "---- Restore schema ----" ;;
  await_silent snapshotClient_restore ;;
  let collections := loadCollections in
  info "---- Clean up collections ----" ;;
  cleanUpLoop 0 collections ;;
  mret collections.

Definition run (fuel : nat) (s : driver_state) : promise E * driver_state :=
  match prepare s with
  | (Throw e, s') => (Rejected e, s')
  | (Ok collections, s') => restoreLoop fuel collections false 1 s'
  end.

(** The other functions of the library that the script chains. *)
Variable initContext : action W E unit.
Variable logErrorAndStop : E → action W E unit.
Variable disposeContext : action W E unit.
Variable logEndAndClose : action W E unit.

(** [p.then(f)] for [f] returning nothing. *)
Definition then_ (p : promise E * driver_state)
    (f : driver_state → promise E * driver_state)
    : promise E * driver_state :=
  match p with
  | (Fulfilled, s) => f s
  | (Rejected e, s) => (Rejected e, s)
  | (Pending, s) => (Pending, s)
  end.

(** [p.catch(h)] *)
Definition catch_ (p : promise E * driver_state)
    (h : E → driver_state → promise E * driver_state)
    : promise E * driver_state :=
  match p with
  | (Fulfilled, s) => (Fulfilled, s)
  | (Rejected e, s) => h e s
  | (Pending, s) => (Pending, s)
  end.

(** A call recorded in the trace without a result of its own. *)
Definition record_call (c : call) : action driver_state E unit :=
  λ s, (Ok tt,
        {| world := world s; calls := calls s ++ [c]; logged := logged s |}).

Definition settle (m : action driver_state E unit) (s : driver_state)
    : promise E * driver_state :=
  match m s with
  | (Ok _, s') => (Fulfilled, s')
  | (Throw e, s') => (Rejected e, s')
  end.

(** [initContext().then(run).catch(logErrorAndStop)
      .then(disposeContext).then(logEndAndClose)] *)
Definition main (fuel : nat) (s : driver_state) : promise E * driver_state :=
  then_
    (then_
       (catch_
          (then_ (settle (await_silent initContext) s) (run fuel))
          (λ e, settle (record_call (LogErrorAndStopCall e) ;;
                        await_silent (logErrorAndStop e))))
       (settle (await_silent disposeContext)))
    (settle (await_silent logEndAndClose)).

End RestoreDriver.

Arguments Collection : clear implicits.
Arguments call : clear implicits.
Arguments driver_state : clear implicits.

(** ** The collection restorer *)

(** Modelled from the spec: the Collection Restorer of the spec's
    section 4.2, whose classes are not among the sources. A record
    carries a stable identifier and its dependency references; the
    remote instance is the set of identifiers known to exist, and a
    restorer remembers which of its records it has applied in this run.
    [restore] goes through the records that are not yet applied: a
    record whose references all resolve is written and marked applied,
    any other is skipped, and the call returns [true] when at least one
    record was skipped. Writes are taken to succeed. *)
Module Restorer.

(** An identifier on the remote instance: the collection and the
    record's own identifier in it. *)
Definition identifier : Type := string * string.

Record record : Type := {
  id : string;
  references : list identifier;
}.

Record config : Type := {
  name : string;
  records : list record;
}.

Record remote : Type := {
  existing : gset identifier;
  applied : gset identifier;
}.

Definition resolved (σ : remote) (r : record) : bool :=
  forallb (λ ref, bool_decide (ref ∈ existing σ)) (references r).

Definition write (i : identifier) (σ : remote) : remote :=
  {| existing := {[ i ]} ∪ existing σ; applied := {[ i ]} ∪ applied σ |}.

(** One record of the collection [c]: the flag says whether it was
    skipped for an unresolved reference. *)
Definition restore_record (c : string) (r : record) (σ : remote)
    : bool * remote :=
  if bool_decide ((c, id r) ∈ applied σ) then (false, σ)
  else if resolved σ r then (false, write (c, id r) σ)
  else (true, σ).

Fixpoint restore_records (c : string) (rs : list record) (skipped : bool)
    (σ : remote) : bool * remote :=
  match rs with
  | [] => (skipped, σ)
  | r :: rs' =>
      let '(skip, σ') := restore_record c r σ in
      restore_records c rs' (skip || skipped) σ'
  end.

Definition restore {E} (c : config) : action remote E bool :=
  λ σ, let '(skipped, σ') := restore_records (name c) (records c) false σ in
       (Ok skipped, σ').

(** The restorer of a collection, its clean up left open. *)
Definition restorer {E} (cleanUp : action remote E unit) (c : config)
    : Collection remote E :=
  @Build_Collection remote E cleanUp (restore c).

(** The identifiers of the records of a collection. *)
Definition identifiers (c : config) : list identifier :=
  map (λ r, (name c, id r)) (records c).

(** A chain: the records of the first collection refer to nothing, and
    the records of every other collection refer to records of the
    collection before it only. *)
Fixpoint chain_from (previous : list identifier) (cs : list config) : Prop :=
  match cs with
  | [] => True
  | c :: cs' =>
      (∀ r ref, r ∈ records c → ref ∈ references r → ref ∈ previous)
      ∧ chain_from (identifiers c) cs'
  end.

Definition chain (cs : list config) : Prop := chain_from [] cs.

(** Every record of the collection is marked applied. *)
Definition all_applied (σ : remote) (c : config) : Prop :=
  ∀ r, r ∈ records c → (name c, id r) ∈ applied σ.

(** What is marked applied exists on the remote instance. *)
Definition consistent (σ : remote) : Prop := applied σ ⊆ existing σ.

(** The first [k] collections of the chain are applied. *)
Definition applied_up_to (cs : list config) (k : nat) (σ : remote) : Prop :=
  ∀ j c, j < k → cs !! j = Some c → all_applied σ c.

End Restorer.

(** ** The schema snapshot and its files *)

Module Schema.

(** The properties the client does not look at are kept as JSON. *)
#[local] Unset Elimination Schemes.
Inductive json : Type :=
| JNull
| JBool (b : bool)
| JNumber (n : Z)
| JString (s : string)
| JArray (items : list json)
| JObject (members : list (string * json)).
#[local] Set Elimination Schemes.

Module Collection.
Record t : Type := { collection : string; rest : json }.
End Collection.

Module Field.
Record t : Type := { collection : string; field : string; rest : json }.
End Field.

Module Relation.
Record t : Type := { collection : string; field : string; rest : json }.
End Relation.

(** [info] stands for the properties other than the three lists
    (the [...info] of [decomposeData]). *)
Record Snapshot : Type := {
  info : json;
  collections : list Collection.t;
  fields : list Field.t;
  relations : list Relation.t;
}.

(** The [diff] property of what [schemaDiff] answers when the schemas
    differ: the changes, by kind. *)
Module Diff.
Record t : Type := {
  collections : list json;
  fields : list json;
  relations : list json;
}.
End Diff.

(** What a JSON file of the dump holds ([content: any]). *)
Inductive document : Type :=
| Whole (data : Snapshot)
| Plain (j : json)
| OfCollection (c : Collection.t)
| OfField (f : Field.t)
| OfRelation (r : Relation.t).

End Schema.

(** ** Paths and the file system *)

Module Fs.

(** A resolved path: its segments from the root. *)
Definition path : Type := list string.

Definition is_slash (c : Ascii.ascii) : bool := bool_decide (c = "/"%char).

(** The segments of a path written with [/]. *)
Fixpoint split_path (s : string) : list string :=
  match s with
  | EmptyString => [""]
  | String c s' =>
      if is_slash c then "" :: split_path s'
      else
        match split_path s' with
        | seg :: segs => String c seg :: segs
        | [] => [String c ""]
        end
  end.

Fixpoint has_slash (s : string) : bool :=
  match s with
  | EmptyString => false
  | String c s' => is_slash c || has_slash s'
  end.

(** A name that is one segment of a path as it stands. *)
Definition plain (name : string) : Prop :=
  has_slash name = false ∧ name ≠ "" ∧ name ≠ "." ∧ name ≠ "..".

(** One more segment on a resolved path, as [path.normalize] reads it. *)
Definition push_segment (p : path) (seg : string) : path :=
  if bool_decide (seg = "" ∨ seg = ".") then p
  else if bool_decide (seg = "..") then removelast p
  else p ++ [seg].

(** [path.join(p, rel)] *)
Definition path_join (p : path) (rel : string) : path :=
  foldl push_segment p (split_path rel).

(** [path.dirname(p)] *)
Definition path_dirname (p : path) : path := removelast p.

Definition show_path (p : path) : string :=
  foldl (λ acc seg, acc +:+ "/" +:+ seg) "" p.

Inductive node : Type :=
| File (content : Schema.document)
| Dir.

Inductive error : Type :=
| ENOENT (p : path)
| ENOTDIR (p : path)
| EISDIR (p : path)
| RemoteError (message : string).

(** The root is a directory; every other path is what the map says. *)
Definition lookup_node (fs : gmap path node) (p : path) : option node :=
  match p with
  | [] => Some Dir
  | _ => fs !! p
  end.

(** [removeSync(p)]: the file, or the directory with all it holds;
    nothing when there is nothing at [p]. *)
Definition removeSync (p : path) (fs : gmap path node) : gmap path node :=
  filter (λ kv, ¬ p `prefix_of` kv.1) fs.

(** [mkdirpSync(p)], from the directory [base] down through [rest]. *)
Fixpoint mkdirp_from (base : path) (rest : list string) (fs : gmap path node)
    : result error (gmap path node) :=
  match lookup_node fs base with
  | Some (File _) => Throw (ENOTDIR base)
  | _ =>
      let fs' := match base with [] => fs | _ => <[base := Dir]> fs end in
      match rest with
      | [] => Ok fs'
      | seg :: rest' => mkdirp_from (base ++ [seg]) rest' fs'
      end
  end.

Definition mkdirpSync (p : path) (fs : gmap path node)
    : result error (gmap path node) :=
  mkdirp_from [] p fs.

(** [writeJsonSync(p, content)] *)
Definition writeJsonSync (p : path) (content : Schema.document)
    (fs : gmap path node) : result error (gmap path node) :=
  match p with
  | [] => Throw (EISDIR p)
  | _ =>
      match lookup_node fs (path_dirname p) with
      | Some Dir =>
          match fs !! p with
          | Some Dir => Throw (EISDIR p)
          | _ => Ok (<[p := File content]> fs)
          end
      | Some (File _) => Throw (ENOTDIR p)
      | None => Throw (ENOENT p)
      end
  end.

(** [readJsonSync(p)] *)
Definition readJsonSync (p : path) (fs : gmap path node)
    : result error Schema.document :=
  match lookup_node fs p with
  | Some (File content) => Ok content
  | Some Dir => Throw (EISDIR p)
  | None => Throw (ENOENT p)
  end.

(** The order in which a directory tree is walked when the entries of
    every directory are taken by name. *)
Fixpoint path_leb (p q : path) : bool :=
  match p, q with
  | [], _ => true
  | _ :: _, [] => false
  | a :: p', b :: q' =>
      match String.compare a b with
      | Lt => true
      | Gt => false
      | Eq => path_leb p' q'
      end
  end.

Definition entry_le (x y : path * Schema.document) : Prop := path_leb x.1 y.1.

#[global] Instance entry_le_dec : RelDecision entry_le.
Proof. intros x y. unfold entry_le. apply _. Defined.

(** [s.endsWith(suffix)] *)
Fixpoint ends_with (suffix s : string) : bool :=
  bool_decide (s = suffix)
  || match s with
     | EmptyString => false
     | String _ s' => ends_with suffix s'
     end.

Definition file_name (p : path) : string := default "" (last p).

Definition file_content (n : node) : option Schema.document :=
  match n with
  | File content => Some content
  | Dir => None
  end.

(** The files at and below [dir], with their contents. *)
Definition files_below (dir : path) (fs : gmap path node)
    : gmap path Schema.document :=
  omap file_content (filter (λ kv, dir `prefix_of` kv.1) fs).

(** The JSON files below the directory [dir], with their contents. *)
Definition json_files (dir : path) (fs : gmap path node)
    : gmap path Schema.document :=
  omap file_content
    (filter (λ kv, dir `prefix_of` kv.1 ∧ kv.1 ≠ dir
                   ∧ ends_with ".json" (file_name kv.1) = true) fs).

End Fs.

(** ** The snapshot client *)

Module SnapshotClient.

Definition SNAPSHOT_JSON : string := "snapshot.json".
Definition INFO_JSON : string := "info.json".
Definition COLLECTIONS_DIR : string := "collections".
Definition FIELDS_DIR : string := "fields".
Definition RELATIONS_DIR : string := "relations".

Record SnapshotConfig : Type := {
  dumpPath : Fs.path;
  splitFiles : bool;
}.

(** An entry of [decomposeData]: [{ path: string; content: any }] *)
Record file : Type := {
  path : string;
  content : Schema.document;
}.

(** The requests sent to the Directus instance. *)
Inductive request (Diff : Type) : Type :=
| SchemaSnapshot
| SchemaDiff (snapshot : Schema.Snapshot)
| SchemaApply (diff : Diff).
Arguments SchemaSnapshot {Diff}.
Arguments SchemaDiff {Diff} snapshot.
Arguments SchemaApply {Diff} diff.

Record state (R Diff : Type) : Type := {
  fs : gmap Fs.path Fs.node;
  remote : R;
  requests : list (request Diff);
  logs : list string;
}.
Arguments fs {R Diff} s.
Arguments remote {R Diff} s.
Arguments requests {R Diff} s.
Arguments logs {R Diff} s.

(** The casts of [loadData] ([as Snapshot], the type arguments of
    [loadJsonFilesRecursively]) on a document of the shape they name:
    the value it holds. *)
Definition as_snapshot (d : Schema.document) : option Schema.Snapshot :=
  match d with Schema.Whole data => Some data | _ => None end.
Definition as_info (d : Schema.document) : option Schema.json :=
  match d with Schema.Plain j => Some j | _ => None end.
Definition as_collection (d : Schema.document) : option Schema.Collection.t :=
  match d with Schema.OfCollection c => Some c | _ => None end.
Definition as_field (d : Schema.document) : option Schema.Field.t :=
  match d with Schema.OfField f => Some f | _ => None end.
Definition as_relation (d : Schema.document) : option Schema.Relation.t :=
  match d with Schema.OfRelation r => Some r | _ => None end.

(** The casts are unchecked: a document of another shape goes through
    them as it is, nothing is thrown. What such a document is taken
    for at the type it is given is left open, one function per type. *)
Record Unchecked : Type := {
  foreign_snapshot : Schema.document → Schema.Snapshot;
  foreign_info : Schema.document → Schema.json;
  foreign_collection : Schema.document → Schema.Collection.t;
  foreign_field : Schema.document → Schema.Field.t;
  foreign_relation : Schema.document → Schema.Relation.t;
}.

Definition cast {A} (as_ : Schema.document → option A)
    (foreign : Schema.document → A) (d : Schema.document) : A :=
  default (foreign d) (as_ d).

(** A snapshot whose names are plain and name its collections, its
    fields and its relations apart. *)
Definition well_named (data : Schema.Snapshot) : Prop :=
  Forall (λ c, Fs.plain (Schema.Collection.collection c))
         (Schema.collections data)
  ∧ NoDup (map Schema.Collection.collection (Schema.collections data))
  ∧ Forall (λ f, Fs.plain (Schema.Field.collection f)
                 ∧ Fs.plain (Schema.Field.field f))
           (Schema.fields data)
  ∧ NoDup (map (λ f, (Schema.Field.collection f, Schema.Field.field f))
               (Schema.fields data))
  ∧ Forall (λ r, Fs.plain (Schema.Relation.collection r)
                 ∧ Fs.plain (Schema.Relation.field r))
           (Schema.relations data)
  ∧ NoDup (map (λ r, (Schema.Relation.collection r, Schema.Relation.field r))
               (Schema.relations data)).

#[global] Instance plain_dec (name : string) : Decision (Fs.plain name).
Proof. unfold Fs.plain. apply _. Defined.

#[global] Instance well_named_dec (data : Schema.Snapshot)
  : Decision (well_named data).
Proof. unfold well_named. apply _. Defined.

(** Where the file of a collection, of a field and of a relation goes
    below the dump directory [D] when its names are plain, and what it
    holds. *)
Definition collection_entry (D : Fs.path) (c : Schema.Collection.t)
    : Fs.path * Schema.document :=
  (D ++ ["collections"; Schema.Collection.collection c +:+ ".json"],
   Schema.OfCollection c).

Definition field_entry (D : Fs.path) (f : Schema.Field.t)
    : Fs.path * Schema.document :=
  (D ++ ["fields"; Schema.Field.collection f; Schema.Field.field f +:+ ".json"],
   Schema.OfField f).

Definition relation_entry (D : Fs.path) (r : Schema.Relation.t)
    : Fs.path * Schema.document :=
  (D ++ ["relations"; Schema.Relation.collection r;
         Schema.Relation.field r +:+ ".json"],
   Schema.OfRelation r).




Section Client.
Context {R Diff : Type}.

(** The Directus instance behind [MigrationClient] and the SDK. *)
Variable getClient : action R Fs.error unit.
Variable schemaSnapshot : action R Fs.error Schema.Snapshot.
Variable schemaDiff : Schema.Snapshot → action R Fs.error (option Diff).
Variable schemaApply : Diff → action R Fs.error unit.

Variable config : SnapshotConfig.

(** What the unchecked casts make of a document of another shape. *)
Variable unchecked : Unchecked.

#[local] Abbreviation state := (state R Diff).
#[local] Abbreviation client A := (action state Fs.error A).

Definition on_remote {A} (m : action R Fs.error A) : client A :=
  λ s, let '(r, remote') := m (remote s) in
       (r, {| fs := fs s; remote := remote';
              requests := requests s; logs := logs s |}).

Definition sent (q : request Diff) : client unit :=
  λ s, (Ok tt, {| fs := fs s; remote := remote s;
                  requests := requests s ++ [q]; logs := logs s |}).

Definition logger (msg : string) : client unit :=
  λ s, (Ok tt, {| fs := fs s; remote := remote s;
                  requests := requests s; logs := logs s ++ [msg] |}).

(** A call of [fs-extra] that changes the file system. *)
Definition on_fs (f : gmap Fs.path Fs.node → result Fs.error (gmap Fs.path Fs.node))
    : client unit :=
  λ s, match f (fs s) with
       | Ok fs' => (Ok tt, {| fs := fs'; remote := remote s;
                              requests := requests s; logs := logs s |})
       | Throw e => (Throw e, s)
       end.

(** A call that only reads it, and the cast of what it read. *)
Definition read_fs {A} (f : gmap Fs.path Fs.node → result Fs.error A)
    : client A :=
  λ s, (f (fs s), s).

(** [getSnapshot()] *)
Definition getSnapshot : client Schema.Snapshot :=
  on_remote getClient ;;
  sent SchemaSnapshot ;;
  on_remote schemaSnapshot.

(** [decomposeData(data)] *)
Definition decomposeData (data : Schema.Snapshot) : list file :=
  let files := [ {| path := INFO_JSON; content := Schema.Plain (Schema.info data) |} ] in
  let files :=
    foldl (λ files collection,
             files ++ [ {| path := COLLECTIONS_DIR +:+ "/"
                                   +:+ Schema.Collection.collection collection
                                   +:+ ".json";
                           content := Schema.OfCollection collection |} ])
          files (Schema.collections data) in
  let files :=
    foldl (λ files field,
             files ++ [ {| path := FIELDS_DIR +:+ "/"
                                   +:+ Schema.Field.collection field +:+ "/"
                                   +:+ Schema.Field.field field +:+ ".json";
                           content := Schema.OfField field |} ])
          files (Schema.fields data) in
  let files :=
    foldl (λ files relation,
             files ++ [ {| path := RELATIONS_DIR +:+ "/"
                                   +:+ Schema.Relation.collection relation +:+ "/"
                                   +:+ Schema.Relation.field relation +:+ ".json";
                           content := Schema.OfRelation relation |} ])
          files (Schema.relations data) in
  files.

(** The loop of [saveData] over the decomposed files. *)
Fixpoint write_files (files : list file) : client unit :=
  match files with
  | [] => mret tt
  | file :: rest =>
      let filePath := Fs.path_join (dumpPath config) (path file) in
      let dirPath := Fs.path_dirname filePath in
      on_fs (Fs.mkdirpSync dirPath) ;;
      on_fs (Fs.writeJsonSync filePath (content file)) ;;
      write_files rest
  end.

(** [saveData(data)] *)
Definition saveData (data : Schema.Snapshot) : client nat :=
  on_fs (λ fs, Ok (Fs.removeSync (dumpPath config) fs)) ;;
  on_fs (Fs.mkdirpSync (dumpPath config)) ;;
  if splitFiles config then
    let files := decomposeData data in
    write_files files ;;
    mret (length files)
  else
    let filePath := Fs.path_join (dumpPath config) SNAPSHOT_JSON in
    on_fs (Fs.writeJsonSync filePath (Schema.Whole data)) ;;
    mret 1.

(** What [saveData(data)] writes, in order: the path and the content
    of every call of [writeJsonSync]. *)
Definition written (data : Schema.Snapshot)
    : list (Fs.path * Schema.document) :=
  if splitFiles config then
    map (λ file, (Fs.path_join (dumpPath config) (path file), content file))
        (decomposeData data)
  else [(Fs.path_join (dumpPath config) SNAPSHOT_JSON, Schema.Whole data)].

(** The files that a sequence of writes leaves: a later write to a
    path replaces an earlier one. *)
Definition files_of (writes : list (Fs.path * Schema.document))
    : gmap Fs.path Schema.document :=
  foldl (λ files w, <[w.1 := w.2]> files) ∅ writes.

Definition saved_message (numberOfFiles : nat) : string :=
  "Saved " +:+ pretty numberOfFiles +:+ " file"
  +:+ (if bool_decide (1 < numberOfFiles) then "s" else "")
  +:+ " to " +:+ Fs.show_path (dumpPath config).

(** [dump()]: the function has no [return]. *)
Definition dump : client unit :=
  snapshot ← getSnapshot;
  numberOfFiles ← saveData snapshot;
  logger (saved_message numberOfFiles).

(** Modelled from the spec: [loadJsonFilesRecursively] of the helpers,
    which is not among the sources. It reassembles one list of the
    decomposed tree: the contents of the JSON files below [dir], every
    directory being read in the order of its entries' names; a
    directory that does not exist holds no file. *)
Definition loadJsonFilesRecursively {A} (cast : Schema.document → A)
    (dir : Fs.path) : client (list A) :=
  read_fs (λ fs, Ok (map (λ entry, cast entry.2)
                       (merge_sort Fs.entry_le
                          (map_to_list (Fs.json_files dir fs))))).

(** [readJsonSync(p) as A] *)
Definition read_as {A} (cast : Schema.document → A) (p : Fs.path)
    : client A :=
  read_fs (λ fs, match Fs.readJsonSync p fs with
                 | Ok d => Ok (cast d)
                 | Throw e => Throw e
                 end).

(** [loadData()] *)
Definition loadData : client Schema.Snapshot :=
  if splitFiles config then
    collections ← loadJsonFilesRecursively
                     (cast as_collection (foreign_collection unchecked))
                     (Fs.path_join (dumpPath config) COLLECTIONS_DIR);
    fields ← loadJsonFilesRecursively
                (cast as_field (foreign_field unchecked))
                (Fs.path_join (dumpPath config) FIELDS_DIR);
    relations ← loadJsonFilesRecursively
                   (cast as_relation (foreign_relation unchecked))
                   (Fs.path_join (dumpPath config) RELATIONS_DIR);
    info ← read_as (cast as_info (foreign_info unchecked))
              (Fs.path_join (dumpPath config) INFO_JSON);
    mret {| Schema.info := info; Schema.collections := collections;
            Schema.fields := fields; Schema.relations := relations |}
  else
    let filePath := Fs.path_join (dumpPath config) SNAPSHOT_JSON in
    read_as (cast as_snapshot (foreign_snapshot unchecked)) filePath.

(** [diffSnapshot()] *)
Definition diffSnapshot : client (option Diff) :=
  on_remote getClient ;;
  snapshot ← loadData;
  sent (SchemaDiff snapshot) ;;
  on_remote (schemaDiff snapshot).

(** [restore()]: [None] is the [undefined] of the SDK. *)
Definition restore : client unit :=
  diff ← diffSnapshot;
  match diff with
  | None => logger "No changes to apply"
  | Some diff =>
      on_remote getClient ;;
      sent (SchemaApply diff) ;;
      on_remote (schemaApply diff) ;;
      logger "Changes applied"
  end.

(** [d.diff] of an answer [d] of [schemaDiff] *)
Variable changes : Diff → Schema.Diff.t.

Definition found_message (n : nat) (kind : string) : string :=
  "Found " +:+ pretty n +:+ " change"
  +:+ (if bool_decide (1 < n) then "s" else "") +:+ " in " +:+ kind.

(** [plan()]: of the last line, [logger.debug(diff, 'Diff')], the log
    keeps the message. *)
Definition plan : client unit :=
  diff ← diffSnapshot;
  match diff with
  | None => logger "No changes to apply"
  | Some diff =>
      let collections := Schema.Diff.collections (changes diff) in
      let fields := Schema.Diff.fields (changes diff) in
      let relations := Schema.Diff.relations (changes diff) in
      logger (found_message (length collections) "collections") ;;
      logger (found_message (length fields) "fields") ;;
      logger (found_message (length relations) "relations") ;;
      logger "Diff"
  end.

End Client.
End SnapshotClient.

(** ** Request validation *)

Module Validation.

(** An element of the path of a Zod issue: [(string | number)[]]. *)
Inductive path_element : Type :=
| Key (k : string)
| Index (i : N).

Record ZodIssue : Type := {
  path : list path_element;
  message : string;
}.

Record HttpError : Type := {
  statusCode : Z;
  http_message : string;
}.

(** What leaves [validateInput] when it throws: an error that
    [isHttpError] accepts, as [createError] makes them; a [TypeError];
    or any other value. *)
Inductive failure : Type :=
| HttpFailure (e : HttpError)
| TypeErrorFailure
| OtherFailure.

(** What [zodSchema.parse] throws, which is what [catch (error)]
    receives: any value. It is a [ZodError] with its issues; [null] or
    [undefined]; or any other value, of which the code reads the
    [message]: a string, or anything else (the property is absent, as
    on a thrown string, or holds a value of another type), [V] being
    the type of such values; or the read itself throws, when [message]
    is an accessor that does. *)
Inductive thrown (V : Type) : Type :=
| ZodError (issues : list ZodIssue)
| Nullish
| WithMessage (message : string)
| WithOther (message : V)
| Unreadable (raised : failure).
Arguments ZodError {V} issues.
Arguments Nullish {V}.
Arguments WithMessage {V} message.
Arguments WithOther {V} message.
Arguments Unreadable {V} raised.

(** A schema is its [parse] method. *)
Definition ZodSchema (P T V : Type) : Type := P → result (thrown V) T.

(** [createError(status, message)] of [http-errors], for a string *)
Definition createError (status : Z) (message : string) : HttpError :=
  {| statusCode := status; http_message := message |}.

(** [Array.prototype.join] *)
Definition join (separator : string) (l : list string) : string :=
  match l with
  | [] => ""
  | x :: rest => foldl (λ acc y, acc +:+ separator +:+ y) x rest
  end.

Definition show_element (e : path_element) : string :=
  match e with
  | Key k => k
  | Index i => pretty i
  end.

Definition issue_line (e : ZodIssue) : string :=
  "[" +:+ join "," (map show_element (path e)) +:+ "] " +:+ message e.

(** The [message] of the [catch] block: the joined issues of a
    [ZodError], else [error.message], whose read throws a [TypeError]
    on [null] and [undefined] and what the accessor throws when there
    is one that does. *)
Definition caught_message {V} (error : thrown V)
    : result failure (string + V) :=
  match error with
  | ZodError issues => Ok (inl (join ". " (map issue_line issues)))
  | Nullish => Throw TypeErrorFailure
  | WithMessage message => Ok (inl message)
  | WithOther message => Ok (inr message)
  | Unreadable raised => Throw raised
  end.

Section ValidateInput.
Context {P T V : Type}.

(** [createError(400, message)] for a [message] that is no string:
    by its version and by the type of the value, [http-errors] ignores
    it, takes it for the properties or the cause of the error, or
    refuses it with a [TypeError]. *)
Variable createError_other : V → failure.

Definition validateInput (params : P) (zodSchema : ZodSchema P T V)
    : result failure T :=
  match zodSchema params with
  | Ok value => Ok value
  | Throw error =>
      match caught_message error with
      | Throw e => Throw e
      | Ok (inl message) => Throw (HttpFailure (createError 400 message))
      | Ok (inr message) => Throw (createError_other message)
      end
  end.

End ValidateInput.

(** [req.accountability] as the handlers read it: the user when there
    is one, and the admin flag, an absent flag counting as [false]. *)
Record Accountability : Type := {
  user : option string;
  admin : bool;
}.

Record Request : Type := {
  accountability : option Accountability;
}.

(** An error as the error middlewares see it ([err: any]): one that
    [isHttpError] accepts, or any other value, with its [message] when
    it has one. *)
Inductive error : Type :=
| Http (e : HttpError)
| Other (message : option string).

(** [err.message] *)
Definition error_message (err : error) : option string :=
  match err with
  | Http e => Some (http_message e)
  | Other message => message
  end.

(** How a middleware hands over: [next()], [next(err)], or no call of
    [next] at all. *)
Inductive handover : Type :=
| Next
| NextError (err : error)
| Answered.

(** The response: whether its headers are sent, its status, and the
    body sent by [res.json({ message })], if any. *)
Record Response : Type := {
  headersSent : bool;
  status : Z;
  body : option (option string);
}.

(** [res.status(code)] *)
Definition res_status (code : Z) (res : Response) : Response :=
  {| headersSent := headersSent res; status := code; body := body res |}.

(** [res.json({ message })]: the response is sent. *)
Definition res_json (message : option string) (res : Response) : Response :=
  {| headersSent := true; status := status res; body := Some message |}.

(** What [logger.error] is given: a line, or the error value itself. *)
Inductive log_entry : Type :=
| LogLine (line : string)
| LogValue (err : error).

(** [ensureIsAdminHandler(req, _res, next)] *)
Definition ensureIsAdminHandler (req : Request) : handover :=
  match accountability req ≫= user with
  | None =>
      NextError (Http (createError 401 "You must be logged in to access this."))
  | Some _ =>
      if negb (from_option admin false (accountability req)) then
        NextError
          (Http (createError 403 "You do not have permission to access this."))
      else Next
  end.

(** [errorHandler(err, _req, res, next)] *)
Definition errorHandler (err : error) (res : Response) : Response * handover :=
  if headersSent res then (res, NextError err)
  else
    let res :=
      match err with
      | Http e => res_status (statusCode e) res
      | Other _ => res_status 500 res
      end in
    (res_json (error_message err) res, Answered).

(** [err.message || err] *)
Definition message_or_value (err : error) : log_entry :=
  match error_message err with
  | Some message => if bool_decide (message = "") then LogValue err
                    else LogLine message
  | None => LogValue err
  end.

(** [logError(logger)(err, _req, _res, next)], on the lines the logger
    holds. *)
Definition logError (err : error) (lines : list log_entry)
    : list log_entry * handover :=
  match err with
  | Http e =>
      if bool_decide (statusCode e < 500)%Z then (lines, NextError err)
      else
        (lines ++ [LogLine (pretty (statusCode e) +:+ ": " +:+ http_message e)],
         NextError err)
  | Other _ => (lines ++ [message_or_value err], NextError err)
  end.

End Validation.

(** ** What the collections answer, pass after pass *)

Section Passes.
Context {W E : Type}.

(** The answers of [restore()] when the collections are called one
    after the other from the world [w], up to the first that throws:
    the values returned, the error thrown if any, and the world left. *)
Fixpoint restore_results (collections : list (Collection W E)) (w : W)
    : list bool * option E * W :=
  match collections with
  | [] => ([], None, w)
  | collection :: rest =>
      match restore collection w with
      | (Ok retry, w') =>
          let '(returned, thrown, w'') := restore_results rest w' in
          (retry :: returned, thrown, w'')
      | (Throw e, w') => ([], Some e, w')
      end
  end.

(** The same for [cleanUp()]: how many returned. *)
Fixpoint cleanUp_results (collections : list (Collection W E)) (w : W)
    : nat * option E * W :=
  match collections with
  | [] => (0, None, w)
  | collection :: rest =>
      match cleanUp collection w with
      | (Ok _, w') =>
          let '(returned, thrown, w'') := cleanUp_results rest w' in
          (S returned, thrown, w'')
      | (Throw e, w') => (0, Some e, w')
      end
  end.

(** Pass number [k] (from 0) over the collections, every pass before it
    having been carried through from the world [w]. *)
Definition nth_pass (k : nat) (collections : list (Collection W E)) (w : W)
    : list bool * option E * W :=
  restore_results collections
    (Nat.iter k (λ w, (restore_results collections w).2) w).

(** A full pass in which every collection returned [false]. *)
Definition quiet_pass (o : list bool * option E * W) : Prop :=
  o.1.2 = None ∧ Forall (λ retry, retry = false) o.1.1.

(** A full pass in which some collection returned [true]. *)
Definition retry_pass (o : list bool * option E * W) : Prop :=
  o.1.2 = None ∧ true ∈ o.1.1.

(** The calls of a pass with these answers, from position [i] on. *)
Fixpoint restore_calls (i : nat) (returned : list bool) (thrown : option E)
    : list (call E) :=
  match returned with
  | [] =>
      match thrown with
      | Some e => [RestoreCall i (Throw e)]
      | None => []
      end
  | retry :: rest => RestoreCall i (Ok retry) :: restore_calls (S i) rest thrown
  end.

Fixpoint cleanUp_calls (i : nat) (returned : nat) (thrown : option E)
    : list (call E) :=
  match returned with
  | O =>
      match thrown with
      | Some e => [CleanUpCall i (Throw e)]
      | None => []
      end
  | S rest => CleanUpCall i (Ok tt) :: cleanUp_calls (S i) rest thrown
  end.

(** The order of the calls: every collection cleaned up, by position,
    and one pass of [restore()], by position. *)
Definition cleanUp_order (n : nat) : list (method * nat) :=
  map (pair MCleanUp) (seq 0 n).

Definition restore_order (n : nat) : list (method * nat) :=
  map (pair MRestore) (seq 0 n).

(** A call of [restore()] that threw. *)
Definition restore_threw (c : call E) : Prop :=
  ∃ i e, c = RestoreCall i (Throw e).

(** A promise that settles, however many iterations that takes. *)
Definition terminates {S} (p : nat → promise E * S) : Prop :=
  ∃ fuel, (p fuel).1 ≠ Pending.

End Passes.

(** ** Runs of the driver on small lists of collections *)

Module DriverExamples.

(** The world is a counter of the calls of [restore()] made so far. *)
Definition noop : action nat string unit := mret tt.

(** A collection without dependency references. *)
Definition steady : Collection nat string :=
  {| cleanUp := noop; restore := λ w, (Ok false, S w) |}.

(** A collection whose records wait for a record that never comes. *)
Definition stubborn : Collection nat string :=
  {| cleanUp := noop; restore := λ w, (Ok true, S w) |}.

(** A collection that is done from its second call on. *)
Definition late : Collection nat string :=
  {| cleanUp := noop; restore := λ w, (Ok (w <? 2), S w) |}.

(** A collection that the remote instance rejects. *)
Definition faulty : Collection nat string :=
  {| cleanUp := noop; restore := λ w, (Throw "validation failed", w) |}.

Definition fresh : driver_state nat string :=
  {| world := 0; calls := []; logged := [] |}.

(** A call that the remote instance refuses. *)
Definition unreachable : action nat string unit :=
  λ w, (Throw "ECONNREFUSED", w).

(** A collection whose clean up fails. *)
Definition dangling : Collection nat string :=
  {| cleanUp := unreachable; restore := λ w, (Ok false, S w) |}.

(** A top-level handler that returns. *)
Definition acknowledged : string → action nat string unit := λ _, noop.

End DriverExamples.

(** ** A chain of three collections *)

Module RestorerExamples.

Definition roles : Restorer.config :=
  {| Restorer.name := "roles";
     Restorer.records :=
       [ {| Restorer.id := "admin"; Restorer.references := [] |};
         {| Restorer.id := "editor"; Restorer.references := [] |} ] |}.

Definition users : Restorer.config :=
  {| Restorer.name := "users";
     Restorer.records :=
       [ {| Restorer.id := "alice";
            Restorer.references := [("roles", "admin")] |};
         {| Restorer.id := "bob";
            Restorer.references := [("roles", "editor")] |} ] |}.

Definition files : Restorer.config :=
  {| Restorer.name := "files";
     Restorer.records :=
       [ {| Restorer.id := "logo";
            Restorer.references := [("users", "alice"); ("users", "bob")] |} ] |}.

Definition no_cleanUp (c : Restorer.config)
    : action Restorer.remote string unit := mret tt.

(** An instance on which nothing exists yet, at the start of a run. *)
Definition empty : driver_state Restorer.remote string :=
  {| world := {| Restorer.existing := ∅; Restorer.applied := ∅ |};
     calls := []; logged := [] |}.

(** The collections declared against their dependencies. *)
Definition backwards : list (Collection Restorer.remote string) :=
  map (λ c, Restorer.restorer (no_cleanUp c) c) [files; users; roles].

End RestorerExamples.

(** ** A small instance for the snapshot client *)

Module SnapshotExamples.

Definition collection (name : string) : Schema.Collection.t :=
  {| Schema.Collection.collection := name;
     Schema.Collection.rest := Schema.JObject [("meta", Schema.JNull)] |}.

Definition field (collection name : string) : Schema.Field.t :=
  {| Schema.Field.collection := collection;
     Schema.Field.field := name;
     Schema.Field.rest := Schema.JObject [("type", Schema.JString "string")] |}.

Definition relation (collection name : string) : Schema.Relation.t :=
  {| Schema.Relation.collection := collection;
     Schema.Relation.field := name;
     Schema.Relation.rest :=
       Schema.JObject [("related_collection", Schema.JString "roles")] |}.

Definition info : Schema.json :=
  Schema.JObject [("version", Schema.JNumber 1);
                  ("vendor", Schema.JString "postgres")].

(** Two collections, listed out of the order of their names. *)
Definition snapshot : Schema.Snapshot :=
  {| Schema.info := info;
     Schema.collections := [collection "users"; collection "roles"];
     Schema.fields := [field "users" "role"; field "roles" "name"];
     Schema.relations := [relation "users" "role"] |}.

Definition split : SnapshotClient.SnapshotConfig :=
  {| SnapshotClient.dumpPath := ["srv"; "dump"];
     SnapshotClient.splitFiles := true |}.

Definition single : SnapshotClient.SnapshotConfig :=
  {| SnapshotClient.dumpPath := ["srv"; "dump"];
     SnapshotClient.splitFiles := false |}.

(** The instance: the number of collections of its schema. A diff is
    the number of collections of the snapshot when it differs. *)
Definition getClient : action nat Fs.error unit := mret tt.

Definition schemaSnapshot : action nat Fs.error Schema.Snapshot :=
  λ live, (Ok snapshot, live).

Definition schemaDiff (local : Schema.Snapshot)
    : action nat Fs.error (option nat) :=
  λ live,
    (Ok (if bool_decide (length (Schema.collections local) = live)
         then None else Some (length (Schema.collections local))),
     live).

Definition schemaApply (diff : nat) : action nat Fs.error unit :=
  λ live, (Ok tt, diff).

(** The changes of a diff: as many collections as it counts. *)
Definition changes (diff : nat) : Schema.Diff.t :=
  {| Schema.Diff.collections := replicate diff Schema.JNull;
     Schema.Diff.fields := [];
     Schema.Diff.relations := [] |}.

(** A file of another shape is taken for an empty value. *)
Definition unchecked : SnapshotClient.Unchecked :=
  {| SnapshotClient.foreign_snapshot :=
       λ _, {| Schema.info := Schema.JNull; Schema.collections := [];
               Schema.fields := []; Schema.relations := [] |};
     SnapshotClient.foreign_info := λ _, Schema.JNull;
     SnapshotClient.foreign_collection := λ _, collection "";
     SnapshotClient.foreign_field := λ _, field "" "";
     SnapshotClient.foreign_relation := λ _, relation "" "" |}.

(** An instance that cannot be reached. *)
Definition offline : action nat Fs.error Schema.Snapshot :=
  λ live, (Throw (Fs.RemoteError "ECONNREFUSED"), live).

(** A dump directory that holds a file of another tool. *)
Definition initial (live : nat) : SnapshotClient.state nat nat :=
  {| SnapshotClient.fs :=
       {[ ["srv"; "dump"; "notes.txt"] :=
            Fs.File (Schema.Plain (Schema.JString "mine")) ]};
     SnapshotClient.remote := live;
     SnapshotClient.requests := [];
     SnapshotClient.logs := [] |}.

(** The same snapshot, every list in the order of the paths of its
    files. *)
Definition by_path : Schema.Snapshot :=
  {| Schema.info := info;
     Schema.collections := [collection "roles"; collection "users"];
     Schema.fields := [field "roles" "name"; field "users" "role"];
     Schema.relations := [relation "users" "role"] |}.

(** A snapshot that lists one collection twice. *)
Definition twice : Schema.Snapshot :=
  {| Schema.info := info;
     Schema.collections := [collection "roles"; collection "roles"];
     Schema.fields := [];
     Schema.relations := [] |}.

(** The same with a file of a web site beside the dump directory. *)
Definition beside (live : nat) : SnapshotClient.state nat nat :=
  {| SnapshotClient.fs :=
       <[ ["srv"; "www"; "index.json"] :=
            Fs.File (Schema.Plain (Schema.JString "home")) ]>
       (<[ ["srv"; "www"] := Fs.Dir ]>
        (SnapshotClient.fs (initial live)));
     SnapshotClient.remote := live;
     SnapshotClient.requests := [];
     SnapshotClient.logs := [] |}.

(** A snapshot with a collection whose name walks up the tree. *)
Definition stray : Schema.Snapshot :=
  {| Schema.info := info;
     Schema.collections := [collection "../../stray"];
     Schema.fields := [];
     Schema.relations := [] |}.

(** The state a dump in single-file mode leaves. *)
Definition saved (live : nat) : SnapshotClient.state nat nat :=
  (SnapshotClient.dump getClient schemaSnapshot single (initial live)).2.

(** The state a dump in split mode leaves. *)
Definition dumped (live : nat) : SnapshotClient.state nat nat :=
  (SnapshotClient.dump getClient schemaSnapshot split (initial live)).2.

End SnapshotExamples.

(** ** A schema for the validation helper *)

Module ValidationExamples.

(** The parameters [{ user: { emails: [..] }, age }] cut down to an
    age: the schema wants it below 150. *)
Definition age_schema : Validation.ZodSchema nat nat unit :=
  λ age,
    if age <? 150 then Ok age
    else Throw (Validation.ZodError
                  [ {| Validation.path := [Validation.Key "user";
                                           Validation.Key "ages";
                                           Validation.Index 0];
                       Validation.message := "Number must be less than 150" |};
                    {| Validation.path := [];
                       Validation.message := "Unrecognized key" |} ]).

(** A schema whose refinement throws an error of its own. *)
Definition broken_schema : Validation.ZodSchema nat nat unit :=
  λ _, Throw (Validation.WithMessage "refinement failed").

(** A schema whose refinement throws [null]. *)
Definition null_schema : Validation.ZodSchema nat nat unit :=
  λ _, Throw Validation.Nullish.

(** A [createError] that refuses a message that is no string. *)
Definition refused : unit → Validation.failure :=
  λ _, Validation.TypeErrorFailure.

(** A request without a session, one of a user who is no admin, and
    one of an admin. *)
Definition anonymous : Validation.Request :=
  {| Validation.accountability := None |}.

Definition editor : Validation.Request :=
  {| Validation.accountability :=
       Some {| Validation.user := Some "6f1c"; Validation.admin := false |} |}.

Definition administrator : Validation.Request :=
  {| Validation.accountability :=
       Some {| Validation.user := Some "02ab"; Validation.admin := true |} |}.

(** A response that nothing has been written to. *)
Definition unsent : Validation.Response :=
  {| Validation.headersSent := false;
     Validation.status := 200;
     Validation.body := None |}.

End ValidationExamples.

(** * Properties *)

(** A pair is its first component and what is left of it. *)
Lemma pair_of_fst {A B} (x : A * B) (a : A) : x.1 = a → x = (a, x.2).
Proof. destruct x. simpl. by intros ->. Qed.

(** ** The restore driver *)

Section DriverProperties.
Context {W E : Type}.
Implicit Types (cs : list (Collection W E)) (s : driver_state W E).
Implicit Types (returned : list bool) (thrown : option E).

Lemma driver_state_eta s :
  {| world := world s; calls := calls s ++ []; logged := logged s |} = s.
Proof. destruct s; simpl. by rewrite app_nil_r. Qed.

(** One pass of the driver makes exactly the calls that
    [restore_results] lists, and its verdict is read off their answers. *)
Lemma restorePass_results cs i stop s :
  restorePass i cs stop s =
    (match (restore_results cs (world s)).1.2 with
     | Some e => Throw e
     | None => Ok (stop && forallb negb (restore_results cs (world s)).1.1)
     end,
     {| world := (restore_results cs (world s)).2;
        calls := calls s ++ restore_calls i (restore_results cs (world s)).1.1
                                          (restore_results cs (world s)).1.2;
        logged := logged s |}).
Proof.
  revert i stop s. induction cs as [|c cs IH]; intros i stop s.
  - simpl. rewrite driver_state_eta, andb_true_r. done.
  - simpl. unfold mbind, action_bind, await.
    destruct (restore c (world s)) as [[retry|e] w'] eqn:Hc; simpl; [|done].
    rewrite IH; simpl.
    destruct (restore_results cs w') as [[returned thrown] w''] eqn:Hrest; simpl.
    rewrite <- app_assoc; simpl.
    destruct thrown; [done|].
    by destruct retry, stop.
Qed.

Lemma cleanUpLoop_results cs i s :
  cleanUpLoop i cs s =
    (match (cleanUp_results cs (world s)).1.2 with
     | Some e => Throw e
     | None => Ok tt
     end,
     {| world := (cleanUp_results cs (world s)).2;
        calls := calls s ++ cleanUp_calls i (cleanUp_results cs (world s)).1.1
                                          (cleanUp_results cs (world s)).1.2;
        logged := logged s |}).
Proof.
  revert i s. induction cs as [|c cs IH]; intros i s.
  - simpl. by rewrite driver_state_eta.
  - simpl. unfold mbind, action_bind, await.
    destruct (cleanUp c (world s)) as [[[]|e] w'] eqn:Hc; simpl; [|done].
    rewrite IH; simpl.
    destruct (cleanUp_results cs w') as [[returned thrown] w''] eqn:Hrest; simpl.
    by rewrite <- app_assoc.
Qed.

(** The answers of a pass: as many as there are collections unless one
    threw. *)
Lemma restore_results_length cs w :
  match (restore_results cs w).1.2 with
  | None => length (restore_results cs w).1.1 = length cs
  | Some _ => length (restore_results cs w).1.1 < length cs
  end.
Proof.
  revert w. induction cs as [|c cs IH]; intros w; simpl; [done|].
  destruct (restore c w) as [[retry|e] w']; simpl; [|lia].
  specialize (IH w').
  destruct (restore_results cs w') as [[returned thrown] w'']; simpl in *.
  destruct thrown; lia.
Qed.

Lemma cleanUp_results_length cs w :
  match (cleanUp_results cs w).1.2 with
  | None => (cleanUp_results cs w).1.1 = length cs
  | Some _ => (cleanUp_results cs w).1.1 < length cs
  end.
Proof.
  revert w. induction cs as [|c cs IH]; intros w; simpl; [done|].
  destruct (cleanUp c w) as [[[]|e] w']; simpl; [|lia].
  specialize (IH w').
  destruct (cleanUp_results cs w') as [[returned thrown] w'']; simpl in *.
  destruct thrown; lia.
Qed.

Lemma callee_restore_calls i returned thrown :
  map callee (restore_calls i returned thrown) =
    map (pair MRestore)
        (seq i (length returned + length (option_list thrown))).
Proof.
  revert i. induction returned as [|b bs IH]; intros i; simpl.
  - by destruct thrown.
  - by rewrite IH.
Qed.

Lemma callee_cleanUp_calls i (n : nat) thrown :
  map callee (cleanUp_calls i n thrown) =
    map (pair MCleanUp) (seq i (n + length (option_list thrown))).
Proof.
  revert i. induction n as [|n IH]; intros i; simpl.
  - by destruct thrown.
  - by rewrite IH.
Qed.

Lemma seq_take i n m : m ≤ n → seq i m = take m (seq i n).
Proof. intros. by rewrite take_seq, Nat.min_l. Qed.

Lemma restoreLoop_stopped fuel cs index s :
  restoreLoop fuel cs true index s = (Fulfilled, s).
Proof. by destruct fuel. Qed.

(** One iteration of the loop, in terms of the answers of its pass. *)
Lemma restoreLoop_step fuel cs index s :
  restoreLoop (S fuel) cs false index s =
    let o := restore_results cs (world s) in
    let s' := {| world := o.2;
                 calls := calls s ++ restore_calls 0 o.1.1 o.1.2;
                 logged := logged s ++ [iteration_message index] |} in
    match o.1.2 with
    | Some e => (Rejected e, s')
    | None => restoreLoop fuel cs (forallb negb o.1.1) (index + 1 + 1)%N s'
    end.
Proof.
  cbn [restoreLoop]. unfold mbind, action_bind, info.
  rewrite restorePass_results. cbn [world calls logged].
  by destruct (restore_results cs (world s)) as [[returned [e|]] w'].
Qed.

Lemma nth_pass_S k cs w :
  nth_pass (S k) cs w = nth_pass k cs (restore_results cs w).2.
Proof. unfold nth_pass. by rewrite Nat.iter_succ_r. Qed.

Lemma quiet_pass_forallb (o : list bool * option E * W) :
  quiet_pass o ↔ o.1.2 = None ∧ forallb negb o.1.1 = true.
Proof.
  unfold quiet_pass. rewrite forallb_forall, Forall_forall.
  split; intros [? H]; (split; [done|]); intros b Hb.
  - apply list_elem_of_In, H in Hb. by subst.
  - apply list_elem_of_In, H in Hb. by destruct b.
Qed.

Lemma retry_pass_forallb (o : list bool * option E * W) :
  retry_pass o ↔ o.1.2 = None ∧ forallb negb o.1.1 = false.
Proof.
  unfold retry_pass. split; intros [? H]; (split; [done|]).
  - apply not_true_is_false. rewrite forallb_forall. intros Hall.
    apply list_elem_of_In, Hall in H. done.
  - induction (o.1.1) as [|b bs IH]; [done|]. simpl in H.
    destruct b; [left|right; apply IH; done].
Qed.

(** A pass that is not a retry pass ends the loop: a [restore()] threw
    in it, or every collection returned [false]. *)
Lemma last_pass_cases (o : list bool * option E * W) :
  ¬ retry_pass o →
  (∃ e, o.1.2 = Some e) ∨ (o.1.2 = None ∧ forallb negb o.1.1 = true).
Proof.
  intros Hlast. destruct (o.1.2) as [e|] eqn:Hthrown; [eauto|right].
  split; [done|]. destruct (forallb negb o.1.1) eqn:Hall; [done|].
  exfalso. apply Hlast. by apply retry_pass_forallb.
Qed.

Lemma restoreLoop_fulfilled_iff fuel cs index s :
  (restoreLoop fuel cs false index s).1 = Fulfilled ↔
  ∃ k, k < fuel ∧ quiet_pass (nth_pass k cs (world s))
       ∧ ∀ j, j < k → retry_pass (nth_pass j cs (world s)).
Proof.
  revert index s. induction fuel as [|fuel IH]; intros index s.
  - simpl. split; [done|]. intros (k & ? & _); lia.
  - rewrite restoreLoop_step. cbv zeta.
    destruct ((restore_results cs (world s)).1.2) as [e|] eqn:Hthrown.
    + split; [done|]. intros (k & _ & Hq & Hr).
      destruct k as [|k].
      * destruct Hq as [Hq _]. unfold nth_pass in Hq. simpl in Hq. congruence.
      * destruct (Hr 0) as [Hr0 _]; [lia|].
        unfold nth_pass in Hr0. simpl in Hr0. congruence.
    + destruct (forallb negb (restore_results cs (world s)).1.1) eqn:Hall.
      * rewrite restoreLoop_stopped. split; [|done]. intros _.
        exists 0. split; [lia|]. split; [|intros; lia].
        apply quiet_pass_forallb. done.
      * rewrite IH. cbn [world]. split.
        -- intros (k & ? & Hq & Hr). exists (S k). split; [lia|].
           split; [by rewrite nth_pass_S|].
           intros [|j] ?.
           ++ apply retry_pass_forallb. done.
           ++ rewrite nth_pass_S. apply Hr. lia.
        -- intros (k & ? & Hq & Hr). destruct k as [|k].
           ++ apply quiet_pass_forallb in Hq as [_ Hq].
              unfold nth_pass in Hq. simpl in Hq. congruence.
           ++ exists k. split; [lia|]. rewrite nth_pass_S in Hq.
              split; [done|]. intros j ?.
              rewrite <- nth_pass_S. apply Hr. lia.
Qed.

Lemma restoreLoop_rejected_iff fuel cs index s e :
  (restoreLoop fuel cs false index s).1 = Rejected e ↔
  ∃ k, k < fuel ∧ (nth_pass k cs (world s)).1.2 = Some e
       ∧ ∀ j, j < k → retry_pass (nth_pass j cs (world s)).
Proof.
  revert index s. induction fuel as [|fuel IH]; intros index s.
  - simpl. split; [done|]. intros (k & ? & _); lia.
  - rewrite restoreLoop_step. cbv zeta.
    destruct ((restore_results cs (world s)).1.2) as [e'|] eqn:Hthrown.
    + simpl. split.
      * intros [= ->]. exists 0. split; [lia|]. split; [done|]. intros; lia.
      * intros (k & _ & Hq & Hr). destruct k as [|k].
        -- unfold nth_pass in Hq. simpl in Hq. congruence.
        -- destruct (Hr 0) as [Hr0 _]; [lia|].
           unfold nth_pass in Hr0. simpl in Hr0. congruence.
    + destruct (forallb negb (restore_results cs (world s)).1.1) eqn:Hall.
      * rewrite restoreLoop_stopped. split; [done|].
        intros (k & _ & Hq & Hr). destruct k as [|k].
        -- unfold nth_pass in Hq. simpl in Hq. congruence.
        -- destruct (Hr 0) as [Hr0 Hr1]; [lia|].
           assert (retry_pass (nth_pass 0 cs (world s))) as Hretry by done.
           apply retry_pass_forallb in Hretry as [_ Hretry].
           unfold nth_pass in Hretry. simpl in Hretry. congruence.
      * rewrite IH. cbn [world]. split.
        -- intros (k & ? & Hq & Hr). exists (S k). split; [lia|].
           split; [by rewrite nth_pass_S|].
           intros [|j] ?.
           ++ apply retry_pass_forallb. done.
           ++ rewrite nth_pass_S. apply Hr. lia.
        -- intros (k & ? & Hq & Hr). destruct k as [|k].
           ++ unfold nth_pass in Hq. simpl in Hq. congruence.
           ++ exists k. split; [lia|]. rewrite nth_pass_S in Hq.
              split; [done|]. intros j ?.
              rewrite <- nth_pass_S. apply Hr. lia.
Qed.

(** The calls of the whole loop: full passes, then at most one pass cut
    short by a [restore()] that throws, which rejects the promise. *)
Lemma restoreLoop_trace fuel cs stop index s :
  ∃ (passes : list (list bool)) returned thrown,
    calls (restoreLoop fuel cs stop index s).2 =
      calls s ++ concat (map (λ bs, restore_calls 0 bs None) passes)
              ++ restore_calls 0 returned thrown
    ∧ Forall (λ bs, length bs = length cs) passes
    ∧ match thrown with
      | Some e => length returned < length cs
                  ∧ (restoreLoop fuel cs stop index s).1 = Rejected e
      | None => returned = []
                ∧ ∀ e, (restoreLoop fuel cs stop index s).1 ≠ Rejected e
      end.
Proof.
  revert stop index s. induction fuel as [|fuel IH]; intros stop index s.
  - exists [], [], None. destruct stop; simpl; by rewrite app_nil_r.
  - destruct stop.
    { exists [], [], None. simpl. by rewrite app_nil_r. }
    rewrite restoreLoop_step. cbv zeta.
    pose proof (restore_results_length cs (world s)) as Hlen.
    destruct (restore_results cs (world s)) as [[bs [e|]] w']; cbn [fst snd] in *.
    + exists [], bs, (Some e). simpl. done.
    + edestruct IH as (passes & returned & thrown & -> & Hpasses & Hlast).
      exists (bs :: passes), returned, thrown. cbn [calls map concat].
      split; [by rewrite <- !app_assoc|].
      split; [by constructor|]. done.
Qed.

Lemma callee_passes n (passes : list (list bool)) :
  Forall (λ bs, length bs = n) passes →
  map callee (concat (map (λ bs, @restore_calls E 0 bs None) passes)) =
    concat (replicate (length passes) (restore_order n)).
Proof.
  induction 1 as [|bs passes Hbs _ IH]; [done|].
  cbn [map concat length replicate]. rewrite map_app, IH. f_equal.
  rewrite callee_restore_calls; simpl. by rewrite Nat.add_0_r, Hbs.
Qed.

(** The steps before the loop, in terms of the answers of [cleanUp()]. *)
Lemma prepare_results (sr : action W E unit) (lc : list (Collection W E)) s :
  prepare sr lc s =
    match sr (world s) with
    | (Throw e, w') =>
        (Throw e, {| world := w'; calls := calls s;
                     logged := logged s ++ ["---- Restore schema ----"] |})
    | (Ok _, w') =>
        let o := cleanUp_results lc w' in
        (match o.1.2 with Some e => Throw e | None => Ok lc end,
         {| world := o.2;
            calls := calls s ++ cleanUp_calls 0 o.1.1 o.1.2;
            logged := (logged s ++ ["---- Restore schema ----"])
                      ++ ["---- Clean up collections ----"] |})
    end.
Proof.
  unfold prepare, mbind, action_bind, info, await_silent. cbn [world calls logged].
  destruct (sr (world s)) as [[[]|e] w']; [|done].
  rewrite cleanUpLoop_results. cbn [world calls logged].
  by destruct (cleanUp_results lc w') as [[n [e|]] w''].
Qed.

Lemma restore_calls_thrown i returned (e : E) :
  restore_calls i returned (Some e) =
    restore_calls i returned None ++ [RestoreCall (i + length returned) (Throw e)].
Proof.
  revert i. induction returned as [|b bs IH]; intros i; simpl.
  - by rewrite Nat.add_0_r.
  - rewrite IH. by replace (S i + length bs) with (i + S (length bs)) by lia.
Qed.

Lemma restore_calls_returned i returned :
  Forall (λ c, ¬ restore_threw c) (@restore_calls E i returned None).
Proof.
  revert i. induction returned as [|b bs IH]; intros i; simpl; constructor; auto.
  intros (? & ? & [=]).
Qed.

Lemma cleanUp_calls_not_restore i n thrown :
  Forall (λ c, ¬ restore_threw c) (@cleanUp_calls E i n thrown).
Proof.
  revert i. induction n as [|n IH]; intros i; simpl.
  - destruct thrown; repeat constructor. intros (? & ? & [=]).
  - constructor; auto. intros (? & ? & [=]).
Qed.

Lemma passes_returned (passes : list (list bool)) :
  Forall (λ c, ¬ restore_threw c)
         (concat (map (λ bs, @restore_calls E 0 bs None) passes)).
Proof.
  induction passes as [|bs passes IH]; simpl; [constructor|].
  apply Forall_app. split; [apply restore_calls_returned|done].
Qed.

(** The one element of a list that fails [P] is where it is. *)
Lemma split_at_only {A} (P : A → Prop) (l1 l2 l1' l2' : list A) x y :
  Forall P l1 → Forall P l2 → ¬ P y →
  l1 ++ x :: l2 = l1' ++ y :: l2' →
  l1' = l1 ∧ y = x ∧ l2' = l2.
Proof.
  intros H1 H2 Hy. revert l1' H1. induction l1 as [|a l1 IH]; intros l1' H1 Heq.
  - destruct l1' as [|b l1']; simplify_eq/=; [done|].
    exfalso. apply Hy. rewrite Forall_forall in H2. apply H2.
    apply list_elem_of_In. set_solver.
  - destruct l1' as [|b l1']; simplify_eq/=.
    + exfalso. apply Hy. by inversion H1.
    + inversion H1; subst. destruct (IH l1') as (-> & -> & ->); done.
Qed.

Lemma no_split_all {A} (P : A → Prop) (l l1' l2' : list A) y :
  Forall P l → ¬ P y → l ≠ l1' ++ y :: l2'.
Proof.
  intros Hl Hy ->. apply Hy. rewrite Forall_forall in Hl. apply Hl.
  set_solver.
Qed.

Lemma handler_not_in_cleanUp_calls i n thrown (e : E) :
  LogErrorAndStopCall e ∉ cleanUp_calls i n thrown.
Proof.
  revert i. induction n as [|n IH]; intros i; simpl.
  - destruct thrown; [intros [=]%list_elem_of_singleton|apply not_elem_of_nil].
  - intros [[=]|?]%elem_of_cons. by eapply IH.
Qed.

Lemma handler_not_in_restore_calls i returned thrown (e : E) :
  LogErrorAndStopCall e ∉ restore_calls i returned thrown.
Proof.
  revert i. induction returned as [|b bs IH]; intros i; simpl.
  - destruct thrown; [intros [=]%list_elem_of_singleton|apply not_elem_of_nil].
  - intros [[=]|?]%elem_of_cons. by eapply IH.
Qed.

Lemma handler_not_in_passes (passes : list (list bool)) (e : E) :
  LogErrorAndStopCall e ∉ concat (map (λ bs, restore_calls 0 bs None) passes).
Proof.
  induction passes as [|bs passes IH]; simpl; [apply not_elem_of_nil|].
  intros [?|?]%elem_of_app; [|done].
  by eapply handler_not_in_restore_calls.
Qed.

(** The calls of [run]: no [restore()] that threw, or exactly one, the
    last call, whose error rejects the promise. *)
Lemma run_throw_last (sr : action W E unit) (lc : list (Collection W E)) fuel s :
  ∃ tr, calls (run sr lc fuel s).2 = calls s ++ tr
    ∧ (∀ e, LogErrorAndStopCall e ∉ tr)
    ∧ (Forall (λ c, ¬ restore_threw c) tr
       ∨ ∃ pre i e, tr = pre ++ [RestoreCall i (Throw e)]
           ∧ Forall (λ c, ¬ restore_threw c) pre
           ∧ (run sr lc fuel s).1 = Rejected e).
Proof.
  unfold run. rewrite prepare_results.
  destruct (sr (world s)) as [[[]|e0] w0].
  2:{ exists []. cbn [calls snd]. rewrite app_nil_r. split; [done|].
      split; [intros; apply not_elem_of_nil|left; constructor]. }
  cbv zeta. destruct (cleanUp_results lc w0) as [[n [e0|]] w1]; cbn [fst snd].
  { eexists. cbn [calls snd]. split; [done|].
    split; [intros; apply handler_not_in_cleanUp_calls|].
    left. apply cleanUp_calls_not_restore. }
  match goal with |- context [restoreLoop fuel lc false 1%N ?s1] =>
    destruct (restoreLoop_trace fuel lc false 1%N s1)
      as (passes & returned & thrown & Hcalls & _ & Hlast) end.
  rewrite Hcalls. cbn [calls]. eexists. rewrite <- app_assoc. split; [done|].
  split.
  { intros e [?|[?|?]%elem_of_app]%elem_of_app.
    - by eapply handler_not_in_cleanUp_calls.
    - by eapply handler_not_in_passes.
    - by eapply handler_not_in_restore_calls. }
  destruct thrown as [e|].
  - right. destruct Hlast as [_ Hrej]. rewrite restore_calls_thrown.
    eexists _, _, e. rewrite !app_assoc. split; [done|]. split; [|done].
    rewrite <- app_assoc. apply Forall_app. split; [apply cleanUp_calls_not_restore|].
    apply Forall_app. split; [apply passes_returned|apply restore_calls_returned].
  - left. destruct Hlast as [-> _]. simpl. rewrite app_nil_r.
    apply Forall_app. split; [apply cleanUp_calls_not_restore|apply passes_returned].
Qed.

(** The calls of the whole script: those of [run], then the handler
    when the promise it is chained on is rejected. *)
Lemma main_calls (sr : action W E unit) (lc : list (Collection W E))
    (init : action W E unit) (handler : E → action W E unit)
    (dispose close : action W E unit) fuel s :
  calls (main sr lc init handler dispose close fuel s).2 =
    match await_silent init s with
    | (Throw e0, s0) => calls s ++ [LogErrorAndStopCall e0]
    | (Ok _, s0) =>
        calls (run sr lc fuel s0).2
        ++ match (run sr lc fuel s0).1 with
           | Rejected e => [LogErrorAndStopCall e]
           | _ => []
           end
    end.
Proof.
  assert (Hthen : ∀ (p : promise E * driver_state W E) (m : action W E unit),
             calls (then_ p (settle (await_silent m))).2 = calls p.2).
  { intros [[|?|] s'] m; simpl; [|done..].
    unfold settle, await_silent. by destruct (m (world s')) as [[[]|?] ?]. }
  unfold main. rewrite !Hthen.
  assert (Hsettle : settle (await_silent init) s =
            match await_silent init s with
            | (Ok _, s0) => (Fulfilled, s0)
            | (Throw e0, s0) => (Rejected e0, s0)
            end) by done.
  rewrite Hsettle.
  assert (calls (await_silent init s).2 = calls s) as Hsame.
  { unfold await_silent. by destruct (init (world s)). }
  destruct (await_silent init s) as [[[]|e0] s0]; cbn [then_ catch_ snd] in *.
  - destruct (run sr lc fuel s0) as [[|e|] s']; cbn [catch_ fst snd];
      rewrite ?app_nil_r; [done| |done].
    unfold settle, mbind, action_bind, record_call, await_silent.
    cbn [world calls]. by destruct (handler e (world s')) as [[[]|?] ?].
  - unfold settle, mbind, action_bind, record_call, await_silent.
    cbn [world calls]. rewrite <- Hsame.
    by destruct (handler e0 (world s0)) as [[[]|?] ?].
Qed.

(** C1 (as amended): the convergence loop has no iteration count of
    its own. It stops normally exactly when some full pass has every
    collection return [false], every pass before it having had a
    retry; it stops with an error exactly when a [restore()] throws
    after such passes; and as long as every pass has a collection that
    returns [true] it never settles. *)
Theorem restoreLoop_termination (cs : list (Collection W E)) (index : N)
    (s : driver_state W E) :
  (∀ fuel,
     (restoreLoop fuel cs false index s).1 = Fulfilled ↔
     ∃ k, k < fuel ∧ quiet_pass (nth_pass k cs (world s))
          ∧ ∀ j, j < k → retry_pass (nth_pass j cs (world s)))
  ∧ (∀ fuel e,
       (restoreLoop fuel cs false index s).1 = Rejected e ↔
       ∃ k, k < fuel ∧ (nth_pass k cs (world s)).1.2 = Some e
            ∧ ∀ j, j < k → retry_pass (nth_pass j cs (world s)))
  ∧ ((∀ k, retry_pass (nth_pass k cs (world s))) →
     ¬ terminates (λ fuel, restoreLoop fuel cs false index s)).
Proof.
  split; [intros; apply restoreLoop_fulfilled_iff|].
  split; [intros; apply restoreLoop_rejected_iff|].
  intros Hretry [fuel Hfuel].
  destruct (restoreLoop fuel cs false index s).1 as [|e|] eqn:Hp; [| |done].
  - apply restoreLoop_fulfilled_iff in Hp as (k & _ & [_ Hq] & _).
    destruct (Hretry k) as [_ Hr].
    rewrite Forall_forall in Hq. by apply Hq in Hr.
  - apply restoreLoop_rejected_iff in Hp as (k & _ & Hq & _).
    destruct (Hretry k) as [Hr _]. congruence.
Qed.

(** C3: when every collection returns [false] at its first [restore()]
    (the first pass from the state the preparation leaves), the driver
    makes that one pass, one call per collection and in their order,
    logs one iteration, and its promise is fulfilled, whatever the
    fuel. *)
Theorem quiet_first_pass_converges (sr : action W E unit)
    (lc : list (Collection W E)) (fuel : nat) (s s1 : driver_state W E)
    (cs : list (Collection W E)) :
  prepare sr lc s = (Ok cs, s1) →
  quiet_pass (restore_results cs (world s1)) →
  cs = lc
  ∧ run sr lc (S fuel) s =
      (Fulfilled,
       {| world := (restore_results cs (world s1)).2;
          calls := calls s1
                   ++ restore_calls 0 (replicate (length cs) false) None;
          logged := logged s1 ++ [iteration_message 1] |}).
Proof.
  intros Hprep Hquiet.
  assert (cs = lc) as ->.
  { rewrite prepare_results in Hprep.
    destruct (sr (world s)) as [[[]|?] ?]; [|done].
    cbv zeta in Hprep. destruct (cleanUp_results lc _).1.2; by simplify_eq. }
  split; [done|]. unfold run. rewrite Hprep, restoreLoop_step. cbv zeta.
  pose proof (restore_results_length lc (world s1)) as Hlen.
  apply quiet_pass_forallb in Hquiet as Hall. destruct Hall as [Hnone Hall].
  destruct Hquiet as [_ Hfalse].
  rewrite Hnone in *. rewrite Hall, restoreLoop_stopped. do 3 f_equal.
  rewrite <- Hlen. clear -Hfalse. generalize 0.
  induction Hfalse as [|b bs -> _ IH]; intros i; simpl; [done|].
  by rewrite IH.
Qed.

(** The calls of a run, in order. When the preparation goes through,
    they are one [cleanUp()] per collection, by position, and then
    passes of [restore()], each by position, the last one possibly cut
    short. When the schema restore or a [cleanUp()] throws, the promise
    is rejected after the clean ups made so far and no [restore()] is
    called. *)
Lemma run_calls_shape (sr : action W E unit) (lc : list (Collection W E))
    (fuel : nat) (s : driver_state W E) :
  ∃ tr, calls (run sr lc fuel s).2 = calls s ++ tr
    ∧ match (prepare sr lc s).1 with
      | Ok _ =>
          ∃ k m, m ≤ length lc
            ∧ (m = 0 ∨ ∃ e, (run sr lc fuel s).1 = Rejected e)
            ∧ map callee tr =
                cleanUp_order (length lc)
                ++ concat (replicate k (restore_order (length lc)))
                ++ take m (restore_order (length lc))
      | Throw e =>
          (run sr lc fuel s).1 = Rejected e
          ∧ ∃ j, j ≤ length lc
              ∧ map callee tr = take j (cleanUp_order (length lc))
      end.
Proof.
  unfold run. rewrite prepare_results.
  destruct (sr (world s)) as [[[]|e0] w0].
  2:{ exists []. cbn [calls fst snd]. rewrite app_nil_r. split; [done|].
      split; [done|]. exists 0. split; [lia|]. by rewrite take_0. }
  cbv zeta. pose proof (cleanUp_results_length lc w0) as Hlen.
  destruct (cleanUp_results lc w0) as [[n [e0|]] w1]; cbn [fst snd] in *.
  { eexists. cbn [calls snd]. split; [done|]. split; [done|].
    exists (S n). split; [lia|].
    rewrite callee_cleanUp_calls. unfold cleanUp_order. simpl option_list.
    rewrite firstn_map. f_equal. rewrite Nat.add_1_r. apply seq_take. lia. }
  subst n.
  match goal with |- context [restoreLoop fuel lc false 1%N ?s1] =>
    destruct (restoreLoop_trace fuel lc false 1%N s1)
      as (passes & returned & thrown & Hcalls & Hpasses & Hlast) end.
  rewrite Hcalls. cbn [calls]. eexists. rewrite <- app_assoc. split; [done|].
  exists (length passes), (length returned + length (option_list thrown)).
  split.
  { destruct thrown; simpl; [|destruct Hlast as [-> _]; simpl]; lia. }
  split.
  { destruct thrown as [e|]; [right; exists e; apply Hlast|left].
    destruct Hlast as [-> _]. done. }
  rewrite !map_app, callee_cleanUp_calls.
  rewrite (callee_passes (length lc)) by done.
  rewrite callee_restore_calls. simpl option_list. rewrite Nat.add_0_r.
  do 2 f_equal. unfold restore_order. rewrite firstn_map. f_equal.
  apply seq_take. destruct thrown; simpl; [|destruct Hlast as [-> _]; simpl]; lia.
Qed.

(** The calls of the loop, pass by pass: every pass before the last
    is a full pass, and the last one stops where a [restore()] throws
    or runs to its end. *)
Lemma restoreLoop_calls k fuel cs index s :
  k < fuel →
  (∀ j, j < k → retry_pass (nth_pass j cs (world s))) →
  ¬ retry_pass (nth_pass k cs (world s)) →
  calls (restoreLoop fuel cs false index s).2 =
    calls s
    ++ concat (map (λ j, restore_calls 0 (nth_pass j cs (world s)).1.1 None)
                   (seq 0 k))
    ++ restore_calls 0 (nth_pass k cs (world s)).1.1
                       (nth_pass k cs (world s)).1.2.
Proof.
  revert fuel index s.
  induction k as [|k IH]; intros fuel index s Hfuel Hretry Hlast.
  all: destruct fuel as [|fuel]; [lia|]; rewrite restoreLoop_step; cbv zeta.
  - apply last_pass_cases in Hlast. unfold nth_pass in *. simpl in *.
    destruct Hlast as [[e He]|[Hnone Hall]].
    + by rewrite He.
    + by rewrite Hnone, Hall, restoreLoop_stopped.
  - destruct (Hretry 0) as [Hnone Hsome]; [lia|].
    assert (retry_pass (nth_pass 0 cs (world s))) as Hr0 by done.
    apply retry_pass_forallb in Hr0 as [_ Hr0].
    unfold nth_pass in Hnone, Hr0. simpl in Hnone, Hr0.
    rewrite Hnone, Hr0, IH; cbn [world calls].
    + rewrite <- app_assoc. f_equal.
      change (seq 0 (S k)) with (0 :: seq 1 k).
      rewrite <- fmap_S_seq. cbn [map concat].
      rewrite <- app_assoc. f_equal.
      f_equal; [|by rewrite nth_pass_S].
      f_equal. change (map ?f (S <$> ?l)) with (f <$> (S <$> l)).
      rewrite <- list_fmap_compose. apply list_fmap_ext.
      intros _ j _. simpl. by rewrite nth_pass_S.
    + lia.
    + intros j Hj. rewrite <- nth_pass_S. apply Hretry. lia.
    + by rewrite <- nth_pass_S.
Qed.

(** The calls of a loop that has not settled: one full pass per
    iteration run. *)
Lemma restoreLoop_calls_pending fuel cs index s :
  (∀ j, j < fuel → retry_pass (nth_pass j cs (world s))) →
  (restoreLoop fuel cs false index s).1 = Pending
  ∧ calls (restoreLoop fuel cs false index s).2 =
      calls s
      ++ concat (map (λ j, restore_calls 0 (nth_pass j cs (world s)).1.1 None)
                     (seq 0 fuel)).
Proof.
  revert index s. induction fuel as [|fuel IH]; intros index s Hretry.
  { simpl. by rewrite app_nil_r. }
  rewrite restoreLoop_step. cbv zeta.
  destruct (Hretry 0) as [Hnone Hsome]; [lia|].
  assert (retry_pass (nth_pass 0 cs (world s))) as Hr0 by done.
  apply retry_pass_forallb in Hr0 as [_ Hr0].
  unfold nth_pass in Hnone, Hr0. simpl in Hnone, Hr0.
  rewrite Hnone, Hr0.
  edestruct IH as [-> ->].
  { cbn [world]. intros j Hj. rewrite <- nth_pass_S. apply Hretry. lia. }
  split; [done|]. cbn [world calls]. rewrite <- app_assoc. f_equal.
  change (seq 0 (S fuel)) with (0 :: seq 1 fuel).
  rewrite <- fmap_S_seq. cbn [map concat]. f_equal.
  f_equal. change (map ?f (S <$> ?l)) with (f <$> (S <$> l)).
  rewrite <- list_fmap_compose. apply list_fmap_ext.
  intros _ j _. simpl. by rewrite nth_pass_S.
Qed.

(** The order of a sequence of full passes. *)
Lemma callee_full_passes cs (w : W) k :
  (∀ j, j < k → retry_pass (nth_pass j cs w)) →
  map callee
      (concat (map (λ j, @restore_calls E 0 (nth_pass j cs w).1.1 None)
                   (seq 0 k)))
  = concat (replicate k (restore_order (length cs))).
Proof.
  intros Hretry.
  rewrite <- (map_map (λ j, (nth_pass j cs w).1.1)
                      (λ bs, restore_calls 0 bs None)).
  rewrite (callee_passes (length cs)).
  - by rewrite length_map, length_seq.
  - apply Forall_fmap, Forall_forall. intros j Hj%elem_of_seq.
    destruct (Hretry j) as [Hnone _]; [lia|].
    pose proof (restore_results_length cs
                  (Nat.iter j (λ w, (restore_results cs w).2) w)) as Hlen.
    unfold nth_pass in *. simpl. by rewrite Hnone in Hlen.
Qed.

(** C5 (as amended): the calls of a run, in full. When the schema
    restore and every [cleanUp()] return, the driver calls [cleanUp()]
    once on each collection, in the order of the list, and only then
    [restore()], pass after pass: the passes are those the answers of
    the collections make, every pass before the last calling
    [restore()] on each collection in that same order, the last one
    (the first in which a [restore()] throws or no collection asks for
    a retry) stopping only at a [restore()] that throws; as long as the
    loop has not settled it has made one full pass per iteration. When
    the schema restore throws no collection is called; when a
    [cleanUp()] throws, the collections after it are not cleaned up
    and [restore()] is not called. *)
Theorem run_call_order (sr : action W E unit) (lc : list (Collection W E))
    (fuel : nat) (s : driver_state W E) :
  (∀ w0,
     sr (world s) = (Ok tt, w0) →
     (cleanUp_results lc w0).1.2 = None →
     (∀ k,
        k < fuel →
        (∀ j, j < k →
              retry_pass (nth_pass j lc (cleanUp_results lc w0).2)) →
        ¬ retry_pass (nth_pass k lc (cleanUp_results lc w0).2) →
        calls (run sr lc fuel s).2 =
          calls s
          ++ cleanUp_calls 0 (length lc) None
          ++ concat (map (λ j, restore_calls 0
                                 (nth_pass j lc (cleanUp_results lc w0).2).1.1
                                 None)
                         (seq 0 k))
          ++ restore_calls 0
               (nth_pass k lc (cleanUp_results lc w0).2).1.1
               (nth_pass k lc (cleanUp_results lc w0).2).1.2
        ∧ map callee (calls (run sr lc fuel s).2) =
            map callee (calls s)
            ++ cleanUp_order (length lc)
            ++ concat (replicate k (restore_order (length lc)))
            ++ take (length (nth_pass k lc (cleanUp_results lc w0).2).1.1
                     + length (option_list
                                 (nth_pass k lc (cleanUp_results lc w0).2).1.2))
                    (restore_order (length lc))
        ∧ ((nth_pass k lc (cleanUp_results lc w0).2).1.2 = None →
           length (nth_pass k lc (cleanUp_results lc w0).2).1.1 = length lc))
     ∧ ((∀ j, j < fuel →
              retry_pass (nth_pass j lc (cleanUp_results lc w0).2)) →
        (run sr lc fuel s).1 = Pending
        ∧ calls (run sr lc fuel s).2 =
            calls s
            ++ cleanUp_calls 0 (length lc) None
            ++ concat (map (λ j, restore_calls 0
                                   (nth_pass j lc (cleanUp_results lc w0).2).1.1
                                   None)
                           (seq 0 fuel))))
  ∧ (∀ e w0,
       sr (world s) = (Throw e, w0) →
       (run sr lc fuel s).1 = Rejected e
       ∧ calls (run sr lc fuel s).2 = calls s)
  ∧ (∀ w0 e,
       sr (world s) = (Ok tt, w0) →
       (cleanUp_results lc w0).1.2 = Some e →
       (run sr lc fuel s).1 = Rejected e
       ∧ (cleanUp_results lc w0).1.1 < length lc
       ∧ calls (run sr lc fuel s).2 =
           calls s ++ cleanUp_calls 0 (cleanUp_results lc w0).1.1 (Some e)).
Proof.
  unfold run. rewrite prepare_results. split; [|split].
  - intros w0 Hsr Hclean. rewrite Hsr. cbv zeta. rewrite Hclean.
    pose proof (cleanUp_results_length lc w0) as Hlen. rewrite Hclean in Hlen.
    rewrite Hlen. split.
    + intros k Hfuel Hretry Hlast.
      assert (calls (restoreLoop fuel lc false 1
                {| world := (cleanUp_results lc w0).2;
                   calls := calls s ++ cleanUp_calls 0 (length lc) None;
                   logged := (logged s ++ ["---- Restore schema ----"])
                             ++ ["---- Clean up collections ----"] |}).2
              = calls s
                ++ cleanUp_calls 0 (length lc) None
                ++ concat (map (λ j, restore_calls 0
                                 (nth_pass j lc (cleanUp_results lc w0).2).1.1
                                 None)
                               (seq 0 k))
                ++ restore_calls 0
                     (nth_pass k lc (cleanUp_results lc w0).2).1.1
                     (nth_pass k lc (cleanUp_results lc w0).2).1.2)
        as Hcalls.
      { rewrite (restoreLoop_calls k) by done. cbn [world calls].
        by rewrite <- app_assoc. }
      split; [done|]. split.
      * rewrite Hcalls, !map_app, callee_cleanUp_calls, callee_full_passes,
          callee_restore_calls by done.
        simpl option_list at 1. rewrite Nat.add_0_r.
        do 3 f_equal. unfold restore_order. rewrite firstn_map. f_equal.
        apply seq_take.
        pose proof (restore_results_length lc
                      (Nat.iter k (λ w, (restore_results lc w).2)
                                (cleanUp_results lc w0).2)) as Hk.
        unfold nth_pass. destruct (restore_results lc _).1.2; simpl; lia.
      * intros Hnone.
        pose proof (restore_results_length lc
                      (Nat.iter k (λ w, (restore_results lc w).2)
                                (cleanUp_results lc w0).2)) as Hk.
        unfold nth_pass in *. by rewrite Hnone in Hk.
    + intros Hretry.
      edestruct restoreLoop_calls_pending as [-> ->]; [exact Hretry|].
      split; [done|]. cbn [calls]. by rewrite <- app_assoc.
  - intros e w0 Hsr. by rewrite Hsr.
  - intros w0 e Hsr Hclean. rewrite Hsr. cbv zeta. rewrite Hclean.
    pose proof (cleanUp_results_length lc w0) as Hlen. rewrite Hclean in Hlen.
    done.
Qed.

(** C6: a [restore()] that throws is the last call the driver makes on
    any collection: the promise of [run] is rejected with its error,
    and the one call that follows in the whole script is the top-level
    handler, on that error. *)
Theorem restore_error_aborts (sr : action W E unit)
    (lc : list (Collection W E)) (init : action W E unit)
    (handler : E → action W E unit) (dispose close : action W E unit)
    (fuel : nat) (s : driver_state W E) (tr1 tr2 : list (call E))
    (i : nat) (e : E) :
  calls (main sr lc init handler dispose close fuel s).2 =
    calls s ++ tr1 ++ RestoreCall i (Throw e) :: tr2 →
  tr2 = [LogErrorAndStopCall e]
  ∧ (run sr lc fuel (await_silent init s).2).1 = Rejected e
  ∧ calls (run sr lc fuel (await_silent init s).2).2 =
      calls s ++ tr1 ++ [RestoreCall i (Throw e)].
Proof.
  rewrite main_calls.
  assert (¬ (¬ restore_threw (RestoreCall i (Throw e)))) as Hthrew.
  { intros H. apply H. by eexists _, _. }
  destruct (await_silent init s) as [[[]|e0] s0] eqn:Hinit.
  2:{ intros Heq%app_inv_head. destruct tr1 as [|? [|? ?]]; simplify_eq/=. }
  assert (calls s0 = calls s) as Hs0.
  { unfold await_silent in Hinit.
    destruct (init (world s)) as [? ?]. by simplify_eq. }
  cbn [snd].
  destruct (run_throw_last sr lc fuel s0) as (tr & Hcalls & Hhandler & Hshape).
  rewrite Hs0 in Hcalls.
  destruct (run sr lc fuel s0) as [p s'] eqn:Hrun. cbn [fst snd] in *.
  rewrite Hcalls.
  destruct Hshape as [Hall|(pre & i' & e' & -> & Hpre & ->)].
  - intros Heq. exfalso.
    assert (∃ post, tr ++ post = tr1 ++ RestoreCall i (Throw e) :: tr2
                    ∧ Forall (λ c, ¬ restore_threw c) post)
      as (post & Hpost & Hfree).
    { destruct p; [exists []|eexists [_]|exists []];
        rewrite <- ?app_assoc, ?app_nil_r in *;
        (split; [by eapply app_inv_head|]); repeat constructor.
      intros (? & ? & [=]). }
    revert Hpost.
    apply (no_split_all (λ c, ¬ restore_threw c)); [|exact Hthrew].
    by apply Forall_app.
  - rewrite <- !app_assoc. cbn [app]. intros Heq%app_inv_head.
    assert (Forall (λ c, ¬ restore_threw c) [LogErrorAndStopCall e'])
      as Hpost.
    { repeat constructor. intros (? & ? & [=]). }
    destruct (split_at_only _ _ _ _ _ _ _ Hpre Hpost Hthrew Heq)
      as (-> & [= -> ->] & ->).
    done.
Qed.

End DriverProperties.

(** The loop over a collection that always asks for a retry is still
    pending whatever the fuel. *)
Lemma stubborn_loop_pending fuel index (s : driver_state nat string) :
  (restoreLoop fuel [DriverExamples.stubborn] false index s).1 = Pending.
Proof.
  revert index s. induction fuel as [|fuel IH]; intros index s; [done|].
  rewrite restoreLoop_step. simpl. apply IH.
Qed.

(** C1, counterexample: with one collection that asks for a retry at
    every pass, the promise of [run] never settles: no pass is quiet
    and no iteration count stops the loop. *)
Lemma run_stubborn_never_settles :
  ¬ terminates (λ fuel,
       run DriverExamples.noop [DriverExamples.stubborn] fuel
           DriverExamples.fresh).
Proof.
  intros [fuel Hfuel]. apply Hfuel. unfold run.
  rewrite prepare_results. simpl. apply stubborn_loop_pending.
Qed.

Lemma restoreLoop_termination_witness :
  ¬ terminates (λ fuel,
       restoreLoop fuel [DriverExamples.stubborn] false 1 DriverExamples.fresh).
Proof.
  apply (proj2 (proj2 (restoreLoop_termination
                         [DriverExamples.stubborn] 1 DriverExamples.fresh))).
  intros k. unfold nth_pass, retry_pass. simpl. split; [done|]. by left.
Defined.

Lemma quiet_first_pass_converges_witness :
  [DriverExamples.steady; DriverExamples.steady]
    = [DriverExamples.steady; DriverExamples.steady]
  ∧ run DriverExamples.noop [DriverExamples.steady; DriverExamples.steady] 3
        DriverExamples.fresh =
      (Fulfilled,
       {| world := 2;
          calls := [CleanUpCall 0 (Ok tt); CleanUpCall 1 (Ok tt);
                    RestoreCall 0 (Ok false); RestoreCall 1 (Ok false)];
          logged := ["---- Restore schema ----";
                     "---- Clean up collections ----";
                     "---- Restore: iteration 1 ----"] |}).
Proof.
  apply (quiet_first_pass_converges DriverExamples.noop
           [DriverExamples.steady; DriverExamples.steady] 2
           DriverExamples.fresh
           {| world := 0;
              calls := [CleanUpCall 0 (Ok tt); CleanUpCall 1 (Ok tt)];
              logged := ["---- Restore schema ----";
                         "---- Clean up collections ----"] |}).
  - reflexivity.
  - split; [reflexivity|]. repeat constructor.
Defined.

(** C5, counterexample: the clean up of the second of three
    collections throws. The third collection is never cleaned up, so
    [cleanUp()] is not invoked once on each collection in this run,
    which is rejected with that error before any [restore()]. *)
Lemma failed_cleanUp_skips_the_rest :
  calls (run DriverExamples.noop
           [DriverExamples.steady; DriverExamples.dangling;
            DriverExamples.steady] 4 DriverExamples.fresh).2
  = [CleanUpCall 0 (Ok tt); CleanUpCall 1 (Throw "ECONNREFUSED")]
  ∧ (run DriverExamples.noop
       [DriverExamples.steady; DriverExamples.dangling;
        DriverExamples.steady] 4 DriverExamples.fresh).1
    = Rejected "ECONNREFUSED"
  ∧ ¬ ∃ r, CleanUpCall 2 r
           ∈ calls (run DriverExamples.noop
                      [DriverExamples.steady; DriverExamples.dangling;
                       DriverExamples.steady] 4 DriverExamples.fresh).2.
Proof.
  split; [reflexivity|]. split; [reflexivity|].
  intros [r Hr]. vm_compute in Hr.
  apply elem_of_cons in Hr as [[=]|Hr].
  by apply list_elem_of_singleton in Hr.
Qed.

(** Two collections, the first done from its second call on: a pass
    with a retry, then a quiet pass. *)
Lemma run_call_order_witness :
  calls (run DriverExamples.noop
           [DriverExamples.late; DriverExamples.steady] 5
           DriverExamples.fresh).2
  = [CleanUpCall 0 (Ok tt); CleanUpCall 1 (Ok tt);
     RestoreCall 0 (Ok true); RestoreCall 1 (Ok false);
     RestoreCall 0 (Ok false); RestoreCall 1 (Ok false)]
  ∧ map callee
      (calls (run DriverExamples.noop
                [DriverExamples.late; DriverExamples.steady] 5
                DriverExamples.fresh).2)
    = [(MCleanUp, 0); (MCleanUp, 1);
       (MRestore, 0); (MRestore, 1); (MRestore, 0); (MRestore, 1)]
  ∧ (@None string = None → 2 = 2).
Proof.
  refine (proj1 (proj1 (run_call_order DriverExamples.noop
                          [DriverExamples.late; DriverExamples.steady] 5
                          DriverExamples.fresh) 0 _ _) 1 _ _ _).
  - reflexivity.
  - reflexivity.
  - lia.
  - intros [|j] Hj; [|lia]. split; [reflexivity|by left].
  - intros [_ Hretry]. vm_compute in Hretry.
    apply elem_of_cons in Hretry as [[=]|Hretry].
    by apply list_elem_of_singleton in Hretry.
Defined.

Lemma restore_error_aborts_witness :
  calls (main DriverExamples.noop
           [DriverExamples.steady; DriverExamples.faulty; DriverExamples.steady]
           DriverExamples.noop (λ _, DriverExamples.noop)
           DriverExamples.noop DriverExamples.noop 4 DriverExamples.fresh).2 =
    [] ++ [CleanUpCall 0 (Ok tt); CleanUpCall 1 (Ok tt); CleanUpCall 2 (Ok tt);
           RestoreCall 0 (Ok false)]
       ++ RestoreCall 1 (Throw "validation failed")
          :: [LogErrorAndStopCall "validation failed"]
  ∧ ([LogErrorAndStopCall "validation failed"]
       = [LogErrorAndStopCall "validation failed"]
     ∧ (run DriverExamples.noop
          [DriverExamples.steady; DriverExamples.faulty; DriverExamples.steady]
          4 (await_silent DriverExamples.noop DriverExamples.fresh).2).1
       = Rejected "validation failed"
     ∧ calls (run DriverExamples.noop
          [DriverExamples.steady; DriverExamples.faulty; DriverExamples.steady]
          4 (await_silent DriverExamples.noop DriverExamples.fresh).2).2
       = [] ++ [CleanUpCall 0 (Ok tt); CleanUpCall 1 (Ok tt);
                CleanUpCall 2 (Ok tt); RestoreCall 0 (Ok false)]
            ++ [RestoreCall 1 (Throw "validation failed")]).
Proof.
  split; [reflexivity|].
  apply (restore_error_aborts DriverExamples.noop
           [DriverExamples.steady; DriverExamples.faulty; DriverExamples.steady]
           DriverExamples.noop (λ _, DriverExamples.noop)
           DriverExamples.noop DriverExamples.noop 4 DriverExamples.fresh).
  reflexivity.
Defined.

(** ** The collection restorer in the loop of the driver *)

Section RestorerProperties.
Import Restorer.
Context {E : Type}.
Implicit Types (σ : remote) (c : config) (r : record) (rs : list record).

Lemma restore_record_grows name r σ :
  applied σ ⊆ applied (restore_record name r σ).2
  ∧ existing σ ⊆ existing (restore_record name r σ).2
  ∧ (consistent σ → consistent (restore_record name r σ).2).
Proof.
  unfold restore_record, consistent.
  case_bool_decide; [set_solver|].
  destruct (resolved σ r); simpl; set_solver.
Qed.

Lemma restore_records_grows name rs skipped σ :
  applied σ ⊆ applied (restore_records name rs skipped σ).2
  ∧ existing σ ⊆ existing (restore_records name rs skipped σ).2
  ∧ (consistent σ → consistent (restore_records name rs skipped σ).2).
Proof.
  revert skipped σ. induction rs as [|r rs IH]; intros skipped σ; simpl; [done|].
  pose proof (restore_record_grows name r σ) as (Ha & He & Hc).
  destruct (restore_record name r σ) as [skip σ1]; simpl in *.
  destruct (IH (skip || skipped) σ1) as (Ha' & He' & Hc').
  split; [set_solver|]. split; [set_solver|]. auto.
Qed.

(** With every reference resolved, no record is skipped and all end
    up applied. *)
Lemma restore_records_resolved name rs skipped σ :
  (∀ r ref, r ∈ rs → ref ∈ references r → ref ∈ existing σ) →
  (restore_records name rs skipped σ).1 = skipped
  ∧ ∀ r, r ∈ rs → (name, id r) ∈ applied (restore_records name rs skipped σ).2.
Proof.
  revert skipped σ. induction rs as [|r rs IH]; intros skipped σ Hres; simpl.
  { split; [done|]. intros r Hr. by apply elem_of_nil in Hr. }
  pose proof (restore_record_grows name r σ) as (Ha & He & _).
  assert ((restore_record name r σ).1 = false
          ∧ (name, id r) ∈ applied (restore_record name r σ).2) as [Hflag Hin].
  { unfold restore_record. case_bool_decide; [done|].
    assert (resolved σ r = true) as ->.
    { unfold resolved. apply forallb_forall. intros ref Href.
      apply bool_decide_eq_true. apply (Hres r); [left|].
      by apply list_elem_of_In. }
    simpl. set_solver. }
  destruct (restore_record name r σ) as [skip σ1]; simpl in *. subst skip.
  destruct (IH (false || skipped) σ1) as (Hsk & Hall).
  { intros r' ref Hr' Href. apply He. apply (Hres r'); [by right|done]. }
  pose proof (restore_records_grows name rs (false || skipped) σ1) as (Ha' & _).
  split; [done|]. intros r' [->|Hr']%elem_of_cons; [set_solver|auto].
Qed.

(** When no record was skipped, all are applied. *)
Lemma restore_records_quiet name rs skipped σ :
  (restore_records name rs skipped σ).1 = false →
  skipped = false
  ∧ ∀ r, r ∈ rs → (name, id r) ∈ applied (restore_records name rs skipped σ).2.
Proof.
  revert skipped σ. induction rs as [|r rs IH]; intros skipped σ; simpl.
  { intros ->. split; [done|]. intros r Hr. by apply elem_of_nil in Hr. }
  assert ((restore_record name r σ).1 = false
          → (name, id r) ∈ applied (restore_record name r σ).2) as Hin.
  { unfold restore_record. case_bool_decide; [done|].
    destruct (resolved σ r); simpl; [set_solver|done]. }
  destruct (restore_record name r σ) as [skip σ1]; simpl in *.
  intros Hq. destruct (IH _ _ Hq) as [Hor Hall].
  apply orb_false_iff in Hor as [-> ->].
  pose proof (restore_records_grows name rs (false || false) σ1) as (Ha' & _).
  split; [done|]. intros r' [->|Hr']%elem_of_cons; [set_solver|auto].
Qed.

Lemma chain_from_lookup previous (cs : list config) j c r ref :
  chain_from previous cs → cs !! j = Some c →
  r ∈ records c → ref ∈ references r →
  match j with
  | O => ref ∈ previous
  | S j' => ∃ c', cs !! j' = Some c' ∧ ref ∈ identifiers c'
  end.
Proof.
  revert previous j. induction cs as [|c0 cs IH]; intros previous j Hchain Hj Hr Href;
    [done|].
  destruct Hchain as [Hhead Htail]. destruct j as [|j]; simplify_eq/=.
  { by eapply Hhead. }
  specialize (IH _ _ Htail Hj Hr Href). destruct j as [|j]; simplify_eq/=.
  - destruct cs; simplify_eq/=. eauto.
  - destruct IH as (c' & ? & ?). eauto.
Qed.

Lemma all_applied_identifiers σ c ref :
  all_applied σ c → ref ∈ identifiers c → ref ∈ applied σ.
Proof.
  unfold identifiers. intros Hall Href.
  apply list_elem_of_In, in_map_iff in Href as (r & <- & Hr).
  apply Hall. by apply list_elem_of_In.
Qed.

(** A collection of the chain whose predecessors are applied has all
    its references resolved. *)
Lemma chain_resolved (chain : list config) k j c σ :
  Restorer.chain chain → consistent σ → applied_up_to chain k σ →
  chain !! j = Some c → j ≤ k →
  ∀ r ref, r ∈ records c → ref ∈ references r → ref ∈ existing σ.
Proof.
  intros Hchain Hcons Hup Hj Hle r ref Hr Href.
  pose proof (chain_from_lookup _ _ _ _ _ _ Hchain Hj Hr Href) as Hprev.
  destruct j as [|j]; [by apply elem_of_nil in Hprev|].
  destruct Hprev as (c' & Hc' & Hin). apply Hcons.
  eapply all_applied_identifiers; [|done]. eapply Hup; [|done]. lia.
Qed.

(** One pass over collections of the chain, the first [k] of which are
    applied: nothing throws, what was applied stays applied, every
    collection among the first [k + 1] ends up applied, and when those
    are all there is no collection asks for a retry. *)
Lemma chain_pass (cleanUp : config → action remote E unit)
    (chain ds : list config) k σ :
  Restorer.chain chain → consistent σ → applied_up_to chain k σ →
  (∀ d, d ∈ ds → d ∈ chain) →
  let o := restore_results (map (λ c, restorer (cleanUp c) c) ds) σ in
  o.1.2 = None
  ∧ length o.1.1 = length ds
  ∧ consistent o.2
  ∧ applied σ ⊆ applied o.2
  ∧ (∀ j d, d ∈ ds → chain !! j = Some d → j ≤ k → all_applied o.2 d)
  ∧ (length chain ≤ S k → Forall (λ retry, retry = false) o.1.1)
  ∧ (Forall (λ retry, retry = false) o.1.1 → ∀ d, d ∈ ds → all_applied o.2 d).
Proof.
  intros Hchain. revert σ.
  induction ds as [|d ds IH]; intros σ Hcons Hup Hin; cbv zeta.
  { simpl. repeat split; try done.
    - intros ? ? Hd. by apply elem_of_nil in Hd.
    - intros ? ? Hd. by apply elem_of_nil in Hd. }
  simpl. unfold Restorer.restore.
  pose proof (restore_records_grows (name d) (records d) false σ)
    as (Ha & He & Hc).
  pose proof (restore_records_quiet (name d) (records d) false σ) as Hquiet.
  assert (∀ j, chain !! j = Some d → j ≤ k →
            (restore_records (name d) (records d) false σ).1 = false
            ∧ all_applied (restore_records (name d) (records d) false σ).2 d)
    as Hres.
  { intros j Hj Hle. apply restore_records_resolved.
    eapply chain_resolved; done. }
  destruct (restore_records (name d) (records d) false σ) as [skipped σ1];
    simpl in *.
  assert (applied_up_to chain k σ1) as Hup1.
  { intros j c ? ? r ?. apply Ha. by eapply Hup. }
  specialize (IH σ1 (Hc Hcons) Hup1).
  destruct IH as (Hnone & Hlen & Hcons' & Ha' & Hdone & Hfalse & Hall).
  { intros ? ?. apply Hin. by right. }
  destruct (restore_results (map (λ c, restorer (cleanUp c) c) ds) σ1)
    as [[bs thrown] σ2]; simpl in *.
  split; [done|]. split; [by f_equal|]. split; [done|].
  split; [set_solver|]. split; [|split].
  - intros j d' [->|Hd']%elem_of_cons Hj Hle; [|by eapply Hdone].
    destruct (Hres j Hj Hle) as [_ Hd]. intros r Hr. by apply Ha', Hd.
  - intros HN. constructor; [|auto].
    assert (d ∈ chain) as (j & Hj)%list_elem_of_lookup by (apply Hin; by left).
    apply lookup_lt_Some in Hj as Hlt.
    destruct (Hres j Hj) as [? _]; [lia|done].
  - intros Hbs d' Hd'. inversion Hbs as [|? ? Hsk Hbs']; subst.
    apply elem_of_cons in Hd' as [->|Hd']; [|auto].
    destruct (Hquiet eq_refl) as [_ Hd]. intros r Hr. by apply Ha', Hd.
Qed.

(** Collections whose records have no dependency reference answer
    [false] at their first [restore()], whatever the instance holds. *)
Lemma no_references_quiet (cleanUp : config → action remote E unit)
    (ds : list config) σ :
  (∀ d r, d ∈ ds → r ∈ records d → references r = []) →
  quiet_pass (restore_results (map (λ c, restorer (cleanUp c) c) ds) σ).
Proof.
  revert σ. induction ds as [|d ds IH]; intros σ Hnone.
  { split; [done|constructor]. }
  simpl. unfold Restorer.restore.
  destruct (restore_records_resolved (name d) (records d) false σ) as [Hsk _].
  { intros r ref Hr Href. rewrite (Hnone d r) in Href; [|by left|done].
    by apply elem_of_nil in Href. }
  destruct (restore_records (name d) (records d) false σ) as [skipped σ1].
  simpl in Hsk. subst skipped.
  destruct (IH σ1) as [Hthrown Hall]; [intros ? ? ?; apply Hnone; by right|].
  destruct (restore_results (map (λ c, restorer (cleanUp c) c) ds) σ1)
    as [[bs thrown] σ2]; simpl in *.
  split; [done|by constructor].
Qed.

Lemma restore_calls_length i (bs : list bool) :
  length (@restore_calls E i bs None) = length bs.
Proof. revert i. induction bs; intros i; simpl; auto. Qed.

Lemma forallb_negb_Forall (bs : list bool) :
  forallb negb bs = true ↔ Forall (λ retry, retry = false) bs.
Proof.
  rewrite forallb_forall, Forall_forall. split; intros H b Hb.
  - apply list_elem_of_In, H in Hb. by destruct b.
  - apply list_elem_of_In, H in Hb. by subst.
Qed.

(** The loop over a chain whose first [k] collections are applied is
    done within as many passes as collections remain. *)
Lemma chain_loop (cleanUp : config → action remote E unit)
    (chain declared : list config) (remaining k : nat) (index : N)
    (s : driver_state remote E) :
  Restorer.chain chain → declared ≡ₚ chain →
  length chain = k + S remaining →
  consistent (world s) → applied_up_to chain k (world s) →
  ∃ passes s',
    1 ≤ passes ≤ S remaining
    ∧ (∀ fuel, passes ≤ fuel →
         restoreLoop fuel (map (λ c, restorer (cleanUp c) c) declared)
                     false index s = (Fulfilled, s'))
    ∧ length (calls s') = length (calls s) + passes * length chain
    ∧ ∀ c, c ∈ chain → all_applied (world s') c.
Proof.
  intros Hchain Hperm. revert k index s.
  induction remaining as [|remaining IH]; intros k index s Hlen Hcons Hup.
  all: destruct (chain_pass cleanUp chain declared k (world s)
                   Hchain Hcons Hup)
         as (Hnone & Hbs & Hcons' & Hmono & Hdone & Hfalse & Hall);
         [by intros d Hd; rewrite <- Hperm|].
  all: cbv zeta in *.
  all: destruct (forallb negb
         (restore_results (map (λ c, restorer (cleanUp c) c) declared)
            (world s)).1.1) eqn:Hquiet.
  1,3: (eexists 1, _; split; [lia|]; split;
    [intros [|fuel] Hfuel; [lia|];
     rewrite restoreLoop_step; cbv zeta;
     rewrite Hnone, Hquiet, restoreLoop_stopped; reflexivity|];
    cbn [calls world]; rewrite length_app, restore_calls_length, Hbs;
    split; [by rewrite Hperm; lia|];
    intros c Hc; apply Hall; [by apply forallb_negb_Forall|];
    by rewrite Hperm).
  - exfalso. apply not_true_iff_false in Hquiet. apply Hquiet.
    apply forallb_negb_Forall, Hfalse. lia.
  - set (s1 := {| world := (restore_results
                     (map (λ c, restorer (cleanUp c) c) declared) (world s)).2;
                  calls := calls s ++ restore_calls 0
                     (restore_results
                        (map (λ c, restorer (cleanUp c) c) declared)
                        (world s)).1.1 None;
                  logged := logged s ++ [iteration_message index] |}).
    destruct (IH (S k) (index + 1 + 1)%N s1) as (passes & s' & ? & Hrun & Hcalls & Hfinal).
    + lia.
    + done.
    + intros j c Hj Hc. destruct (decide (j = k)) as [->|].
      * apply (Hdone k); [|done|lia].
        rewrite Hperm. by eapply list_elem_of_lookup_2.
      * intros r Hr. apply Hmono. eapply Hup; [|done..]. lia.
    + exists (S passes), s'. split; [lia|]. split; [|split; [|done]].
      * intros [|fuel] Hfuel; [lia|].
        rewrite restoreLoop_step; cbv zeta. rewrite Hnone, Hquiet.
        apply Hrun. lia.
      * rewrite Hcalls. subst s1. cbn [calls].
        rewrite length_app, restore_calls_length, Hbs, Hperm. lia.
Qed.

(** C2: for a chain of collections, declared in any order, in which
    the records of each collection refer to records of the collection
    before it only, the loop of the driver is fulfilled after at least
    one and at most as many passes as there are collections, whatever
    fuel is left beyond them, and every record is then applied. *)
Theorem chain_converges (cleanUp : Restorer.config → action Restorer.remote E unit)
    (chain declared : list Restorer.config) (index : N)
    (s : driver_state Restorer.remote E) :
  Restorer.chain chain → chain ≠ [] → declared ≡ₚ chain →
  Restorer.consistent (world s) →
  ∃ passes s',
    1 ≤ passes ≤ length chain
    ∧ (∀ fuel, passes ≤ fuel →
         restoreLoop fuel
           (map (λ c, Restorer.restorer (cleanUp c) c) declared)
           false index s = (Fulfilled, s'))
    ∧ length (calls s') = length (calls s) + passes * length chain
    ∧ ∀ c, c ∈ chain → Restorer.all_applied (world s') c.
Proof.
  intros Hchain Hne Hperm Hcons.
  destruct chain as [|c0 chain'] eqn:Hc; [done|]. rewrite <- Hc in *.
  destruct (chain_loop cleanUp chain declared (length chain') 0 index s)
    as (passes & s' & ? & ? & ? & ?); try done.
  - by subst.
  - intros j c ?. lia.
  - exists passes, s'. split; [|done]. subst chain. simpl. lia.
Qed.

End RestorerProperties.

(** Declared against its dependencies, the chain of three collections
    takes its three passes: after two the loop is still pending. *)
Example backwards_chain_three_passes :
  (restoreLoop 2 RestorerExamples.backwards false 1 RestorerExamples.empty).1
    = Pending
  ∧ (restoreLoop 3 RestorerExamples.backwards false 1 RestorerExamples.empty).1
    = Fulfilled
  ∧ map callee
      (calls (restoreLoop 3 RestorerExamples.backwards false 1
                RestorerExamples.empty).2)
    = concat (replicate 3 (restore_order 3)).
Proof. vm_compute. done. Qed.

Lemma chain_converges_witness :
  ∃ passes s',
    1 ≤ passes ≤ 3
    ∧ (∀ fuel, passes ≤ fuel →
         restoreLoop fuel RestorerExamples.backwards false 1
           RestorerExamples.empty = (Fulfilled, s'))
    ∧ length (calls s') = 0 + passes * 3
    ∧ ∀ c, c ∈ [RestorerExamples.roles; RestorerExamples.users;
                RestorerExamples.files] →
           Restorer.all_applied (world s') c.
Proof.
  apply (chain_converges RestorerExamples.no_cleanUp
           [RestorerExamples.roles; RestorerExamples.users;
            RestorerExamples.files]
           [RestorerExamples.files; RestorerExamples.users;
            RestorerExamples.roles]
           1 RestorerExamples.empty).
  - repeat split; simpl; intros r ref Hr Href;
      repeat (apply elem_of_cons in Hr as [->|Hr]); simpl in *;
      try (by apply elem_of_nil in Hr);
      try (by apply elem_of_nil in Href);
      repeat (apply elem_of_cons in Href as [->|Href]);
      try (by apply elem_of_nil in Href);
      unfold Restorer.identifiers; simpl; rewrite !elem_of_cons; auto.
  - discriminate.
  - apply Permutation_rev.
  - intros x Hx. exact Hx.
Defined.

(** ** The file system *)

Section FsProperties.
Implicit Types (fs : gmap Fs.path Fs.node) (p q : Fs.path).

Lemma removeSync_below p q fs :
  p `prefix_of` q → Fs.removeSync p fs !! q = None.
Proof.
  intros Hpq. unfold Fs.removeSync. apply map_lookup_filter_None. right.
  intros x _ Hnot. by apply Hnot.
Qed.

Lemma removeSync_elsewhere p q fs :
  ¬ p `prefix_of` q → Fs.removeSync p fs !! q = fs !! q.
Proof.
  intros Hpq. unfold Fs.removeSync.
  destruct (fs !! q) as [x|] eqn:Hq.
  - by apply map_lookup_filter_Some.
  - apply map_lookup_filter_None. by left.
Qed.

(** [mkdirpSync] creates directories only: it leaves every file as it
    is, keeps the directories there are, and the path it was asked for
    is a directory afterwards. *)
Lemma mkdirp_from_spec base rest fs fs' :
  Fs.mkdirp_from base rest fs = Ok fs' →
  (∀ p c, fs' !! p = Some (Fs.File c) ↔ fs !! p = Some (Fs.File c))
  ∧ (∀ p, Fs.lookup_node fs p = Some Fs.Dir → Fs.lookup_node fs' p = Some Fs.Dir)
  ∧ Fs.lookup_node fs' (base ++ rest) = Some Fs.Dir.
Proof.
  revert base fs. induction rest as [|seg rest IH]; intros base fs; simpl.
  all: destruct (Fs.lookup_node fs base) as [[c0|]|] eqn:Hbase; [done|..].
  all: set (fs1 := match base with [] => fs | _ :: _ => <[base:=Fs.Dir]> fs end).
  all: assert ((∀ p c, fs1 !! p = Some (Fs.File c) ↔ fs !! p = Some (Fs.File c))
               ∧ (∀ p, Fs.lookup_node fs p = Some Fs.Dir
                       → Fs.lookup_node fs1 p = Some Fs.Dir)
               ∧ Fs.lookup_node fs1 base = Some Fs.Dir) as (Hfile & Hdir & Hb)
         by (subst fs1; destruct base as [|b base]; [done|];
             (split; [|split]);
             [intros p c; destruct (decide (b :: base = p)) as [<-|];
                [rewrite lookup_insert_eq; simpl in Hbase; rewrite Hbase; done
                |by rewrite lookup_insert_ne]
             |intros [|a p] Hp; [done|]; simpl in *;
                destruct (decide (b :: base = a :: p)) as [<-|];
                [by rewrite lookup_insert_eq|by rewrite lookup_insert_ne]
             |simpl; by rewrite lookup_insert_eq]).
  1,2: intros [= <-]; rewrite app_nil_r; done.
  all: intros Hrec; destruct (IH _ _ Hrec) as (Hfile' & Hdir' & Hend).
  all: rewrite <- app_assoc in Hend; simpl in Hend.
  all: split; [intros p c; by rewrite Hfile', Hfile|].
  all: split; [auto|done].
Qed.

Lemma mkdirpSync_spec p fs fs' :
  Fs.mkdirpSync p fs = Ok fs' →
  (∀ q c, fs' !! q = Some (Fs.File c) ↔ fs !! q = Some (Fs.File c))
  ∧ (∀ q, Fs.lookup_node fs q = Some Fs.Dir → Fs.lookup_node fs' q = Some Fs.Dir)
  ∧ Fs.lookup_node fs' p = Some Fs.Dir.
Proof. apply mkdirp_from_spec. Qed.



(** [writeJsonSync] replaces or creates one file, never a directory. *)
Lemma writeJsonSync_spec p c fs fs' :
  Fs.writeJsonSync p c fs = Ok fs' →
  p ≠ [] ∧ fs' = <[p := Fs.File c]> fs ∧ fs !! p ≠ Some Fs.Dir.
Proof.
  unfold Fs.writeJsonSync. destruct p as [|a p]; [done|].
  destruct (Fs.lookup_node fs (Fs.path_dirname (a :: p))) as [[?|]|]; [done| |done].
  intros H. repeat case_match; simplify_eq; repeat split; congruence.
Qed.

Lemma lookup_node_insert_file fs p q c :
  Fs.lookup_node fs q = Some Fs.Dir → fs !! p ≠ Some Fs.Dir →
  Fs.lookup_node (<[p := Fs.File c]> fs) q = Some Fs.Dir.
Proof.
  destruct q as [|a q]; [done|]. simpl. intros Hq Hp.
  rewrite lookup_insert_ne; [done|]. congruence.
Qed.

(** *** Paths made of plain names *)

Lemma append_cons c (a b : string) : String c a +:+ b = String c (a +:+ b).
Proof. done. Qed.

Lemma append_nil (b : string) : "" +:+ b = b.
Proof. done. Qed.

Lemma length_append (a b : string) :
  String.length (a +:+ b) = String.length a + String.length b.
Proof. induction a as [|c a IH]; [done|]. rewrite append_cons. simpl. by rewrite IH. Qed.

Lemma append_inv_tail (a b s : string) : a +:+ s = b +:+ s → a = b.
Proof.
  revert b. induction a as [|c a IH]; intros [|c' b] Heq.
  - done.
  - apply (f_equal String.length) in Heq.
    rewrite append_nil, append_cons in Heq. simpl in Heq.
    rewrite length_append in Heq. lia.
  - apply (f_equal String.length) in Heq.
    rewrite append_nil, append_cons in Heq. simpl in Heq.
    rewrite length_append in Heq. lia.
  - rewrite !append_cons in Heq. injection Heq as -> Heq. f_equal. auto.
Qed.

Lemma has_slash_append (a b : string) :
  Fs.has_slash (a +:+ b) = Fs.has_slash a || Fs.has_slash b.
Proof.
  induction a as [|c a IH]; [done|]. rewrite append_cons. simpl.
  by rewrite IH, orb_assoc.
Qed.

Lemma split_path_plain (a : string) :
  Fs.has_slash a = false → Fs.split_path a = [a].
Proof.
  induction a as [|c a IH]; [done|]. simpl.
  intros [Hc Ha]%orb_false_iff. rewrite Hc, IH; done.
Qed.

Lemma split_path_slash (a rest : string) :
  Fs.has_slash a = false →
  Fs.split_path (a +:+ "/" +:+ rest) = a :: Fs.split_path rest.
Proof.
  induction a as [|c a IH]; [done|]. rewrite append_cons. simpl.
  intros [Hc Ha]%orb_false_iff. rewrite Hc, IH; done.
Qed.

Lemma push_segment_plain p (seg : string) :
  seg ≠ "" → seg ≠ "." → seg ≠ ".." → Fs.push_segment p seg = p ++ [seg].
Proof.
  intros. unfold Fs.push_segment.
  rewrite bool_decide_eq_false_2 by naive_solver.
  by rewrite bool_decide_eq_false_2.
Qed.

Lemma json_name_segment (name : string) :
  name +:+ ".json" ≠ "" ∧ name +:+ ".json" ≠ "." ∧ name +:+ ".json" ≠ "..".
Proof.
  repeat split; intros Heq; apply (f_equal String.length) in Heq;
    rewrite length_append in Heq; simpl in Heq; lia.
Qed.

(** [<dir>/<name>.json] below [p] *)
Lemma path_join_file p (dir name : string) :
  Fs.plain dir → Fs.has_slash name = false →
  Fs.path_join p (dir +:+ "/" +:+ name +:+ ".json")
    = p ++ [dir; name +:+ ".json"].
Proof.
  intros (Hdir & ? & ? & ?) Hname. unfold Fs.path_join.
  rewrite split_path_slash, split_path_plain by (by rewrite ?has_slash_append, ?Hname).
  destruct (json_name_segment name) as (? & ? & ?).
  simpl. rewrite !push_segment_plain by done. by rewrite <- app_assoc.
Qed.

(** [<dir>/<collection>/<name>.json] below [p] *)
Lemma path_join_nested p (dir collection name : string) :
  Fs.plain dir → Fs.plain collection → Fs.has_slash name = false →
  Fs.path_join p (dir +:+ "/" +:+ collection +:+ "/" +:+ name +:+ ".json")
    = p ++ [dir; collection; name +:+ ".json"].
Proof.
  intros (Hdir & ? & ? & ?) (Hcoll & ? & ? & ?) Hname. unfold Fs.path_join.
  rewrite !split_path_slash, split_path_plain
    by (by rewrite ?has_slash_append, ?Hname).
  destruct (json_name_segment name) as (? & ? & ?).
  simpl. rewrite !push_segment_plain by done. by rewrite <- !app_assoc.
Qed.

Lemma ends_with_append (name suffix : string) :
  Fs.ends_with suffix (name +:+ suffix) = true.
Proof.
  induction name as [|c name IH].
  - rewrite append_nil.
    destruct suffix; cbn [Fs.ends_with]; apply orb_true_iff; left;
      by apply bool_decide_eq_true_2.
  - rewrite append_cons. cbn [Fs.ends_with]. rewrite IH. apply orb_true_r.
Qed.

Lemma json_files_lookup dir fs p c :
  Fs.json_files dir fs !! p = Some c ↔
  fs !! p = Some (Fs.File c) ∧ dir `prefix_of` p ∧ p ≠ dir
  ∧ Fs.ends_with ".json" (Fs.file_name p) = true.
Proof.
  unfold Fs.json_files. rewrite lookup_omap_Some. split.
  - intros ([c'|] & [= ->] & (? & ?)%map_lookup_filter_Some). done.
  - intros (? & ?). exists (Fs.File c). split; [done|].
    by apply map_lookup_filter_Some.
Qed.

End FsProperties.

(** ** The snapshot client *)

Section SnapshotProperties.
Context {R Diff : Type}.
Variable config : SnapshotClient.SnapshotConfig.
Variable unchecked : SnapshotClient.Unchecked.

#[local] Abbreviation state := (SnapshotClient.state R Diff).
#[local] Abbreviation loadData := (SnapshotClient.loadData (R:=R) (Diff:=Diff) config unchecked).

(** [loadData] only reads. *)
Lemma loadData_reads (s : state) : (loadData s).2 = s.
Proof.
  unfold SnapshotClient.loadData, SnapshotClient.loadJsonFilesRecursively,
    SnapshotClient.read_as, SnapshotClient.read_fs, mbind, action_bind, mret,
    action_ret.
  destruct (SnapshotClient.splitFiles config); simpl; repeat case_match; done.
Qed.

#[local] Abbreviation saveData := (SnapshotClient.saveData (R:=R) (Diff:=Diff) config).
#[local] Abbreviation write_files :=
  (SnapshotClient.write_files (R:=R) (Diff:=Diff) config).
#[local] Abbreviation dumpPath := (SnapshotClient.dumpPath config).

Lemma on_fs_ok f (s s' : state) :
  SnapshotClient.on_fs f s = (Ok tt, s') →
  ∃ fs', f (SnapshotClient.fs s) = Ok fs'
         ∧ s' = {| SnapshotClient.fs := fs';
                   SnapshotClient.remote := SnapshotClient.remote s;
                   SnapshotClient.requests := SnapshotClient.requests s;
                   SnapshotClient.logs := SnapshotClient.logs s |}.
Proof.
  unfold SnapshotClient.on_fs. destruct (f (SnapshotClient.fs s)); [|done].
  intros [= <-]. eauto.
Qed.

Lemma files_of_snoc ws (w : Fs.path * Schema.document) :
  SnapshotClient.files_of (ws ++ [w])
    = <[w.1 := w.2]> (SnapshotClient.files_of ws).
Proof. unfold SnapshotClient.files_of. by rewrite foldl_snoc. Qed.

Lemma files_of_written ws p c :
  SnapshotClient.files_of ws !! p = Some c → (p, c) ∈ ws.
Proof.
  induction ws as [|[q d] ws IH] using rev_ind; [done|].
  rewrite files_of_snoc, elem_of_app, list_elem_of_singleton. simpl.
  destruct (decide (q = p)) as [->|].
  - rewrite lookup_insert_eq. intros [= ->]. by right.
  - rewrite lookup_insert_ne by done. auto.
Qed.

(** The loop of [saveData]: the files below the dump directory are
    those written so far, and the directory stays one. *)
Lemma write_files_spec files ws (s s' : state) :
  write_files files s = (Ok tt, s') →
  (∀ p c, dumpPath `prefix_of` p →
     SnapshotClient.fs s !! p = Some (Fs.File c)
     ↔ SnapshotClient.files_of ws !! p = Some c) →
  Fs.lookup_node (SnapshotClient.fs s) dumpPath = Some Fs.Dir →
  (∀ p c, dumpPath `prefix_of` p →
     SnapshotClient.fs s' !! p = Some (Fs.File c)
     ↔ SnapshotClient.files_of
         (ws ++ map (λ file, (Fs.path_join dumpPath (SnapshotClient.path file),
                              SnapshotClient.content file)) files) !! p
       = Some c)
  ∧ Fs.lookup_node (SnapshotClient.fs s') dumpPath = Some Fs.Dir
  ∧ SnapshotClient.remote s' = SnapshotClient.remote s
  ∧ SnapshotClient.requests s' = SnapshotClient.requests s
  ∧ SnapshotClient.logs s' = SnapshotClient.logs s.
Proof.
  revert ws s. induction files as [|file files IH]; intros ws s; simpl.
  { intros [= <-] Hinv Hdir. by rewrite app_nil_r. }
  unfold mbind, action_bind.
  destruct (SnapshotClient.on_fs (Fs.mkdirpSync _) s) as [[[]|?] s1] eqn:H1;
    [|done].
  apply on_fs_ok in H1 as (fs1 & Hmk & ->).
  apply mkdirpSync_spec in Hmk as (Hfile1 & Hdir1 & _).
  match goal with |- context [SnapshotClient.on_fs ?f ?s1] =>
    destruct (SnapshotClient.on_fs f s1) as [[[]|?] s2] eqn:H2; [|done] end.
  apply on_fs_ok in H2 as (fs2 & Hwr & ->). cbn [SnapshotClient.fs] in Hwr.
  apply writeJsonSync_spec in Hwr as (Hne & -> & Hnodir).
  intros Hrun Hinv Hdir.
  set (target := Fs.path_join dumpPath (SnapshotClient.path file)) in *.
  destruct (IH (ws ++ [(target, SnapshotClient.content file)]) _ Hrun)
    as (Hinv' & Hdir' & ? & ? & ?); cbn [SnapshotClient.fs].
  - intros p c Hp. rewrite files_of_snoc. cbn [fst snd].
    destruct (decide (target = p)) as [<-|].
    + rewrite !lookup_insert_eq. naive_solver.
    + rewrite !lookup_insert_ne by done. rewrite Hfile1. by apply Hinv.
  - apply lookup_node_insert_file; auto.
  - rewrite <- app_assoc in Hinv'. done.
Qed.

(** What [saveData] leaves below the dump directory: the files it
    wrote, each with what was written to it last, and nothing else;
    the directory itself is there. *)
Lemma saveData_files data n (s s' : state) :
  saveData data s = (Ok n, s') →
  n = length (SnapshotClient.written config data)
  ∧ (∀ p c, dumpPath `prefix_of` p →
       SnapshotClient.fs s' !! p = Some (Fs.File c)
       ↔ SnapshotClient.files_of (SnapshotClient.written config data) !! p
         = Some c)
  ∧ Fs.lookup_node (SnapshotClient.fs s') dumpPath = Some Fs.Dir
  ∧ SnapshotClient.remote s' = SnapshotClient.remote s
  ∧ SnapshotClient.requests s' = SnapshotClient.requests s
  ∧ SnapshotClient.logs s' = SnapshotClient.logs s.
Proof.
  unfold SnapshotClient.saveData, SnapshotClient.written, mbind, action_bind.
  cbn [SnapshotClient.on_fs].
  match goal with |- context [SnapshotClient.on_fs ?f ?s1] =>
    destruct (SnapshotClient.on_fs f s1) as [[[]|?] s2] eqn:H2; [|done] end.
  apply on_fs_ok in H2 as (fs2 & Hmk & ->). cbn [SnapshotClient.fs] in Hmk.
  apply mkdirpSync_spec in Hmk as (Hfile & _ & Hdir).
  assert (∀ p c, dumpPath `prefix_of` p →
            fs2 !! p = Some (Fs.File c)
            ↔ SnapshotClient.files_of [] !! p = Some c) as Hinv.
  { intros p c Hp. rewrite Hfile, removeSync_below by done. done. }
  destruct (SnapshotClient.splitFiles config).
  - match goal with |- context [write_files ?files ?s1] =>
      destruct (write_files files s1) as [[[]|?] s3] eqn:H3; [|done] end.
    intros [= <- <-].
    destruct (write_files_spec _ [] _ _ H3 Hinv Hdir) as (? & ? & ? & ? & ?).
    by rewrite length_map.
  - match goal with |- context [SnapshotClient.on_fs ?f ?s1] =>
      destruct (SnapshotClient.on_fs f s1) as [[[]|?] s3] eqn:H3; [|done] end.
    intros [= <- <-].
    apply on_fs_ok in H3 as (fs3 & Hwr & ->). cbn [SnapshotClient.fs] in Hwr.
    apply writeJsonSync_spec in Hwr as (Hne & -> & Hnodir).
    cbn [SnapshotClient.fs SnapshotClient.remote SnapshotClient.requests
         SnapshotClient.logs length].
    split; [done|]. split; [|split; [|done]].
    + intros p c Hp.
      change [?w] with ([] ++ [w]). rewrite files_of_snoc. cbn [fst snd].
      destruct (decide (Fs.path_join dumpPath SnapshotClient.SNAPSHOT_JSON = p))
        as [<-|].
      * rewrite !lookup_insert_eq. naive_solver.
      * rewrite !lookup_insert_ne by done. by apply Hinv.
    + apply lookup_node_insert_file; auto.
Qed.



Lemma foldl_push {A B} (f : B → A) (init : list A) (l : list B) :
  foldl (λ acc x, acc ++ [f x]) init l = init ++ map f l.
Proof.
  revert init. induction l as [|x l IH]; intros init; simpl.
  - by rewrite app_nil_r.
  - by rewrite IH, <- app_assoc.
Qed.

(** [decomposeData]: the info file, then one file per collection, per
    field and per relation, in the order of the snapshot. *)
Lemma decomposeData_files (data : Schema.Snapshot) :
  SnapshotClient.decomposeData data =
    {| SnapshotClient.path := SnapshotClient.INFO_JSON;
       SnapshotClient.content := Schema.Plain (Schema.info data) |}
    :: map (λ c, {| SnapshotClient.path :=
                      SnapshotClient.COLLECTIONS_DIR +:+ "/"
                      +:+ Schema.Collection.collection c +:+ ".json";
                    SnapshotClient.content := Schema.OfCollection c |})
           (Schema.collections data)
    ++ map (λ f, {| SnapshotClient.path :=
                      SnapshotClient.FIELDS_DIR +:+ "/"
                      +:+ Schema.Field.collection f +:+ "/"
                      +:+ Schema.Field.field f +:+ ".json";
                    SnapshotClient.content := Schema.OfField f |})
           (Schema.fields data)
    ++ map (λ r, {| SnapshotClient.path :=
                      SnapshotClient.RELATIONS_DIR +:+ "/"
                      +:+ Schema.Relation.collection r +:+ "/"
                      +:+ Schema.Relation.field r +:+ ".json";
                    SnapshotClient.content := Schema.OfRelation r |})
           (Schema.relations data).
Proof.
  unfold SnapshotClient.decomposeData. cbv zeta.
  rewrite !foldl_push, <- !app_assoc. done.
Qed.

Section Remote.
Variable getClient : action R Fs.error unit.
Variable schemaSnapshot : action R Fs.error Schema.Snapshot.
Variable schemaDiff : Schema.Snapshot → action R Fs.error (option Diff).
Variable schemaApply : Diff → action R Fs.error unit.

#[local] Abbreviation diffSnapshot :=
  (SnapshotClient.diffSnapshot getClient schemaDiff config unchecked).
#[local] Abbreviation restoreSchema :=
  (SnapshotClient.restore getClient schemaDiff schemaApply config unchecked).
#[local] Abbreviation getSnapshot :=
  (SnapshotClient.getSnapshot getClient schemaSnapshot).
#[local] Abbreviation dump :=
  (SnapshotClient.dump getClient schemaSnapshot config).

(** What [diffSnapshot] leaves: at most its own request, and the file
    system as it was. *)
Lemma diffSnapshot_requests (s : state) :
  SnapshotClient.fs (diffSnapshot s).2 = SnapshotClient.fs s
  ∧ ∃ sent, SnapshotClient.requests (diffSnapshot s).2
              = SnapshotClient.requests s ++ sent
            ∧ ∀ d, SnapshotClient.SchemaApply d ∉ sent.
Proof.
  unfold SnapshotClient.diffSnapshot, mbind, action_bind,
    SnapshotClient.on_remote, SnapshotClient.sent.
  destruct (getClient (SnapshotClient.remote s)) as [[[]|e] r1]; simpl.
  2:{ split; [done|]. exists []. rewrite app_nil_r. split; [done|].
      intros; apply not_elem_of_nil. }
  match goal with |- context [loadData ?s1] =>
    pose proof (loadData_reads s1) as Hread;
    destruct (loadData s1) as [[snapshot|e] s2] end; simpl in *; subst s2.
  2:{ split; [done|]. exists []. rewrite app_nil_r. split; [done|].
      intros; apply not_elem_of_nil. }
  simpl.
  destruct (schemaDiff snapshot r1) as [[diff|e] r2]; simpl.
  all: split; [done|]; eexists [_]; split; [done|].
  all: by intros d [=]%list_elem_of_singleton.
Qed.

(** What [loadData] returns depends on the file system only. *)
Lemma loadData_fs (s1 s2 : state) :
  SnapshotClient.fs s1 = SnapshotClient.fs s2 →
  (loadData s1).1 = (loadData s2).1.
Proof.
  intros Hfs.
  unfold SnapshotClient.loadData, SnapshotClient.loadJsonFilesRecursively,
    SnapshotClient.read_as, SnapshotClient.read_fs, mbind, action_bind, mret,
    action_ret.
  destruct (SnapshotClient.splitFiles config); simpl; rewrite Hfs; [|done].
  by repeat case_match.
Qed.

(** [diffSnapshot()] asks the instance: once the client is handed out
    and the dump is loaded, it sends the diff request for the loaded
    snapshot, and its result and the state of the instance are those
    of that request on the instance. *)
Lemma diffSnapshot_asks (s : state) (r1 : R) (snapshot : Schema.Snapshot) :
  getClient (SnapshotClient.remote s) = (Ok tt, r1) →
  (loadData s).1 = Ok snapshot →
  diffSnapshot s =
    ((schemaDiff snapshot r1).1,
     {| SnapshotClient.fs := SnapshotClient.fs s;
        SnapshotClient.remote := (schemaDiff snapshot r1).2;
        SnapshotClient.requests :=
          SnapshotClient.requests s ++ [SnapshotClient.SchemaDiff snapshot];
        SnapshotClient.logs := SnapshotClient.logs s |}).
Proof.
  intros Hclient Hload.
  unfold SnapshotClient.diffSnapshot, mbind, action_bind,
    SnapshotClient.on_remote, SnapshotClient.sent.
  rewrite Hclient.
  match goal with |- context [loadData ?s1] =>
    pose proof (loadData_reads s1) as Hread;
    pose proof (loadData_fs s1 s eq_refl) as Hsame;
    destruct (loadData s1) as [[snapshot'|e] s2] end;
    cbn [fst snd] in *; subst s2; rewrite Hload in Hsame; [|done].
  injection Hsame as ->.
  cbn [SnapshotClient.fs SnapshotClient.remote SnapshotClient.requests
       SnapshotClient.logs].
  by destruct (schemaDiff snapshot r1) as [[diff|e] r2].
Qed.

(** C7: the schema [restore()] computes the diff against the instance
    and applies it exactly when it is not undefined. Once the client
    is handed out and the dump is loaded, [diffSnapshot()] sends the
    diff request for the loaded snapshot and returns what the instance
    answers. When that is a diff, [restore()] asks for the client,
    sends the apply request for that diff, and the instance is left as
    the apply leaves it, [restore()] returning when the apply returns.
    When it is undefined, [restore()] returns with no apply request,
    the instance being as [diffSnapshot()] left it. In every case an
    apply request is among the requests sent exactly when there was a
    diff and the client was handed out, and the files are untouched. *)
Theorem restore_applies_iff_diff (s : state) :
  (∀ r1 snapshot,
     getClient (SnapshotClient.remote s) = (Ok tt, r1) →
     (loadData s).1 = Ok snapshot →
     diffSnapshot s =
       ((schemaDiff snapshot r1).1,
        {| SnapshotClient.fs := SnapshotClient.fs s;
           SnapshotClient.remote := (schemaDiff snapshot r1).2;
           SnapshotClient.requests :=
             SnapshotClient.requests s
             ++ [SnapshotClient.SchemaDiff snapshot];
           SnapshotClient.logs := SnapshotClient.logs s |}))
  ∧ (∀ d s1 r2,
       diffSnapshot s = (Ok (Some d), s1) →
       getClient (SnapshotClient.remote s1) = (Ok tt, r2) →
       restoreSchema s =
         (match (schemaApply d r2).1 with
          | Ok _ => Ok tt
          | Throw e => Throw e
          end,
          {| SnapshotClient.fs := SnapshotClient.fs s1;
             SnapshotClient.remote := (schemaApply d r2).2;
             SnapshotClient.requests :=
               SnapshotClient.requests s1 ++ [SnapshotClient.SchemaApply d];
             SnapshotClient.logs :=
               SnapshotClient.logs s1
               ++ match (schemaApply d r2).1 with
                  | Ok _ => ["Changes applied"]
                  | Throw _ => []
                  end |}))
  ∧ (∀ s1,
       diffSnapshot s = (Ok None, s1) →
       restoreSchema s =
         (Ok tt,
          {| SnapshotClient.fs := SnapshotClient.fs s1;
             SnapshotClient.remote := SnapshotClient.remote s1;
             SnapshotClient.requests := SnapshotClient.requests s1;
             SnapshotClient.logs :=
               SnapshotClient.logs s1 ++ ["No changes to apply"] |}))
  ∧ ∃ sent,
      SnapshotClient.requests (restoreSchema s).2
        = SnapshotClient.requests s ++ sent
      ∧ (∀ d, SnapshotClient.SchemaApply d ∈ sent ↔
           (diffSnapshot s).1 = Ok (Some d)
           ∧ (getClient (SnapshotClient.remote (diffSnapshot s).2)).1 = Ok tt)
      ∧ ((diffSnapshot s).1 = Ok None →
           (restoreSchema s).1 = Ok tt
           ∧ SnapshotClient.remote (restoreSchema s).2
               = SnapshotClient.remote (diffSnapshot s).2
           ∧ SnapshotClient.requests (restoreSchema s).2
               = SnapshotClient.requests (diffSnapshot s).2)
      ∧ SnapshotClient.fs (restoreSchema s).2 = SnapshotClient.fs s.
Proof.
  split; [intros; by apply diffSnapshot_asks|].
  split.
  { intros d s1 r2 Hdiff Hclient.
    unfold SnapshotClient.restore, mbind, action_bind. rewrite Hdiff.
    unfold SnapshotClient.on_remote, SnapshotClient.sent,
      SnapshotClient.logger.
    rewrite Hclient. cbn [SnapshotClient.fs SnapshotClient.remote
      SnapshotClient.requests SnapshotClient.logs].
    destruct (schemaApply d r2) as [[[]|e] r3]; cbn [fst snd]; [done|].
    by rewrite app_nil_r. }
  split.
  { intros s1 Hdiff.
    unfold SnapshotClient.restore, mbind, action_bind. by rewrite Hdiff. }
  destruct (diffSnapshot_requests s) as (Hfs & pre & Hpre & Hnone).
  unfold SnapshotClient.restore, mbind, action_bind.
  destruct (diffSnapshot s) as [[[d|]|e] s1]; cbn [fst snd] in *.
  - unfold SnapshotClient.on_remote, SnapshotClient.sent,
      SnapshotClient.logger.
    destruct (getClient (SnapshotClient.remote s1)) as [[[]|e] r2]; simpl.
    + destruct (schemaApply d r2) as [[[]|e] r3]; simpl.
      all: exists (pre ++ [SnapshotClient.SchemaApply d]).
      all: rewrite Hpre, <- app_assoc; split; [done|].
      all: split; [|split; [done|done]].
      all: intros d'; rewrite elem_of_app, list_elem_of_singleton.
      all: split; [intros [?|[= ->]]; [by apply Hnone in H|done]|].
      all: intros [[= ->] _]; by right.
    + exists pre. split; [done|]. split; [|split; [done|done]].
      intros d'. split; [intros ?; by apply Hnone in H|]. by intros [_ [=]].
  - unfold SnapshotClient.logger; simpl. exists pre. split; [done|].
    split; [|split; [done|done]].
    intros d'. split; [intros ?; by apply Hnone in H|]. by intros [[=] _].
  - exists pre. split; [done|]. split; [|split; [done|done]].
    intros d'. split; [intros ?; by apply Hnone in H|]. by intros [[=] _].
Qed.

(** [dump()] is the fetch, then [saveData], then one line of log. *)
Lemma dump_ok (s s' : state) :
  dump s = (Ok tt, s') →
  ∃ data s1 n s2,
    getSnapshot s = (Ok data, s1)
    ∧ SnapshotClient.fs s1 = SnapshotClient.fs s
    ∧ saveData data s1 = (Ok n, s2)
    ∧ SnapshotClient.fs s' = SnapshotClient.fs s2
    ∧ SnapshotClient.logs s'
        = SnapshotClient.logs s2 ++ [SnapshotClient.saved_message config n].
Proof.
  unfold SnapshotClient.dump, mbind, action_bind.
  destruct (getSnapshot s) as [[data|?] s1] eqn:Hget; [|done].
  destruct (saveData data s1) as [[n|?] s2] eqn:Hsave; [|done].
  unfold SnapshotClient.logger. intros [= <-]. exists data, s1, n, s2.
  repeat split; try done.
  revert Hget. unfold SnapshotClient.getSnapshot, mbind, action_bind,
    SnapshotClient.on_remote, SnapshotClient.sent.
  destruct (getClient (SnapshotClient.remote s)) as [[[]|?] ?]; [|done].
  simpl. destruct (schemaSnapshot _) as [[?|?] ?]; [|done].
  by intros [= _ <-].
Qed.

(** C8 (as amended): [saveData] persists the snapshot as the one
    document [snapshot.json] or, in split mode, as [info.json], one
    [collections/<name>.json] per collection, one
    [fields/<collection>/<field>.json] per field and one
    [relations/<collection>/<field>.json] per relation, and returns
    the number of files it wrote: one, or one more than the
    collections, fields and relations together. [dump()] logs that
    number and returns nothing. *)
Theorem dump_file_count (data : Schema.Snapshot) (s : state) :
  map SnapshotClient.path (SnapshotClient.decomposeData data) =
    SnapshotClient.INFO_JSON
    :: map (λ c, SnapshotClient.COLLECTIONS_DIR +:+ "/"
                 +:+ Schema.Collection.collection c +:+ ".json")
           (Schema.collections data)
    ++ map (λ f, SnapshotClient.FIELDS_DIR +:+ "/"
                 +:+ Schema.Field.collection f +:+ "/"
                 +:+ Schema.Field.field f +:+ ".json")
           (Schema.fields data)
    ++ map (λ r, SnapshotClient.RELATIONS_DIR +:+ "/"
                 +:+ Schema.Relation.collection r +:+ "/"
                 +:+ Schema.Relation.field r +:+ ".json")
           (Schema.relations data)
  ∧ SnapshotClient.written config data =
      (if SnapshotClient.splitFiles config then
         map (λ file, (Fs.path_join dumpPath (SnapshotClient.path file),
                       SnapshotClient.content file))
             (SnapshotClient.decomposeData data)
       else [(Fs.path_join dumpPath SnapshotClient.SNAPSHOT_JSON,
              Schema.Whole data)])
  ∧ (∀ n s', saveData data s = (Ok n, s') →
       n = (if SnapshotClient.splitFiles config then
              1 + length (Schema.collections data)
              + length (Schema.fields data)
              + length (Schema.relations data)
            else 1)
       ∧ ∀ p c, dumpPath `prefix_of` p →
           SnapshotClient.fs s' !! p = Some (Fs.File c)
           ↔ SnapshotClient.files_of (SnapshotClient.written config data) !! p
             = Some c)
  ∧ (∀ s', dump s = (Ok tt, s') →
       ∃ fetched s1 n s2,
         getSnapshot s = (Ok fetched, s1)
         ∧ saveData fetched s1 = (Ok n, s2)
         ∧ SnapshotClient.logs s'
             = SnapshotClient.logs s2
               ++ [SnapshotClient.saved_message config n]).
Proof.
  split; [|split; [done|split]].
  - rewrite decomposeData_files. cbn [map SnapshotClient.path].
    rewrite !map_app, !map_map. done.
  - intros n s' Hsave.
    destruct (saveData_files _ _ _ _ Hsave) as (-> & Hfiles & _).
    split; [|done]. unfold SnapshotClient.written.
    destruct (SnapshotClient.splitFiles config); [|done].
    rewrite length_map, decomposeData_files. cbn [length].
    rewrite !length_app, !length_map. lia.
  - intros s' Hdump.
    destruct (dump_ok _ _ Hdump) as (fetched & s1 & n & s2 & ? & _ & ? & _ & ?).
    by exists fetched, s1, n, s2.
Qed.

End Remote.

End SnapshotProperties.

(** ** Reloading a dump *)

Section Reload.
Context {R Diff : Type}.
Variable D : Fs.path.
Variable unchecked : SnapshotClient.Unchecked.

#[local] Abbreviation state := (SnapshotClient.state R Diff).
#[local] Abbreviation split :=
  {| SnapshotClient.dumpPath := D; SnapshotClient.splitFiles := true |}.
#[local] Abbreviation single :=
  {| SnapshotClient.dumpPath := D; SnapshotClient.splitFiles := false |}.

Lemma NoDup_fmap_via {A K B} (key : A → K) (f : A → B) (l : list A) :
  (∀ a b, f a = f b → key a = key b) →
  NoDup (key <$> l) → NoDup (f <$> l).
Proof.
  intros Hkey. induction l as [|a l IH]; csimpl; [constructor|].
  rewrite !NoDup_cons. intros [Ha Hl]. split; [|auto].
  intros (b & Hb%Hkey & ?)%list_elem_of_fmap. apply Ha.
  rewrite Hb. by apply list_elem_of_fmap_2.
Qed.

Lemma files_of_list_to_map (ws : list (Fs.path * Schema.document)) :
  NoDup (ws.*1) → SnapshotClient.files_of ws = list_to_map ws.
Proof.
  induction ws as [|[p c] ws IH] using rev_ind; [done|].
  rewrite fmap_app, NoDup_app. intros (Hws & Hnew & _).
  rewrite files_of_snoc, list_to_map_snoc, IH; [done..|].
  intros Hp. apply (Hnew p); [done|]. by left.
Qed.

Lemma files_of_lookup (ws : list (Fs.path * Schema.document)) p c :
  NoDup (ws.*1) → SnapshotClient.files_of ws !! p = Some c ↔ (p, c) ∈ ws.
Proof.
  intros Hws. rewrite files_of_list_to_map by done.
  symmetry. by apply elem_of_list_to_map.
Qed.

#[local] Abbreviation collection_entry := (SnapshotClient.collection_entry D).
#[local] Abbreviation field_entry := (SnapshotClient.field_entry D).
#[local] Abbreviation relation_entry := (SnapshotClient.relation_entry D).

Lemma plain_literal (name : string) :
  Fs.has_slash name = false → String.length name > 2 → Fs.plain name.
Proof.
  intros ? Hlen. split; [done|].
  repeat split; intros ->; simpl in Hlen; lia.
Qed.

Lemma plain_directories :
  Fs.plain SnapshotClient.COLLECTIONS_DIR
  ∧ Fs.plain SnapshotClient.FIELDS_DIR
  ∧ Fs.plain SnapshotClient.RELATIONS_DIR.
Proof.
  repeat apply conj; apply plain_literal;
    first [vm_compute; reflexivity | simpl; lia].
Qed.

Lemma snapshot_json_plain : Fs.plain SnapshotClient.SNAPSHOT_JSON.
Proof. apply plain_literal; [vm_compute; reflexivity|simpl; lia]. Qed.

Lemma written_split (data : Schema.Snapshot) :
  SnapshotClient.well_named data →
  SnapshotClient.written split data =
    (D ++ ["info.json"], Schema.Plain (Schema.info data))
    :: (collection_entry <$> Schema.collections data)
    ++ (field_entry <$> Schema.fields data)
    ++ (relation_entry <$> Schema.relations data).
Proof.
  intros (Hc & _ & Hf & _ & Hr & _).
  unfold SnapshotClient.written. cbn [SnapshotClient.splitFiles].
  rewrite decomposeData_files. cbn [map SnapshotClient.path SnapshotClient.content
    SnapshotClient.dumpPath].
  f_equal. rewrite !map_app, !map_map. f_equal; [|f_equal].
  - induction Hc as [|c cs (? & _) _ IH]; [done|].
    cbn [map fmap list_fmap]. f_equal; [|exact IH].
    unfold SnapshotClient.collection_entry. f_equal. cbn [SnapshotClient.path].
    apply path_join_file; [apply plain_directories|done].
  - induction Hf as [|f fs [? (? & _)] _ IH]; [done|].
    cbn [map fmap list_fmap]. f_equal; [|exact IH].
    unfold SnapshotClient.field_entry. f_equal. cbn [SnapshotClient.path].
    apply path_join_nested; [apply plain_directories|done..].
  - induction Hr as [|r rs [? (? & _)] _ IH]; [done|].
    cbn [map fmap list_fmap]. f_equal; [|exact IH].
    unfold SnapshotClient.relation_entry. f_equal. cbn [SnapshotClient.path].
    apply path_join_nested; [apply plain_directories|done..].
Qed.

Lemma prefix_segment (q1 q2 : Fs.path) (a b : string) :
  (D ++ a :: q1) `prefix_of` (D ++ b :: q2) → a = b.
Proof.
  intros [k Hk]. rewrite <- app_assoc in Hk.
  apply app_inv_head in Hk. by simplify_eq/=.
Qed.

(** The files of a well named snapshot go to paths of their own. *)
Lemma written_split_NoDup (data : Schema.Snapshot) :
  SnapshotClient.well_named data →
  NoDup ((SnapshotClient.written split data).*1).
Proof.
  intros Hnamed. rewrite written_split by done.
  destruct Hnamed as (_ & Hc & _ & Hf & _ & Hr).
  rewrite fmap_cons, !fmap_app, <- !list_fmap_compose.
  apply NoDup_cons. split.
  { rewrite !elem_of_app, !list_elem_of_fmap.
    intros [(? & Heq & _)|[(? & Heq & _)|(? & Heq & _)]];
      apply app_inv_head in Heq; done. }
  apply NoDup_app. split; [|split].
  - apply (NoDup_fmap_via Schema.Collection.collection); [|done].
    intros a b Heq. apply app_inv_head in Heq.
    injection Heq as Heq. by apply append_inv_tail in Heq.
  - intros p (a & -> & _)%list_elem_of_fmap.
    rewrite elem_of_app, !list_elem_of_fmap.
    intros [(? & Heq & _)|(? & Heq & _)]; apply app_inv_head in Heq; done.
  - apply NoDup_app. split; [|split].
    + apply (NoDup_fmap_via
               (λ f, (Schema.Field.collection f, Schema.Field.field f)));
        [|done].
      intros a b Heq. apply app_inv_head in Heq.
      injection Heq as -> Heq. by apply append_inv_tail in Heq as ->.
    + intros p (a & -> & _)%list_elem_of_fmap.
      rewrite list_elem_of_fmap.
      intros (? & Heq & _); apply app_inv_head in Heq; done.
    + apply (NoDup_fmap_via
               (λ r, (Schema.Relation.collection r, Schema.Relation.field r)));
        [|done].
      intros a b Heq. apply app_inv_head in Heq.
      injection Heq as -> Heq. by apply append_inv_tail in Heq as ->.
Qed.

(** The loader on a directory that holds one file per item: it
    returns the items, in some order. *)
Lemma loadJsonFilesRecursively_items {A} (cast : Schema.document → A)
    (entry : A → Fs.path * Schema.document) (dir : Fs.path)
    (items : list A) (s : state) :
  (∀ a, cast (entry a).2 = a) →
  NoDup ((entry <$> items).*1) →
  (∀ p c, Fs.json_files dir (SnapshotClient.fs s) !! p = Some c
          ↔ (p, c) ∈ entry <$> items) →
  ∃ l, SnapshotClient.loadJsonFilesRecursively cast dir s = (Ok l, s)
       ∧ l ≡ₚ items.
Proof.
  intros Hcast Hnodup Hfiles.
  assert (Fs.json_files dir (SnapshotClient.fs s) = list_to_map (entry <$> items))
    as Hmap.
  { apply map_eq. intros p. apply option_eq. intros c.
    rewrite Hfiles. by apply elem_of_list_to_map. }
  unfold SnapshotClient.loadJsonFilesRecursively, SnapshotClient.read_fs.
  rewrite Hmap.
  assert (merge_sort Fs.entry_le (map_to_list (list_to_map (entry <$> items)
            : gmap Fs.path Schema.document))
          ≡ₚ entry <$> items) as Hperm.
  { rewrite merge_sort_Permutation. by apply map_to_list_to_map. }
  eexists. split; [done|].
  change (map ?f ?l) with (f <$> l). rewrite Hperm, <- list_fmap_compose.
  rewrite <- (list_fmap_id items) at 2. apply Permutation_refl'.
  apply list_fmap_ext. intros _ a _. simpl. apply Hcast.
Qed.

Lemma path_join_name (name : string) :
  Fs.plain name → Fs.path_join D name = D ++ [name].
Proof.
  intros (? & ? & ? & ?). unfold Fs.path_join.
  rewrite split_path_plain by done. simpl. by apply push_segment_plain.
Qed.

Lemma lookup_node_below (fs : gmap Fs.path Fs.node) (q : Fs.path) (a : string) :
  Fs.lookup_node fs (D ++ a :: q) = fs !! (D ++ a :: q).
Proof. by destruct D. Qed.

Lemma file_name_last (q : Fs.path) (name : string) :
  Fs.file_name (q ++ [name]) = name.
Proof. unfold Fs.file_name. by rewrite last_snoc. Qed.

(** What a split dump of a well named snapshot leaves below the dump
    directory. *)
Lemma split_saved (data : Schema.Snapshot) n (s s' : state) :
  SnapshotClient.well_named data →
  SnapshotClient.saveData split data s = (Ok n, s') →
  ∀ p c, D `prefix_of` p →
    SnapshotClient.fs s' !! p = Some (Fs.File c)
    ↔ (p, c) ∈ (D ++ ["info.json"], Schema.Plain (Schema.info data))
               :: (collection_entry <$> Schema.collections data)
               ++ (field_entry <$> Schema.fields data)
               ++ (relation_entry <$> Schema.relations data).
Proof.
  intros Hnamed Hsave p c Hp.
  destruct (saveData_files _ _ _ _ _ Hsave) as (_ & Hfiles & _).
  rewrite (Hfiles p c Hp), files_of_lookup by by apply written_split_NoDup.
  by rewrite written_split.
Qed.

Lemma collections_saved (data : Schema.Snapshot) (fs : gmap Fs.path Fs.node) :
  (∀ p c, D `prefix_of` p →
     fs !! p = Some (Fs.File c)
     ↔ (p, c) ∈ (D ++ ["info.json"], Schema.Plain (Schema.info data))
                :: (collection_entry <$> Schema.collections data)
                ++ (field_entry <$> Schema.fields data)
                ++ (relation_entry <$> Schema.relations data)) →
  ∀ p c, Fs.json_files (D ++ ["collections"]) fs !! p = Some c
         ↔ (p, c) ∈ collection_entry <$> Schema.collections data.
Proof.
  intros Hfs p c. rewrite json_files_lookup. split.
  - intros (Hfile & Hpre & _).
    apply Hfs in Hfile; [|by etrans; [apply prefix_app_r|]].
    rewrite elem_of_cons, !elem_of_app, !list_elem_of_fmap in Hfile.
    destruct Hfile as [[= -> ->]|[Hc|[(? & [= -> ->] & _)|(? & [= -> ->] & _)]]].
    + by apply prefix_segment in Hpre.
    + by apply list_elem_of_fmap.
    + by apply prefix_segment in Hpre.
    + by apply prefix_segment in Hpre.
  - intros (a & [= -> ->] & Ha)%list_elem_of_fmap. split; [|split; [|split]].
    + apply Hfs; [by apply prefix_app_r|]. right. apply elem_of_app. left.
      by apply (list_elem_of_fmap_2 collection_entry).
    + eexists [_]. by rewrite <- app_assoc.
    + intros Heq. by apply app_inv_head in Heq.
    + change [?a; ?b] with ([a] ++ [b]). rewrite app_assoc, file_name_last.
      apply ends_with_append.
Qed.

Lemma fields_saved (data : Schema.Snapshot) (fs : gmap Fs.path Fs.node) :
  (∀ p c, D `prefix_of` p →
     fs !! p = Some (Fs.File c)
     ↔ (p, c) ∈ (D ++ ["info.json"], Schema.Plain (Schema.info data))
                :: (collection_entry <$> Schema.collections data)
                ++ (field_entry <$> Schema.fields data)
                ++ (relation_entry <$> Schema.relations data)) →
  ∀ p c, Fs.json_files (D ++ ["fields"]) fs !! p = Some c
         ↔ (p, c) ∈ field_entry <$> Schema.fields data.
Proof.
  intros Hfs p c. rewrite json_files_lookup. split.
  - intros (Hfile & Hpre & _).
    apply Hfs in Hfile; [|by etrans; [apply prefix_app_r|]].
    rewrite elem_of_cons, !elem_of_app, !list_elem_of_fmap in Hfile.
    destruct Hfile as [[= -> ->]|[(? & [= -> ->] & _)|[Hc|(? & [= -> ->] & _)]]].
    + by apply prefix_segment in Hpre.
    + by apply prefix_segment in Hpre.
    + by apply list_elem_of_fmap.
    + by apply prefix_segment in Hpre.
  - intros (a & [= -> ->] & Ha)%list_elem_of_fmap. split; [|split; [|split]].
    + apply Hfs; [by apply prefix_app_r|]. right. apply elem_of_app. right.
      apply elem_of_app. left. by apply (list_elem_of_fmap_2 field_entry).
    + eexists [_; _]. by rewrite <- app_assoc.
    + intros Heq. by apply app_inv_head in Heq.
    + change [?a; ?b; ?c] with ([a; b] ++ [c]). rewrite app_assoc, file_name_last.
      apply ends_with_append.
Qed.

Lemma relations_saved (data : Schema.Snapshot) (fs : gmap Fs.path Fs.node) :
  (∀ p c, D `prefix_of` p →
     fs !! p = Some (Fs.File c)
     ↔ (p, c) ∈ (D ++ ["info.json"], Schema.Plain (Schema.info data))
                :: (collection_entry <$> Schema.collections data)
                ++ (field_entry <$> Schema.fields data)
                ++ (relation_entry <$> Schema.relations data)) →
  ∀ p c, Fs.json_files (D ++ ["relations"]) fs !! p = Some c
         ↔ (p, c) ∈ relation_entry <$> Schema.relations data.
Proof.
  intros Hfs p c. rewrite json_files_lookup. split.
  - intros (Hfile & Hpre & _).
    apply Hfs in Hfile; [|by etrans; [apply prefix_app_r|]].
    rewrite elem_of_cons, !elem_of_app, !list_elem_of_fmap in Hfile.
    destruct Hfile as [[= -> ->]|[(? & [= -> ->] & _)|[(? & [= -> ->] & _)|Hc]]].
    + by apply prefix_segment in Hpre.
    + by apply prefix_segment in Hpre.
    + by apply prefix_segment in Hpre.
    + by apply list_elem_of_fmap.
  - intros (a & [= -> ->] & Ha)%list_elem_of_fmap. split; [|split; [|split]].
    + apply Hfs; [by apply prefix_app_r|]. right. apply elem_of_app. right.
      apply elem_of_app. right. by apply (list_elem_of_fmap_2 relation_entry).
    + eexists [_; _]. by rewrite <- app_assoc.
    + intros Heq. by apply app_inv_head in Heq.
    + change [?a; ?b; ?c] with ([a; b] ++ [c]). rewrite app_assoc, file_name_last.
      apply ends_with_append.
Qed.

(** C4 (as amended): for a snapshot whose names are plain and tell its
    collections, fields and relations apart, the dump in split mode and
    the dump in single-file mode reload to the same info and to the same
    collections, fields and relations up to their order: the
    single-file reload is the snapshot itself, and the split reload
    lists the same items in the order of their files. *)
Theorem split_reload_is_permutation (data : Schema.Snapshot)
    (sa sa' sb sb' : state) (n m : nat) :
  SnapshotClient.well_named data →
  SnapshotClient.saveData split data sa = (Ok n, sa') →
  SnapshotClient.saveData single data sb = (Ok m, sb') →
  ∃ reloaded,
    SnapshotClient.loadData split unchecked sa' = (Ok reloaded, sa')
    ∧ SnapshotClient.loadData single unchecked sb' = (Ok data, sb')
    ∧ Schema.info reloaded = Schema.info data
    ∧ Schema.collections reloaded ≡ₚ Schema.collections data
    ∧ Schema.fields reloaded ≡ₚ Schema.fields data
    ∧ Schema.relations reloaded ≡ₚ Schema.relations data.
Proof.
  intros Hnamed Hsplit Hsingle.
  pose proof (split_saved _ _ _ _ Hnamed Hsplit) as Hfs.
  pose proof (written_split_NoDup _ Hnamed) as Hnodup.
  rewrite written_split in Hnodup by done.
  rewrite fmap_cons, !fmap_app in Hnodup.
  apply NoDup_cons in Hnodup as (_ & (Hc & _ & (Hf & _ & Hr)%NoDup_app)%NoDup_app).
  destruct (loadJsonFilesRecursively_items
              (SnapshotClient.cast SnapshotClient.as_collection
                 (SnapshotClient.foreign_collection unchecked))
              collection_entry (D ++ ["collections"])
              (Schema.collections data) sa')
    as (cs & Hcs & Hpc); [done|done|by apply collections_saved|].
  destruct (loadJsonFilesRecursively_items
              (SnapshotClient.cast SnapshotClient.as_field
                 (SnapshotClient.foreign_field unchecked))
              field_entry (D ++ ["fields"]) (Schema.fields data) sa')
    as (fs & Hfs' & Hpf); [done|done|by apply fields_saved|].
  destruct (loadJsonFilesRecursively_items
              (SnapshotClient.cast SnapshotClient.as_relation
                 (SnapshotClient.foreign_relation unchecked))
              relation_entry (D ++ ["relations"]) (Schema.relations data) sa')
    as (rs & Hrs & Hpr); [done|done|by apply relations_saved|].
  exists {| Schema.info := Schema.info data; Schema.collections := cs;
            Schema.fields := fs; Schema.relations := rs |}.
  split; [|split; [|done]].
  - unfold SnapshotClient.loadData. cbn [SnapshotClient.splitFiles
      SnapshotClient.dumpPath]. unfold mbind, action_bind.
    destruct plain_directories as (? & ? & ?).
    rewrite !path_join_name by done.
    unfold SnapshotClient.COLLECTIONS_DIR, SnapshotClient.FIELDS_DIR,
      SnapshotClient.RELATIONS_DIR.
    rewrite Hcs, Hfs', Hrs.
    unfold SnapshotClient.read_as, SnapshotClient.read_fs, Fs.readJsonSync,
      SnapshotClient.INFO_JSON.
    rewrite lookup_node_below.
    assert (SnapshotClient.fs sa' !! (D ++ ["info.json"])
            = Some (Fs.File (Schema.Plain (Schema.info data)))) as ->.
    { apply Hfs; [by apply prefix_app_r|]. by left. }
    done.
  - destruct (saveData_files _ _ _ _ _ Hsingle) as (_ & Hfiles & _).
    unfold SnapshotClient.loadData. cbn [SnapshotClient.splitFiles
      SnapshotClient.dumpPath] in *.
    unfold SnapshotClient.read_as, SnapshotClient.read_fs, Fs.readJsonSync.
    unfold SnapshotClient.written in Hfiles.
    cbn [SnapshotClient.splitFiles SnapshotClient.dumpPath] in Hfiles.
    unfold SnapshotClient.SNAPSHOT_JSON in *.
    rewrite (path_join_name "snapshot.json") in *
      by (apply plain_literal; [vm_compute; reflexivity|simpl; lia]).
    rewrite lookup_node_below.
    assert (SnapshotClient.fs sb' !! (D ++ ["snapshot.json"])
            = Some (Fs.File (Schema.Whole data))) as ->.
    { apply Hfiles; [by apply prefix_app_r|].
      change [?w] with ([] ++ [w]). rewrite files_of_snoc. simpl.
      by rewrite lookup_insert_eq. }
    done.
Qed.

End Reload.

(** ** Dumps that return *)




Section DumpReturns.
Context {R Diff : Type}.
Variable config : SnapshotClient.SnapshotConfig.

#[local] Abbreviation state := (SnapshotClient.state R Diff).
#[local] Abbreviation D := (SnapshotClient.dumpPath config).
#[local] Abbreviation saveData :=
  (SnapshotClient.saveData (R:=R) (Diff:=Diff) config).
#[local] Abbreviation write_files :=
  (SnapshotClient.write_files (R:=R) (Diff:=Diff) config).






Section Fetched.
Variable getClient : action R Fs.error unit.
Variable schemaSnapshot : action R Fs.error Schema.Snapshot.

#[local] Abbreviation getSnapshot :=
  (SnapshotClient.getSnapshot getClient schemaSnapshot).
#[local] Abbreviation dump :=
  (SnapshotClient.dump getClient schemaSnapshot config).



End Fetched.
End DumpReturns.

(** C4, counterexample: the snapshot lists [users] before [roles]; the
    single-file dump reloads to it, the split dump reloads to the
    collections and fields in the order of their files. *)
Lemma split_reload_reorders :
  (SnapshotClient.loadData SnapshotExamples.split SnapshotExamples.unchecked
     (SnapshotClient.saveData SnapshotExamples.split SnapshotExamples.snapshot
        (SnapshotExamples.initial 0)).2).1
  = Ok SnapshotExamples.by_path
  ∧ (SnapshotClient.loadData SnapshotExamples.single SnapshotExamples.unchecked
       (SnapshotClient.saveData SnapshotExamples.single
          SnapshotExamples.snapshot (SnapshotExamples.initial 0)).2).1
    = Ok SnapshotExamples.snapshot
  ∧ SnapshotExamples.by_path ≠ SnapshotExamples.snapshot.
Proof.
  repeat apply conj; [vm_compute; reflexivity..|discriminate].
Qed.

(** The two orders of the snapshot leave the same files, so that no
    loader could tell them apart; and of a collection listed twice one
    file is left. *)
Example split_dump_forgets_order :
  map_to_list
    (SnapshotClient.fs
       (SnapshotClient.saveData SnapshotExamples.split
          SnapshotExamples.snapshot (SnapshotExamples.initial 0)).2)
  = map_to_list
      (SnapshotClient.fs
         (SnapshotClient.saveData SnapshotExamples.split
            SnapshotExamples.by_path (SnapshotExamples.initial 0)).2)
  ∧ (SnapshotClient.loadData SnapshotExamples.split SnapshotExamples.unchecked
       (SnapshotClient.saveData SnapshotExamples.split SnapshotExamples.twice
          (SnapshotExamples.initial 0)).2).1
    = Ok {| Schema.info := SnapshotExamples.info;
            Schema.collections := [SnapshotExamples.collection "roles"];
            Schema.fields := [];
            Schema.relations := [] |}
  ∧ (SnapshotClient.loadData SnapshotExamples.single SnapshotExamples.unchecked
       (SnapshotClient.saveData SnapshotExamples.single SnapshotExamples.twice
          (SnapshotExamples.initial 0)).2).1
    = Ok SnapshotExamples.twice.
Proof. repeat apply conj; vm_compute; reflexivity. Qed.

Lemma split_reload_is_permutation_witness :
  ∃ reloaded,
    SnapshotClient.loadData SnapshotExamples.split SnapshotExamples.unchecked
      (SnapshotClient.saveData SnapshotExamples.split SnapshotExamples.snapshot
         (SnapshotExamples.initial 0)).2
    = (Ok reloaded,
       (SnapshotClient.saveData SnapshotExamples.split
          SnapshotExamples.snapshot (SnapshotExamples.initial 0)).2)
    ∧ SnapshotClient.loadData SnapshotExamples.single SnapshotExamples.unchecked
        (SnapshotClient.saveData SnapshotExamples.single
           SnapshotExamples.snapshot (SnapshotExamples.initial 0)).2
      = (Ok SnapshotExamples.snapshot,
         (SnapshotClient.saveData SnapshotExamples.single
            SnapshotExamples.snapshot (SnapshotExamples.initial 0)).2)
    ∧ Schema.info reloaded = Schema.info SnapshotExamples.snapshot
    ∧ Schema.collections reloaded
        ≡ₚ Schema.collections SnapshotExamples.snapshot
    ∧ Schema.fields reloaded ≡ₚ Schema.fields SnapshotExamples.snapshot
    ∧ Schema.relations reloaded
        ≡ₚ Schema.relations SnapshotExamples.snapshot.
Proof.
  refine (split_reload_is_permutation ["srv"; "dump"]
            SnapshotExamples.unchecked SnapshotExamples.snapshot
            (SnapshotExamples.initial 0) _ (SnapshotExamples.initial 0) _
            6 1 _ _ _).
  - apply (bool_decide_unpack
             (SnapshotClient.well_named SnapshotExamples.snapshot)).
    vm_compute. exact I.
  - refine (pair_of_fst
              (SnapshotClient.saveData SnapshotExamples.split
                 SnapshotExamples.snapshot (SnapshotExamples.initial 0))
              (Ok 6) _).
    vm_compute. reflexivity.
  - refine (pair_of_fst
              (SnapshotClient.saveData SnapshotExamples.single
                 SnapshotExamples.snapshot (SnapshotExamples.initial 0))
              (Ok 1) _).
    vm_compute. reflexivity.
Defined.

(** A dump in split mode of the two collections: six files, the file
    of the other tool gone, and the count only in the log. *)
Example dump_split_example :
  (SnapshotClient.dump SnapshotExamples.getClient
     SnapshotExamples.schemaSnapshot SnapshotExamples.split
     (SnapshotExamples.initial 0)).1 = Ok tt
  ∧ SnapshotClient.logs (SnapshotExamples.dumped 0)
    = ["Saved 6 files to /srv/dump"]
  ∧ SnapshotClient.fs (SnapshotExamples.dumped 0)
      !! ["srv"; "dump"; "notes.txt"] = None
  ∧ SnapshotClient.fs (SnapshotExamples.dumped 0)
      !! ["srv"; "dump"; "fields"; "users"; "role.json"]
    = Some (Fs.File (Schema.OfField (SnapshotExamples.field "users" "role"))).
Proof.
  repeat apply conj; vm_compute; reflexivity.
Qed.

(** The schema restore on that dump: no apply request when the
    instance has the two collections, one when it has none. *)
Example restore_schema_example :
  SnapshotClient.requests
    (SnapshotClient.restore SnapshotExamples.getClient
       SnapshotExamples.schemaDiff SnapshotExamples.schemaApply
       SnapshotExamples.split SnapshotExamples.unchecked (SnapshotExamples.dumped 2)).2
  = [SnapshotClient.SchemaSnapshot;
     SnapshotClient.SchemaDiff
       {| Schema.info := SnapshotExamples.info;
          Schema.collections := [SnapshotExamples.collection "roles";
                                 SnapshotExamples.collection "users"];
          Schema.fields := [SnapshotExamples.field "roles" "name";
                            SnapshotExamples.field "users" "role"];
          Schema.relations := [SnapshotExamples.relation "users" "role"] |}]
  ∧ SnapshotClient.requests
      (SnapshotClient.restore SnapshotExamples.getClient
         SnapshotExamples.schemaDiff SnapshotExamples.schemaApply
         SnapshotExamples.split SnapshotExamples.unchecked (SnapshotExamples.dumped 0)).2
    = [SnapshotClient.SchemaSnapshot;
       SnapshotClient.SchemaDiff
         {| Schema.info := SnapshotExamples.info;
            Schema.collections := [SnapshotExamples.collection "roles";
                                   SnapshotExamples.collection "users"];
            Schema.fields := [SnapshotExamples.field "roles" "name";
                              SnapshotExamples.field "users" "role"];
            Schema.relations := [SnapshotExamples.relation "users" "role"] |};
       SnapshotClient.SchemaApply 2].
Proof. repeat apply conj; vm_compute; reflexivity. Qed.

(** The restore of the split dump on an instance without collections:
    the diff is asked for and applied, and the instance has the two
    collections afterwards. *)
Lemma restore_applies_iff_diff_witness :
  (SnapshotClient.restore SnapshotExamples.getClient
     SnapshotExamples.schemaDiff SnapshotExamples.schemaApply
     SnapshotExamples.split SnapshotExamples.unchecked
     (SnapshotExamples.dumped 0)).1 = Ok tt
  ∧ SnapshotClient.remote
      (SnapshotClient.restore SnapshotExamples.getClient
         SnapshotExamples.schemaDiff SnapshotExamples.schemaApply
         SnapshotExamples.split SnapshotExamples.unchecked
         (SnapshotExamples.dumped 0)).2 = 2
  ∧ SnapshotClient.requests
      (SnapshotClient.restore SnapshotExamples.getClient
         SnapshotExamples.schemaDiff SnapshotExamples.schemaApply
         SnapshotExamples.split SnapshotExamples.unchecked
         (SnapshotExamples.dumped 0)).2
    = [SnapshotClient.SchemaSnapshot;
       SnapshotClient.SchemaDiff SnapshotExamples.by_path;
       SnapshotClient.SchemaApply 2]
  ∧ SnapshotClient.logs
      (SnapshotClient.restore SnapshotExamples.getClient
         SnapshotExamples.schemaDiff SnapshotExamples.schemaApply
         SnapshotExamples.split SnapshotExamples.unchecked
         (SnapshotExamples.dumped 0)).2
    = ["Saved 6 files to /srv/dump"; "Changes applied"].
Proof.
  pose proof (proj1 (proj2 (restore_applies_iff_diff SnapshotExamples.split
                              SnapshotExamples.unchecked
                              SnapshotExamples.getClient
                              SnapshotExamples.schemaDiff
                              SnapshotExamples.schemaApply
                              (SnapshotExamples.dumped 0)))
                2
                (SnapshotClient.diffSnapshot SnapshotExamples.getClient
                   SnapshotExamples.schemaDiff SnapshotExamples.split
                   SnapshotExamples.unchecked (SnapshotExamples.dumped 0)).2
                0) as Hrestore.
  rewrite Hrestore.
  - repeat apply conj; vm_compute; reflexivity.
  - refine (pair_of_fst
              (SnapshotClient.diffSnapshot SnapshotExamples.getClient
                 SnapshotExamples.schemaDiff SnapshotExamples.split
                 SnapshotExamples.unchecked (SnapshotExamples.dumped 0))
              (Ok (Some 2)) _).
    vm_compute. reflexivity.
  - vm_compute. reflexivity.
Defined.

(** C8, counterexample: [dump()] returns the same nothing when
    [saveData] wrote six files and when it wrote one. *)
Lemma dump_returns_nothing :
  (SnapshotClient.dump SnapshotExamples.getClient
     SnapshotExamples.schemaSnapshot SnapshotExamples.split
     (SnapshotExamples.initial 0)).1 = Ok tt
  ∧ (SnapshotClient.saveData SnapshotExamples.split SnapshotExamples.snapshot
       (SnapshotExamples.initial 0)).1 = Ok 6
  ∧ (SnapshotClient.dump SnapshotExamples.getClient
       SnapshotExamples.schemaSnapshot SnapshotExamples.single
       (SnapshotExamples.initial 0)).1 = Ok tt
  ∧ (SnapshotClient.saveData SnapshotExamples.single SnapshotExamples.snapshot
       (SnapshotExamples.initial 0)).1 = Ok 1.
Proof. repeat apply conj; vm_compute; reflexivity. Qed.

Lemma dump_file_count_witness :
  6 = 1 + 2 + 2 + 1
  ∧ ∀ p c, ["srv"; "dump"] `prefix_of` p →
      SnapshotClient.fs
        (SnapshotClient.saveData SnapshotExamples.split
           SnapshotExamples.snapshot (SnapshotExamples.initial 0)).2 !! p
        = Some (Fs.File c)
      ↔ SnapshotClient.files_of
          (SnapshotClient.written SnapshotExamples.split
             SnapshotExamples.snapshot) !! p = Some c.
Proof.
  apply (proj1 (proj2 (proj2 (dump_file_count SnapshotExamples.split
           SnapshotExamples.getClient SnapshotExamples.schemaSnapshot
           SnapshotExamples.snapshot (SnapshotExamples.initial 0))))
           6 (SnapshotClient.saveData SnapshotExamples.split
                SnapshotExamples.snapshot (SnapshotExamples.initial 0)).2).
  refine (pair_of_fst
            (SnapshotClient.saveData SnapshotExamples.split
               SnapshotExamples.snapshot (SnapshotExamples.initial 0))
            (Ok 6) _).
  vm_compute. reflexivity.
Defined.



(** ** Request validation *)

(** What [validateInput] does with every outcome of the parse: it
    returns what the schema parsed, and only that; a [ZodError] leaves
    as an HTTP error of status 400 whose message is one
    [[path] message] per issue, joined by [". "]; a value with a string
    for a message leaves as an HTTP error of status 400 with that
    message; [null] and [undefined] leave as a [TypeError]; what an
    accessor [message] throws leaves as it is; and for any other value
    [createError] decides. *)
Lemma validateInput_outcome {P T V : Type}
    (createError_other : V → Validation.failure) (params : P) (zodSchema : Validation.ZodSchema P T V) :
  (∀ value, Validation.validateInput createError_other params zodSchema
              = Ok value
            ↔ zodSchema params = Ok value)
  ∧ (∀ issues, zodSchema params = Throw (Validation.ZodError issues) →
       Validation.validateInput createError_other params zodSchema
       = Throw (Validation.HttpFailure
                  {| Validation.statusCode := 400;
                     Validation.http_message :=
                       Validation.join ". "
                         (map Validation.issue_line issues) |}))
  ∧ (∀ message, zodSchema params = Throw (Validation.WithMessage message) →
       Validation.validateInput createError_other params zodSchema
       = Throw (Validation.HttpFailure
                  {| Validation.statusCode := 400;
                     Validation.http_message := message |}))
  ∧ (zodSchema params = Throw Validation.Nullish →
       Validation.validateInput createError_other params zodSchema
       = Throw Validation.TypeErrorFailure)
  ∧ (∀ message, zodSchema params = Throw (Validation.WithOther message) →
       Validation.validateInput createError_other params zodSchema
       = Throw (createError_other message))
  ∧ (∀ raised, zodSchema params = Throw (Validation.Unreadable raised) →
       Validation.validateInput createError_other params zodSchema
       = Throw raised).
Proof.
  unfold Validation.validateInput.
  destruct (zodSchema params) as [value|[issues| |message|message|raised]];
    simpl.
  all: split; [intros; split; by intros [= ->]|].
  all: repeat split; by intros; simplify_eq.
Qed.

(** C10: a schema whose [parse] throws [null] (a refinement that
    throws it) makes [validateInput] read [error.message] on [null]:
    what leaves is the [TypeError] of that read, not an HTTP error of
    status 400, although the [catch] block is written to turn every
    failure of the parse into one. *)
Theorem validateInput_null_escapes :
  ValidationExamples.null_schema 0 = Throw Validation.Nullish
  ∧ Validation.validateInput ValidationExamples.refused 0
      ValidationExamples.null_schema
    = Throw Validation.TypeErrorFailure
  ∧ ¬ ∃ e, Validation.validateInput ValidationExamples.refused 0
             ValidationExamples.null_schema
           = Throw (Validation.HttpFailure e).
Proof.
  split; [reflexivity|]. split; [reflexivity|]. by intros [e [=]].
Qed.

Example validateInput_message :
  Validation.validateInput ValidationExamples.refused 200
    ValidationExamples.age_schema
  = Throw (Validation.HttpFailure
             {| Validation.statusCode := 400;
                Validation.http_message :=
                  "[user,ages,0] Number must be less than 150. [] Unrecognized key" |})
  ∧ Validation.validateInput ValidationExamples.refused 200
      ValidationExamples.broken_schema
    = Throw (Validation.HttpFailure
               {| Validation.statusCode := 400;
                  Validation.http_message := "refinement failed" |})
  ∧ Validation.validateInput ValidationExamples.refused 42
      ValidationExamples.age_schema = Ok 42.
Proof. repeat apply conj; vm_compute; reflexivity. Qed.

(** * Further properties of the code *)

(** ** The restore driver: what is logged and what is skipped *)

Section DriverCoverage.
Context {W E : Type}.
Implicit Types (cs : list (Collection W E)) (s : driver_state W E).

(** The lines of the loop: [index] goes up twice in every iteration. *)
Lemma restoreLoop_logged k fuel cs index s :
  k < fuel →
  (∀ j, j < k → retry_pass (nth_pass j cs (world s))) →
  ¬ retry_pass (nth_pass k cs (world s)) →
  logged (restoreLoop fuel cs false index s).2 =
    logged s ++ map (λ j, iteration_message (index + 2 * N.of_nat j))
                    (seq 0 (S k)).
Proof.
  revert fuel index s.
  induction k as [|k IH]; intros fuel index s Hfuel Hretry Hlast.
  all: destruct fuel as [|fuel]; [lia|]; rewrite restoreLoop_step; cbv zeta.
  - apply last_pass_cases in Hlast. unfold nth_pass in Hlast. simpl in Hlast.
    cbn [seq map]. replace (index + 2 * N.of_nat 0)%N with index by lia.
    destruct Hlast as [[e ->]|[-> ->]]; [done|]. by rewrite restoreLoop_stopped.
  - destruct (Hretry 0) as [Hnone Hsome]; [lia|].
    assert (retry_pass (nth_pass 0 cs (world s))) as Hr0 by done.
    apply retry_pass_forallb in Hr0 as [_ Hr0].
    unfold nth_pass in Hnone, Hr0. simpl in Hnone, Hr0.
    rewrite Hnone, Hr0, IH; cbn [world logged].
    + rewrite <- app_assoc. f_equal.
      change (seq 0 (S (S k))) with (0 :: seq 1 (S k)).
      rewrite <- fmap_S_seq. cbn [map app].
      replace (index + 2 * N.of_nat 0)%N with index by lia. f_equal.
      change (map ?f (S <$> ?l)) with (f <$> (S <$> l)).
      rewrite <- list_fmap_compose. apply list_fmap_ext.
      intros _ j _. simpl. f_equal. lia.
    + lia.
    + intros j Hj. rewrite <- nth_pass_S. apply Hretry. lia.
    + by rewrite <- nth_pass_S.
Qed.

(** X1: the iterations of a run are announced by the odd numbers. When
    the preparation goes through and the loop ends with its pass
    number [k] (counted from 0: the first pass in which a [restore()]
    throws or no collection asks for a retry), the lines logged are the
    two headers and then one line per pass, the pass number [j]
    reading [iteration 2j+1], since [index] is incremented in the
    message and again at the end of the iteration. *)
Theorem run_iteration_numbers (sr : action W E unit)
    (lc : list (Collection W E)) (fuel k : nat) (s s1 : driver_state W E)
    (cs : list (Collection W E)) :
  prepare sr lc s = (Ok cs, s1) →
  k < fuel →
  (∀ j, j < k → retry_pass (nth_pass j lc (world s1))) →
  ¬ retry_pass (nth_pass k lc (world s1)) →
  logged (run sr lc fuel s).2 =
    logged s ++ ["---- Restore schema ----"; "---- Clean up collections ----"]
    ++ map (λ j, iteration_message (2 * N.of_nat j + 1)) (seq 0 (S k)).
Proof.
  intros Hprep Hfuel Hretry Hlast. unfold run. rewrite Hprep.
  assert (cs = lc ∧ logged s1 = logged s ++ ["---- Restore schema ----";
                                              "---- Clean up collections ----"])
    as [-> Hlog].
  { rewrite prepare_results in Hprep.
    destruct (sr (world s)) as [[[]|?] ?]; [|done].
    cbv zeta in Hprep. destruct (cleanUp_results lc _).1.2; simplify_eq.
    cbn [logged]. by rewrite <- app_assoc. }
  rewrite (restoreLoop_logged k) by done. rewrite Hlog, <- app_assoc.
  do 2 f_equal. apply list_fmap_ext. intros _ j _. f_equal. lia.
Qed.

(** X2: when the schema restore or a [cleanUp()] throws, the promise of
    [run] is rejected with that error where the preparation stopped:
    the loop is not entered, no [restore()] is called on any
    collection, and the clean ups made are those of the collections
    before the one that failed. *)
Theorem failed_preparation_skips_restore (sr : action W E unit)
    (lc : list (Collection W E)) (fuel : nat) (s : driver_state W E) (e : E) :
  (prepare sr lc s).1 = Throw e →
  run sr lc fuel s = (Rejected e, (prepare sr lc s).2)
  ∧ ∃ tr, calls (run sr lc fuel s).2 = calls s ++ tr
      ∧ (∀ i r, RestoreCall i r ∉ tr)
      ∧ ∃ j, j ≤ length lc
          ∧ map callee tr = take j (cleanUp_order (length lc)).
Proof.
  intros Hprep.
  destruct (run_calls_shape sr lc fuel s) as (tr & Hcalls & Hshape).
  rewrite Hprep in Hshape. destruct Hshape as (Hrej & j & Hj & Htr).
  split.
  { unfold run in *. destruct (prepare sr lc s) as [[?|?] ?]; by simplify_eq/=. }
  exists tr. split; [done|]. split; [|by exists j].
  intros i r Hin. apply (list_elem_of_fmap_2 callee) in Hin.
  change (callee <$> tr) with (map callee tr) in Hin. rewrite Htr in Hin.
  apply elem_of_take in Hin as (n & Hn & _).
  unfold cleanUp_order in Hn. apply list_lookup_fmap_Some in Hn as (? & [=] & _).
Qed.

(** X3: the chain of the script swallows the errors of [initContext]
    and [run]. When [logErrorAndStop], [disposeContext] and
    [logEndAndClose] return, the promise of the whole chain is never
    rejected: it is fulfilled, unless [run] was started and has not
    settled. *)
Theorem main_never_rejects (sr : action W E unit)
    (lc : list (Collection W E)) (init : action W E unit)
    (handler : E → action W E unit) (dispose close : action W E unit)
    (fuel : nat) (s : driver_state W E) :
  (∀ e w, (handler e w).1 = Ok tt) →
  (∀ w, (dispose w).1 = Ok tt) →
  (∀ w, (close w).1 = Ok tt) →
  ((main sr lc init handler dispose close fuel s).1 = Pending ↔
     (init (world s)).1 = Ok tt
     ∧ (run sr lc fuel (await_silent init s).2).1 = Pending)
  ∧ ((main sr lc init handler dispose close fuel s).1 ≠ Pending →
     (main sr lc init handler dispose close fuel s).1 = Fulfilled).
Proof.
  intros Hhandler Hdispose Hclose.
  assert (Hthen : ∀ (p : promise E * driver_state W E) (m : action W E unit),
             (∀ w, (m w).1 = Ok tt) →
             (then_ p (settle (await_silent m))).1 = p.1).
  { intros [[|?|] s'] m Hm; simpl; [|done..].
    unfold settle, await_silent. specialize (Hm (world s')).
    destruct (m (world s')) as [[[]|?] ?]; simplify_eq/=. done. }
  assert (Hcatch : ∀ e s', (settle (record_call (LogErrorAndStopCall e) ;;
                                    await_silent (handler e)) s').1 = Fulfilled).
  { intros e s'. unfold settle, mbind, action_bind, record_call, await_silent.
    cbn [world]. specialize (Hhandler e (world s')).
    destruct (handler e (world s')) as [[[]|?] ?]; simplify_eq/=. done. }
  assert (Hmain : (main sr lc init handler dispose close fuel s).1 =
            match await_silent init s with
            | (Ok _, s0) =>
                match (run sr lc fuel s0).1 with
                | Pending => Pending
                | _ => Fulfilled
                end
            | (Throw _, _) => Fulfilled
            end).
  { unfold main. rewrite !Hthen by done.
    assert (settle (await_silent init) s =
              match await_silent init s with
              | (Ok _, s0) => (Fulfilled, s0)
              | (Throw e0, s0) => (Rejected e0, s0)
              end) as -> by done.
    destruct (await_silent init s) as [[[]|e0] s0]; cbn [then_ catch_].
    - destruct (run sr lc fuel s0) as [[|e|] s']; cbn [catch_ fst]; auto.
    - auto. }
  rewrite Hmain. unfold await_silent.
  destruct (init (world s)) as [[[]|e0] w0]; cbn [fst snd].
  - destruct (run sr lc fuel _) as [[|e|] s']; cbn [fst].
    + split; [split; [done|by intros [_ [=]]]|done].
    + split; [split; [done|by intros [_ [=]]]|done].
    + split; [done|done].
  - split; [split; [done|by intros [[=] _]]|done].
Qed.

(** X4: when [initContext] rejects, [run] is not started: the one call
    recorded is the top-level handler, on the error of [initContext],
    and nothing is logged by the driver, not even the header of the
    schema restore. *)
Theorem failed_init_skips_run (sr : action W E unit)
    (lc : list (Collection W E)) (init : action W E unit)
    (handler : E → action W E unit) (dispose close : action W E unit)
    (fuel : nat) (s : driver_state W E) (e : E) :
  (init (world s)).1 = Throw e →
  calls (main sr lc init handler dispose close fuel s).2
    = calls s ++ [LogErrorAndStopCall e]
  ∧ logged (main sr lc init handler dispose close fuel s).2 = logged s.
Proof.
  intros Hinit. split.
  { rewrite main_calls. unfold await_silent.
    destruct (init (world s)) as [[[]|?] ?]; by simplify_eq/=. }
  assert (Hthen : ∀ (p : promise E * driver_state W E) (m : action W E unit),
             logged (then_ p (settle (await_silent m))).2 = logged p.2).
  { intros [[|?|] s'] m; simpl; [|done..].
    unfold settle, await_silent. by destruct (m (world s')) as [[[]|?] ?]. }
  unfold main. rewrite !Hthen.
  unfold settle at 1. unfold await_silent at 1.
  destruct (init (world s)) as [[[]|e0] w0]; simplify_eq/=.
  unfold settle, mbind, action_bind, record_call, await_silent. cbn [world].
  by destruct (handler e w0) as [[[]|?] ?].
Qed.

End DriverCoverage.

Lemma run_iteration_numbers_witness :
  logged (run DriverExamples.noop [DriverExamples.late] 5
              DriverExamples.fresh).2 =
    ["---- Restore schema ----"; "---- Clean up collections ----";
     "---- Restore: iteration 1 ----"; "---- Restore: iteration 3 ----";
     "---- Restore: iteration 5 ----"].
Proof.
  apply (run_iteration_numbers DriverExamples.noop [DriverExamples.late] 5 2
           DriverExamples.fresh
           {| world := 0;
              calls := [CleanUpCall 0 (Ok tt)];
              logged := ["---- Restore schema ----";
                         "---- Clean up collections ----"] |}
           [DriverExamples.late]).
  - reflexivity.
  - lia.
  - intros [|[|j]] Hj; [| |lia]; (split; [reflexivity|by left]).
  - intros [_ Hretry]. by apply list_elem_of_singleton in Hretry.
Defined.

Lemma failed_preparation_skips_restore_witness :
  run DriverExamples.noop
      [DriverExamples.steady; DriverExamples.dangling; DriverExamples.steady]
      4 DriverExamples.fresh =
    (Rejected "ECONNREFUSED",
     {| world := 0;
        calls := [CleanUpCall 0 (Ok tt);
                  CleanUpCall 1 (Throw "ECONNREFUSED")];
        logged := ["---- Restore schema ----";
                   "---- Clean up collections ----"] |}).
Proof.
  refine (proj1 (failed_preparation_skips_restore DriverExamples.noop
                   [DriverExamples.steady; DriverExamples.dangling;
                    DriverExamples.steady]
                   4 DriverExamples.fresh "ECONNREFUSED" _)).
  reflexivity.
Defined.

Lemma main_never_rejects_witness :
  (main DriverExamples.noop [DriverExamples.faulty] DriverExamples.noop
        DriverExamples.acknowledged DriverExamples.noop DriverExamples.noop
        3 DriverExamples.fresh).1 = Fulfilled.
Proof.
  refine (proj2 (main_never_rejects DriverExamples.noop
                   [DriverExamples.faulty] DriverExamples.noop
                   DriverExamples.acknowledged DriverExamples.noop
                   DriverExamples.noop 3 DriverExamples.fresh _ _ _) _).
  - intros e w. reflexivity.
  - intros w. reflexivity.
  - intros w. reflexivity.
  - discriminate.
Defined.

Lemma failed_init_skips_run_witness :
  calls (main DriverExamples.noop [DriverExamples.steady]
              DriverExamples.unreachable DriverExamples.acknowledged
              DriverExamples.noop DriverExamples.noop 3
              DriverExamples.fresh).2
    = [LogErrorAndStopCall "ECONNREFUSED"]
  ∧ logged (main DriverExamples.noop [DriverExamples.steady]
                 DriverExamples.unreachable DriverExamples.acknowledged
                 DriverExamples.noop DriverExamples.noop 3
                 DriverExamples.fresh).2
    = [].
Proof.
  refine (failed_init_skips_run DriverExamples.noop [DriverExamples.steady]
            DriverExamples.unreachable DriverExamples.acknowledged
            DriverExamples.noop DriverExamples.noop 3 DriverExamples.fresh
            "ECONNREFUSED" _).
  reflexivity.
Defined.

(** ** The snapshot client: what a dump and a plan leave alone *)

Lemma files_below_lookup (dir : Fs.path) (fs : gmap Fs.path Fs.node)
    (p : Fs.path) (c : Schema.document) :
  Fs.files_below dir fs !! p = Some c ↔
  fs !! p = Some (Fs.File c) ∧ dir `prefix_of` p.
Proof.
  unfold Fs.files_below. rewrite lookup_omap_Some. split.
  - intros ([c'|] & [= ->] & (? & ?)%map_lookup_filter_Some). done.
  - intros (? & ?). exists (Fs.File c). split; [done|].
    by apply map_lookup_filter_Some.
Qed.

Lemma files_of_size (ws : list (Fs.path * Schema.document)) :
  size (SnapshotClient.files_of ws) ≤ length ws.
Proof.
  induction ws as [|w ws IH] using rev_ind; [done|].
  rewrite files_of_snoc, length_app, map_size_insert. simpl.
  destruct (_ !! _); simpl; lia.
Qed.

Section DumpCoverage.
Context {R Diff : Type}.
Variable config : SnapshotClient.SnapshotConfig.
Variable unchecked : SnapshotClient.Unchecked.

#[local] Abbreviation state := (SnapshotClient.state R Diff).
#[local] Abbreviation dumpPath := (SnapshotClient.dumpPath config).
#[local] Abbreviation loadData :=
  (SnapshotClient.loadData (R:=R) (Diff:=Diff) config unchecked).
#[local] Abbreviation saveData :=
  (SnapshotClient.saveData (R:=R) (Diff:=Diff) config).
#[local] Abbreviation write_files :=
  (SnapshotClient.write_files (R:=R) (Diff:=Diff) config).

(** The paths [saveData] writes to are below the dump directory and
    differ from one another, in split mode for a snapshot with plain
    and distinct names. *)
Lemma written_below (data : Schema.Snapshot) :
  (SnapshotClient.splitFiles config = true → SnapshotClient.well_named data) →
  Forall (λ w, dumpPath `prefix_of` w.1) (SnapshotClient.written config data)
  ∧ NoDup (SnapshotClient.written config data).*1.
Proof.
  destruct config as [D [|]]; cbn [SnapshotClient.splitFiles
    SnapshotClient.dumpPath]; intros Hnamed.
  - specialize (Hnamed eq_refl). split; [|by apply written_split_NoDup].
    rewrite written_split by done.
    constructor; [by apply prefix_app_r|].
    rewrite !Forall_app, !Forall_fmap. repeat split.
    all: apply Forall_forall; intros x _; by apply prefix_app_r.
  - unfold SnapshotClient.written. cbn [SnapshotClient.splitFiles
      SnapshotClient.dumpPath].
    rewrite (path_join_name D _ snapshot_json_plain). split.
    + constructor; [by apply prefix_app_r|constructor].
    + apply NoDup_singleton.
Qed.

(** A call of [fs-extra] that throws leaves the state as it was, and
    any call leaves the instance, the requests and the log alone. *)
Lemma on_fs_throw f (e : Fs.error) (s s' : state) :
  SnapshotClient.on_fs f s = (Throw e, s') → s' = s.
Proof.
  unfold SnapshotClient.on_fs. destruct (f (SnapshotClient.fs s)); [done|].
  by intros [= _ <-].
Qed.

Lemma on_fs_frame f (s : state) :
  SnapshotClient.remote (SnapshotClient.on_fs f s).2 = SnapshotClient.remote s
  ∧ SnapshotClient.requests (SnapshotClient.on_fs f s).2
      = SnapshotClient.requests s
  ∧ SnapshotClient.logs (SnapshotClient.on_fs f s).2 = SnapshotClient.logs s.
Proof. unfold SnapshotClient.on_fs. by destruct (f (SnapshotClient.fs s)). Qed.

Lemma write_files_frame files (s : state) :
  SnapshotClient.remote (write_files files s).2 = SnapshotClient.remote s
  ∧ SnapshotClient.requests (write_files files s).2 = SnapshotClient.requests s
  ∧ SnapshotClient.logs (write_files files s).2 = SnapshotClient.logs s.
Proof.
  revert s. induction files as [|file files IH]; intros s; simpl; [done|].
  unfold mbind, action_bind.
  destruct (on_fs_frame (Fs.mkdirpSync (Fs.path_dirname
              (Fs.path_join dumpPath (SnapshotClient.path file)))) s)
    as (Hr1 & Hq1 & Hl1).
  destruct (SnapshotClient.on_fs (Fs.mkdirpSync _) s) as [[[]|?] s1];
    cbn [snd] in *; [|done].
  destruct (on_fs_frame (Fs.writeJsonSync
              (Fs.path_join dumpPath (SnapshotClient.path file))
              (SnapshotClient.content file)) s1) as (Hr2 & Hq2 & Hl2).
  destruct (SnapshotClient.on_fs (Fs.writeJsonSync _ _) s1) as [[[]|?] s2];
    cbn [snd] in *; [|by rewrite Hr2, Hq2, Hl2].
  destruct (IH s2) as (-> & -> & ->). by rewrite Hr2, Hq2, Hl2.
Qed.

Lemma saveData_frame data (s : state) :
  SnapshotClient.remote (saveData data s).2 = SnapshotClient.remote s
  ∧ SnapshotClient.requests (saveData data s).2 = SnapshotClient.requests s
  ∧ SnapshotClient.logs (saveData data s).2 = SnapshotClient.logs s.
Proof.
  unfold SnapshotClient.saveData, mbind, action_bind.
  cbn [SnapshotClient.on_fs].
  match goal with |- context [SnapshotClient.on_fs ?f ?s1] =>
    destruct (on_fs_frame f s1) as (Hr1 & Hq1 & Hl1);
    destruct (SnapshotClient.on_fs f s1) as [[[]|?] s2] end;
    cbn [snd SnapshotClient.remote SnapshotClient.requests
         SnapshotClient.logs] in *; [|done].
  destruct (SnapshotClient.splitFiles config).
  - match goal with |- context [write_files ?files ?s1] =>
      destruct (write_files_frame files s1) as (Hr2 & Hq2 & Hl2);
      destruct (write_files files s1) as [[[]|?] s3] end;
      unfold mret, action_ret; cbn [snd] in *;
      repeat split; congruence.
  - match goal with |- context [SnapshotClient.on_fs ?f ?s1] =>
      destruct (on_fs_frame f s1) as (Hr2 & Hq2 & Hl2);
      destruct (SnapshotClient.on_fs f s1) as [[[]|?] s3] end;
      unfold mret, action_ret; cbn [snd] in *;
      repeat split; congruence.
Qed.

(** The loop of [saveData] changes no file other than those it is
    given to write. *)
Lemma write_files_outside files r (s s' : state) :
  write_files files s = (r, s') →
  Forall (λ file, dumpPath `prefix_of`
                    Fs.path_join dumpPath (SnapshotClient.path file)) files →
  ∀ p c, ¬ dumpPath `prefix_of` p →
    SnapshotClient.fs s' !! p = Some (Fs.File c)
    ↔ SnapshotClient.fs s !! p = Some (Fs.File c).
Proof.
  revert s. induction files as [|file files IH]; intros s; simpl.
  { by intros [= <- <-]. }
  unfold mbind, action_bind.
  destruct (SnapshotClient.on_fs (Fs.mkdirpSync _) s) as [[[]|?] s1] eqn:H1.
  2:{ apply on_fs_throw in H1 as ->. by intros [= <- <-]. }
  apply on_fs_ok in H1 as (fs1 & Hmk & ->).
  apply mkdirpSync_spec in Hmk as (Hfile1 & _ & _).
  match goal with |- context [SnapshotClient.on_fs ?f ?s1] =>
    destruct (SnapshotClient.on_fs f s1) as [[[]|?] s2] eqn:H2 end.
  2:{ apply on_fs_throw in H2 as ->. intros [= <- <-] _ p c _.
      cbn [SnapshotClient.fs]. apply Hfile1. }
  apply on_fs_ok in H2 as (fs2 & Hwr & ->). cbn [SnapshotClient.fs] in Hwr.
  apply writeJsonSync_spec in Hwr as (Hne & -> & Hnodir).
  intros Hrun [Hbelow Hrest]%Forall_cons p c Hp.
  rewrite (IH _ Hrun Hrest p c Hp). cbn [SnapshotClient.fs].
  rewrite lookup_insert_ne; [apply Hfile1|]. by intros <-.
Qed.

Lemma saveData_outside data r (s s' : state) :
  saveData data s = (r, s') →
  (SnapshotClient.splitFiles config = true → SnapshotClient.well_named data) →
  ∀ p c, ¬ dumpPath `prefix_of` p →
    SnapshotClient.fs s' !! p = Some (Fs.File c)
    ↔ SnapshotClient.fs s !! p = Some (Fs.File c).
Proof.
  intros Hsave Hnamed.
  destruct (written_below data Hnamed) as [Hbelow _].
  revert Hsave Hbelow.
  unfold SnapshotClient.saveData, SnapshotClient.written, mbind, action_bind.
  cbn [SnapshotClient.on_fs].
  match goal with |- context [SnapshotClient.on_fs ?f ?s1] =>
    destruct (SnapshotClient.on_fs f s1) as [[[]|?] s2] eqn:H2 end.
  2:{ apply on_fs_throw in H2 as ->. intros [= <- <-] _ p c Hp.
      cbn [SnapshotClient.fs]. by rewrite removeSync_elsewhere. }
  apply on_fs_ok in H2 as (fs2 & Hmk & ->). cbn [SnapshotClient.fs] in Hmk.
  apply mkdirpSync_spec in Hmk as (Hfile & _ & _).
  destruct (SnapshotClient.splitFiles config).
  - match goal with |- context [write_files ?files ?s1] =>
      destruct (write_files files s1) as [[[]|?] s3] eqn:H3 end.
    all: intros [= <- <-] Hbelow p c Hp.
    all: rewrite (write_files_outside _ _ _ _ H3) by
           (by rewrite ?Forall_fmap in Hbelow).
    all: cbn [SnapshotClient.fs]; by rewrite Hfile, removeSync_elsewhere.
  - match goal with |- context [SnapshotClient.on_fs ?f ?s1] =>
      destruct (SnapshotClient.on_fs f s1) as [[[]|?] s3] eqn:H3 end.
    2:{ apply on_fs_throw in H3 as ->. intros [= <- <-] _ p c Hp.
        cbn [SnapshotClient.fs]. by rewrite Hfile, removeSync_elsewhere. }
    apply on_fs_ok in H3 as (fs3 & Hwr & ->). cbn [SnapshotClient.fs] in Hwr.
    apply writeJsonSync_spec in Hwr as (Hne & -> & Hnodir).
    intros [= <- <-] [Hbelow _]%Forall_cons p c Hp. cbn [SnapshotClient.fs].
    rewrite lookup_insert_ne; [by rewrite Hfile, removeSync_elsewhere|].
    by intros <-.
Qed.

(** Every path the loop of [saveData] was given is a file once the
    loop has returned. *)
Lemma write_files_written files file (s s' : state) :
  write_files files s = (Ok tt, s') →
  file ∈ files →
  ∃ c, SnapshotClient.fs s'
         !! Fs.path_join dumpPath (SnapshotClient.path file)
       = Some (Fs.File c).
Proof.
  assert (Hkeep : ∀ files (s s' : state) p c,
            write_files files s = (Ok tt, s') →
            SnapshotClient.fs s !! p = Some (Fs.File c) →
            ∃ c', SnapshotClient.fs s' !! p = Some (Fs.File c')).
  { clear. intros files. induction files as [|file files IH];
      intros s s' p c; simpl.
    { intros [= <-]. eauto. }
    unfold mbind, action_bind.
    destruct (SnapshotClient.on_fs (Fs.mkdirpSync _) s) as [[[]|?] s1] eqn:H1;
      [|done].
    apply on_fs_ok in H1 as (fs1 & Hmk & ->).
    apply mkdirpSync_spec in Hmk as (Hfile1 & _ & _).
    match goal with |- context [SnapshotClient.on_fs ?f ?s1] =>
      destruct (SnapshotClient.on_fs f s1) as [[[]|?] s2] eqn:H2; [|done] end.
    apply on_fs_ok in H2 as (fs2 & Hwr & ->). cbn [SnapshotClient.fs] in Hwr.
    apply writeJsonSync_spec in Hwr as (Hne & -> & Hnodir).
    intros Hrun Hp.
    destruct (decide (Fs.path_join dumpPath (SnapshotClient.path file) = p))
      as [<-|Hnp].
    - eapply IH; [done|]. cbn [SnapshotClient.fs]. by rewrite lookup_insert_eq.
    - eapply IH; [done|]. cbn [SnapshotClient.fs].
      rewrite lookup_insert_ne by done. by apply Hfile1. }
  revert s. induction files as [|file' files IH]; intros s; simpl.
  { by intros _ ?%elem_of_nil. }
  unfold mbind, action_bind.
  destruct (SnapshotClient.on_fs (Fs.mkdirpSync _) s) as [[[]|?] s1] eqn:H1;
    [|done].
  apply on_fs_ok in H1 as (fs1 & Hmk & ->).
  match goal with |- context [SnapshotClient.on_fs ?f ?s1] =>
    destruct (SnapshotClient.on_fs f s1) as [[[]|?] s2] eqn:H2; [|done] end.
  apply on_fs_ok in H2 as (fs2 & Hwr & ->). cbn [SnapshotClient.fs] in Hwr.
  apply writeJsonSync_spec in Hwr as (Hne & -> & Hnodir).
  intros Hrun [->|Hin]%elem_of_cons; [|by eapply IH].
  eapply Hkeep; [done|]. cbn [SnapshotClient.fs]. by rewrite lookup_insert_eq.
Qed.

(** X5: the number [saveData] returns (and [dump()] logs) is the number
    of entries it wrote, not of files it left: the files at and below
    the dump directory are at most that many, and exactly that many in
    single-file mode and, in split mode, when the names of the snapshot
    are plain and tell its collections, fields and relations apart;
    two entries of the same path leave one file. *)
Theorem saved_count_bounds_files (data : Schema.Snapshot) (n : nat)
    (s s' : state) :
  saveData data s = (Ok n, s') →
  size (Fs.files_below dumpPath (SnapshotClient.fs s')) ≤ n
  ∧ ((SnapshotClient.splitFiles config = true → SnapshotClient.well_named data) →
     size (Fs.files_below dumpPath (SnapshotClient.fs s')) = n).
Proof.
  intros Hsave.
  destruct (saveData_files _ _ _ _ _ Hsave) as (-> & Hfiles & _).
  assert (Fs.files_below dumpPath (SnapshotClient.fs s')
          ⊆ SnapshotClient.files_of (SnapshotClient.written config data))
    as Hsub.
  { apply map_subseteq_spec. intros p c [Hp Hbelow]%files_below_lookup.
    by apply Hfiles. }
  split.
  { etrans; [by apply map_subseteq_size|apply files_of_size]. }
  intros Hnamed. destruct (written_below data Hnamed) as [Hbelow Hnodup].
  apply Nat.le_antisymm.
  { etrans; [by apply map_subseteq_size|apply files_of_size]. }
  rewrite <- (map_size_list_to_map (M:=gmap Fs.path)
                (SnapshotClient.written config data)) by done.
  rewrite <- files_of_list_to_map by done.
  apply map_subseteq_size, map_subseteq_spec. intros p c Hp.
  apply files_below_lookup.
  assert (dumpPath `prefix_of` p) as Hprefix.
  { apply files_of_written in Hp. rewrite Forall_forall in Hbelow.
    by apply Hbelow in Hp. }
  split; [by apply Hfiles|done].
Qed.

Section Instance.
Variable getClient : action R Fs.error unit.
Variable schemaSnapshot : action R Fs.error Schema.Snapshot.
Variable schemaDiff : Schema.Snapshot → action R Fs.error (option Diff).
Variable schemaApply : Diff → action R Fs.error unit.
Variable changes : Diff → Schema.Diff.t.

#[local] Abbreviation diffSnapshot :=
  (SnapshotClient.diffSnapshot getClient schemaDiff config unchecked).
#[local] Abbreviation restoreSchema :=
  (SnapshotClient.restore getClient schemaDiff schemaApply config unchecked).
#[local] Abbreviation plan :=
  (SnapshotClient.plan getClient schemaDiff config unchecked changes).
#[local] Abbreviation getSnapshot :=
  (SnapshotClient.getSnapshot getClient schemaSnapshot).
#[local] Abbreviation dump :=
  (SnapshotClient.dump getClient schemaSnapshot config).

(** [diffSnapshot] logs nothing. *)
Lemma diffSnapshot_logs (s : state) :
  SnapshotClient.logs (diffSnapshot s).2 = SnapshotClient.logs s.
Proof.
  unfold SnapshotClient.diffSnapshot, mbind, action_bind,
    SnapshotClient.on_remote, SnapshotClient.sent.
  destruct (getClient (SnapshotClient.remote s)) as [[[]|e] r1]; simpl; [|done].
  match goal with |- context [loadData ?s1] =>
    pose proof (loadData_reads config unchecked s1) as Hread;
    destruct (loadData s1) as [[snapshot|e] s2] end; simpl in *; subst s2;
    [|done].
  simpl. by destruct (schemaDiff snapshot r1) as [[diff|e] r2].
Qed.

(** [getSnapshot] leaves the files and the log as they are, and sends
    its one request when the client is handed out. *)
Lemma getSnapshot_frame (s : state) :
  SnapshotClient.fs (getSnapshot s).2 = SnapshotClient.fs s
  ∧ SnapshotClient.logs (getSnapshot s).2 = SnapshotClient.logs s
  ∧ SnapshotClient.requests (getSnapshot s).2
      = SnapshotClient.requests s
        ++ match (getClient (SnapshotClient.remote s)).1 with
           | Ok _ => [SnapshotClient.SchemaSnapshot]
           | Throw _ => []
           end.
Proof.
  unfold SnapshotClient.getSnapshot, mbind, action_bind,
    SnapshotClient.on_remote, SnapshotClient.sent.
  destruct (getClient (SnapshotClient.remote s)) as [[[]|?] ?]; simpl.
  - by destruct (schemaSnapshot _) as [[?|?] ?].
  - by rewrite app_nil_r.
Qed.

(** X6: [plan()] is a dry run. It leaves the file system as it was,
    the remote instance as [diffSnapshot()] left it, and sends no apply
    request whatever the diff; it returns when [diffSnapshot()] returns
    and throws what it throws; and when there is nothing to apply it
    does exactly what [restore()] does. *)
Theorem plan_is_dry_run (s : state) :
  SnapshotClient.fs (plan s).2 = SnapshotClient.fs s
  ∧ SnapshotClient.remote (plan s).2 = SnapshotClient.remote (diffSnapshot s).2
  ∧ (∃ sent, SnapshotClient.requests (plan s).2
               = SnapshotClient.requests s ++ sent
             ∧ ∀ d, SnapshotClient.SchemaApply d ∉ sent)
  ∧ (plan s).1 = match (diffSnapshot s).1 with
                 | Ok _ => Ok tt
                 | Throw e => Throw e
                 end
  ∧ ((diffSnapshot s).1 = Ok None → plan s = restoreSchema s).
Proof.
  destruct (diffSnapshot_requests config unchecked getClient schemaDiff s)
    as (Hfs & sent & Hsent & Hnone).
  unfold SnapshotClient.plan, SnapshotClient.restore, mbind, action_bind.
  destruct (diffSnapshot s) as [[[d|]|e] s1]; cbn [fst snd] in *.
  - unfold SnapshotClient.logger. cbn [fst snd SnapshotClient.fs
      SnapshotClient.remote SnapshotClient.requests].
    split; [done|]. split; [done|]. split; [by exists sent|]. done.
  - unfold SnapshotClient.logger. cbn [fst snd SnapshotClient.fs
      SnapshotClient.remote SnapshotClient.requests].
    split; [done|]. split; [done|]. split; [by exists sent|]. done.
  - split; [done|]. split; [done|]. split; [by exists sent|]. done.
Qed.

(** X7: when the snapshot cannot be fetched, [dump()] throws the error
    of the fetch before it touches the dump: the file system, the
    earlier dump with it, and the log are as they were. *)
Theorem dump_failed_fetch_keeps_files (s s1 : state) (e : Fs.error) :
  getSnapshot s = (Throw e, s1) →
  dump s = (Throw e, s1)
  ∧ SnapshotClient.fs s1 = SnapshotClient.fs s
  ∧ SnapshotClient.logs s1 = SnapshotClient.logs s.
Proof.
  intros Hget. destruct (getSnapshot_frame s) as (Hfs & Hlogs & _).
  unfold SnapshotClient.dump, mbind, action_bind. rewrite Hget in *. done.
Qed.


(** X9: a dump in single-file mode and the load of the restore are a
    round trip: after [dump()] has returned, [loadData()] returns the
    snapshot that was fetched, whatever its names, and the diff that
    [diffSnapshot()] asks the instance for is the diff of that
    snapshot. *)
Theorem dump_then_diff_single (s s' : state) :
  SnapshotClient.splitFiles config = false →
  dump s = (Ok tt, s') →
  ∃ data,
    (getSnapshot s).1 = Ok data
    ∧ loadData s' = (Ok data, s')
    ∧ ((getClient (SnapshotClient.remote s')).1 = Ok tt →
       SnapshotClient.requests (diffSnapshot s').2
         = SnapshotClient.requests s' ++ [SnapshotClient.SchemaDiff data]).
Proof.
  intros Hsingle Hdump.
  destruct (dump_ok _ _ _ _ _ Hdump)
    as (data & s1 & n & s2 & Hget & _ & Hsave & Hfs & _).
  exists data. rewrite Hget. split; [done|].
  destruct (saveData_files _ _ _ _ _ Hsave) as (_ & Hfiles & _).
  assert (∀ s3 : state, SnapshotClient.fs s3 = SnapshotClient.fs s' →
            loadData s3 = (Ok data, s3)) as Hload.
  { intros s3 Hs3. unfold SnapshotClient.loadData. rewrite Hsingle.
    unfold SnapshotClient.read_as, SnapshotClient.read_fs, Fs.readJsonSync.
    unfold SnapshotClient.written in Hfiles. rewrite Hsingle in Hfiles.
    rewrite (path_join_name _ _ snapshot_json_plain) in *.
    unfold SnapshotClient.SNAPSHOT_JSON in *.
    rewrite lookup_node_below, Hs3, Hfs.
    assert (SnapshotClient.fs s2 !! (dumpPath ++ ["snapshot.json"])
            = Some (Fs.File (Schema.Whole data))) as ->.
    { apply Hfiles; [by apply prefix_app_r|].
      change [?w] with ([] ++ [w]). rewrite files_of_snoc. simpl.
      by rewrite lookup_insert_eq. }
    done. }
  split; [by apply Hload|]. intros Hclient.
  unfold SnapshotClient.diffSnapshot, mbind, action_bind,
    SnapshotClient.on_remote.
  destruct (getClient (SnapshotClient.remote s')) as [[[]|e] r1];
    cbn [fst] in Hclient; [|done].
  rewrite Hload by done. unfold SnapshotClient.sent.
  cbn [SnapshotClient.requests SnapshotClient.remote SnapshotClient.fs
       SnapshotClient.logs].
  by destruct (schemaDiff data r1) as [[?|?] ?].
Qed.

(** X10: [dump()] keeps to the dump directory. In single-file mode,
    and in split mode when the names of the fetched snapshot are plain
    and distinct, the files that are not at or below the dump directory
    are after the dump what they were before it, whether it returns or
    throws: none is created, changed or removed. *)
Theorem dump_keeps_outside_files (s : state) :
  (∀ data, (getSnapshot s).1 = Ok data →
           SnapshotClient.splitFiles config = true →
           SnapshotClient.well_named data) →
  ∀ p c, ¬ dumpPath `prefix_of` p →
    SnapshotClient.fs (dump s).2 !! p = Some (Fs.File c)
    ↔ SnapshotClient.fs s !! p = Some (Fs.File c).
Proof.
  intros Hnamed p c Hp.
  destruct (getSnapshot_frame s) as (Hget & _ & _).
  unfold SnapshotClient.dump, mbind, action_bind.
  destruct (getSnapshot s) as [[data|e] s1]; cbn [fst snd] in *;
    [|by rewrite Hget].
  destruct (saveData data s1) as [[n|e] s2] eqn:Hsave; cbn [snd].
  all: unfold SnapshotClient.logger; cbn [snd SnapshotClient.fs].
  all: rewrite (saveData_outside _ _ _ _ Hsave) by auto; by rewrite Hget.
Qed.

(** X11: [dump()] only reads the instance. The one request it sends is
    the snapshot request of [getSnapshot()], when the client is handed
    out; saving sends nothing and leaves the instance as the fetch left
    it; and [dump()] returns exactly when the fetch and [saveData]
    both return. *)
Theorem dump_only_asks_for_snapshot (s : state) :
  SnapshotClient.remote (dump s).2 = SnapshotClient.remote (getSnapshot s).2
  ∧ SnapshotClient.requests (dump s).2
      = SnapshotClient.requests s
        ++ match (getClient (SnapshotClient.remote s)).1 with
           | Ok _ => [SnapshotClient.SchemaSnapshot]
           | Throw _ => []
           end
  ∧ ((dump s).1 = Ok tt ↔
       ∃ data, (getSnapshot s).1 = Ok data
               ∧ ∃ n, (saveData data (getSnapshot s).2).1 = Ok n).
Proof.
  destruct (getSnapshot_frame s) as (_ & _ & Hget).
  unfold SnapshotClient.dump, mbind, action_bind.
  destruct (getSnapshot s) as [[data|e] s1]; cbn [fst snd] in *.
  2:{ split; [done|]. split; [done|]. split; [done|]. by intros (? & [=] & _). }
  destruct (saveData_frame data s1) as (Hr & Hq & Hl).
  destruct (saveData data s1) as [[n|e] s2] eqn:Hsave; cbn [fst snd] in *.
  - unfold SnapshotClient.logger. cbn [fst snd SnapshotClient.remote
      SnapshotClient.requests].
    split; [done|]. split; [by rewrite Hq|]. split; [|done].
    intros _. exists data. split; [done|]. exists n. by rewrite Hsave.
  - split; [done|]. split; [by rewrite Hq|].
    split; [done|]. intros (? & [= <-] & ? & Hok). by rewrite Hsave in Hok.
Qed.

(** X12: the log of [restore()] says what happened. It gains one line
    or none: [Changes applied] exactly when there was a diff and the
    call returned, so after the apply request went through;
    [No changes to apply] exactly when the diff was undefined; and no
    line exactly when [restore()] throws. *)
Theorem restore_log_truthful (s : state) :
  ∃ lines,
    SnapshotClient.logs (restoreSchema s).2 = SnapshotClient.logs s ++ lines
    ∧ (lines = ["Changes applied"] ↔
         (restoreSchema s).1 = Ok tt ∧ ∃ d, (diffSnapshot s).1 = Ok (Some d))
    ∧ (lines = ["No changes to apply"] ↔ (diffSnapshot s).1 = Ok None)
    ∧ (lines = [] ↔ ∃ e, (restoreSchema s).1 = Throw e).
Proof.
  pose proof (diffSnapshot_logs s) as Hlogs.
  unfold SnapshotClient.restore, mbind, action_bind.
  destruct (diffSnapshot s) as [[[d|]|e] s1]; cbn [fst snd] in *.
  - unfold SnapshotClient.on_remote, SnapshotClient.sent,
      SnapshotClient.logger.
    destruct (getClient (SnapshotClient.remote s1)) as [[[]|e] r2]; simpl.
    + destruct (schemaApply d r2) as [[[]|e] r3]; simpl.
      * exists ["Changes applied"]. rewrite Hlogs.
        split; [done|]. split; [split; [eauto|done]|]. split; [by split|].
        split; [done|]. by intros [? [=]].
      * exists []. rewrite Hlogs, app_nil_r.
        split; [done|]. split; [split; [done|by intros [[=] _]]|].
        split; [by split|]. split; [eauto|done].
    + exists []. rewrite Hlogs, app_nil_r.
      split; [done|]. split; [split; [done|by intros [[=] _]]|].
      split; [by split|]. split; [eauto|done].
  - unfold SnapshotClient.logger; simpl. exists ["No changes to apply"].
    rewrite Hlogs. split; [done|].
    split; [split; [done|by intros [_ [? [=]]]]|].
    split; [by split|]. split; [done|]. by intros [? [=]].
  - exists []. rewrite Hlogs, app_nil_r.
    split; [done|]. split; [split; [done|by intros [[=] _]]|].
    split; [by split|]. split; [eauto|done].
Qed.

End Instance.
End DumpCoverage.

(** X13: the paths of [decomposeData] are joined to the dump directory
    unchecked. In split mode, a collection whose name is [../../x] is
    written by [saveData] to [x.json] beside the dump directory, not
    below it. *)
Theorem unchecked_name_leaves_directory {R Diff : Type} (D : Fs.path)
    (d x : string) (c : Schema.Collection.t) (data : Schema.Snapshot)
    (n : nat) (s s' : SnapshotClient.state R Diff) :
  Fs.has_slash x = false →
  Schema.Collection.collection c = "../../" +:+ x →
  c ∈ Schema.collections data →
  SnapshotClient.saveData
    {| SnapshotClient.dumpPath := D ++ [d]; SnapshotClient.splitFiles := true |}
    data s = (Ok n, s') →
  ¬ (D ++ [d]) `prefix_of` (D ++ [x +:+ ".json"])
  ∧ ∃ content, SnapshotClient.fs s' !! (D ++ [x +:+ ".json"])
               = Some (Fs.File content).
Proof.
  intros Hx Hname Hc Hsave.
  assert (∃ content, SnapshotClient.fs s' !! (D ++ [x +:+ ".json"])
                     = Some (Fs.File content)) as [content Hfile].
  { assert (Fs.path_join (D ++ [d])
              (SnapshotClient.COLLECTIONS_DIR +:+ "/"
               +:+ Schema.Collection.collection c +:+ ".json")
            = D ++ [x +:+ ".json"]) as Hjoin.
    { rewrite Hname. unfold Fs.path_join.
      destruct plain_directories as ((Hdir & ? & ? & ?) & _).
      rewrite split_path_slash by done.
      change (("../../" +:+ x) +:+ ".json")
        with (".." +:+ "/" +:+ (".." +:+ "/" +:+ (x +:+ ".json"))).
      rewrite !split_path_slash by done.
      rewrite split_path_plain by (by rewrite has_slash_append, Hx).
      destruct (json_name_segment x) as (? & ? & ?).
      cbn [foldl].
      rewrite (push_segment_plain _ SnapshotClient.COLLECTIONS_DIR) by done.
      assert (∀ p, Fs.push_segment p ".." = removelast p) as Hup by done.
      rewrite !Hup, !removelast_last. by rewrite push_segment_plain. }
    rewrite <- Hjoin. revert Hsave.
    unfold SnapshotClient.saveData, mbind, action_bind.
    cbn [SnapshotClient.on_fs SnapshotClient.splitFiles].
    match goal with |- context [SnapshotClient.on_fs ?f ?s1] =>
      destruct (SnapshotClient.on_fs f s1) as [[[]|?] s2]; [|done] end.
    match goal with |- context [SnapshotClient.write_files ?cfg ?files ?s1] =>
      destruct (SnapshotClient.write_files cfg files s1) as [[[]|?] s3] eqn:H3;
        [|done] end.
    intros [= _ <-].
    pose proof (write_files_written _ _
                  {| SnapshotClient.path :=
                       SnapshotClient.COLLECTIONS_DIR +:+ "/"
                       +:+ Schema.Collection.collection c +:+ ".json";
                     SnapshotClient.content := Schema.OfCollection c |}
                  _ _ H3) as Hwritten.
    apply Hwritten. rewrite decomposeData_files.
    apply elem_of_cons. right. apply elem_of_app. left.
    apply list_elem_of_fmap. by exists c. }
  split; [|by exists content].
  intros [k Hk]. rewrite <- app_assoc in Hk. apply app_inv_head in Hk.
  simpl in Hk. injection Hk as Hd Hk.
  destruct (saveData_files _ _ _ _ _ Hsave) as (_ & _ & Hdir & _).
  cbn [SnapshotClient.dumpPath] in Hdir.
  rewrite <- Hd in Hdir. change [?a] with (a :: @nil string) in Hdir.
  rewrite lookup_node_below in Hdir. congruence.
Qed.

Lemma saved_count_bounds_files_witness :
  size (Fs.files_below ["srv"; "dump"]
          (SnapshotClient.fs
             (SnapshotClient.saveData SnapshotExamples.split
                SnapshotExamples.twice (SnapshotExamples.initial 0)).2)) ≤ 3.
Proof.
  refine (proj1 (saved_count_bounds_files SnapshotExamples.split
                   SnapshotExamples.twice 3 (SnapshotExamples.initial 0)
                   (SnapshotClient.saveData SnapshotExamples.split
                      SnapshotExamples.twice (SnapshotExamples.initial 0)).2
                   _)).
  refine (pair_of_fst
            (SnapshotClient.saveData SnapshotExamples.split
               SnapshotExamples.twice (SnapshotExamples.initial 0))
            (Ok 3) _).
  vm_compute. reflexivity.
Defined.

(** A snapshot that lists the collection [roles] twice: three entries
    are written and counted, two files are left. *)
Example duplicate_names_leave_one_file :
  (SnapshotClient.saveData SnapshotExamples.split SnapshotExamples.twice
     (SnapshotExamples.initial 0)).1 = Ok 3
  ∧ size (Fs.files_below ["srv"; "dump"]
            (SnapshotClient.fs
               (SnapshotClient.saveData SnapshotExamples.split
                  SnapshotExamples.twice (SnapshotExamples.initial 0)).2)) = 2.
Proof. apply conj; vm_compute; reflexivity. Qed.

Lemma dump_failed_fetch_keeps_files_witness :
  SnapshotClient.dump SnapshotExamples.getClient SnapshotExamples.offline
    SnapshotExamples.split (SnapshotExamples.initial 0)
  = (Throw (Fs.RemoteError "ECONNREFUSED"),
     (SnapshotClient.getSnapshot SnapshotExamples.getClient
        SnapshotExamples.offline (SnapshotExamples.initial 0)).2).
Proof.
  refine (proj1 (dump_failed_fetch_keeps_files SnapshotExamples.split
                   SnapshotExamples.getClient SnapshotExamples.offline
                   (SnapshotExamples.initial 0)
                   (SnapshotClient.getSnapshot SnapshotExamples.getClient
                      SnapshotExamples.offline (SnapshotExamples.initial 0)).2
                   (Fs.RemoteError "ECONNREFUSED") _)).
  refine (pair_of_fst
            (SnapshotClient.getSnapshot SnapshotExamples.getClient
               SnapshotExamples.offline (SnapshotExamples.initial 0))
            (Throw (Fs.RemoteError "ECONNREFUSED")) _).
  reflexivity.
Defined.


Lemma dump_then_diff_single_witness :
  ∃ data,
    (SnapshotClient.getSnapshot SnapshotExamples.getClient
       SnapshotExamples.schemaSnapshot (SnapshotExamples.initial 0)).1
    = Ok data
    ∧ SnapshotClient.loadData SnapshotExamples.single SnapshotExamples.unchecked
        (SnapshotExamples.saved 0)
      = (Ok data, SnapshotExamples.saved 0)
    ∧ ((SnapshotExamples.getClient
          (SnapshotClient.remote (SnapshotExamples.saved 0))).1 = Ok tt →
       SnapshotClient.requests
         (SnapshotClient.diffSnapshot SnapshotExamples.getClient
            SnapshotExamples.schemaDiff SnapshotExamples.single SnapshotExamples.unchecked
            (SnapshotExamples.saved 0)).2
       = SnapshotClient.requests (SnapshotExamples.saved 0)
         ++ [SnapshotClient.SchemaDiff data]).
Proof.
  refine (dump_then_diff_single SnapshotExamples.single
            SnapshotExamples.unchecked
            SnapshotExamples.getClient SnapshotExamples.schemaSnapshot
            SnapshotExamples.schemaDiff (SnapshotExamples.initial 0)
            (SnapshotExamples.saved 0) _ _).
  - reflexivity.
  - refine (pair_of_fst
              (SnapshotClient.dump SnapshotExamples.getClient
                 SnapshotExamples.schemaSnapshot SnapshotExamples.single
                 (SnapshotExamples.initial 0))
              (Ok tt) _).
    vm_compute. reflexivity.
Defined.

Lemma dump_keeps_outside_files_witness :
  SnapshotClient.fs (SnapshotExamples.beside 0)
    !! ["srv"; "www"; "index.json"]
  = Some (Fs.File (Schema.Plain (Schema.JString "home")))
  ∧ SnapshotClient.fs (SnapshotExamples.beside 0)
      !! ["srv"; "dump"; "notes.txt"]
    = Some (Fs.File (Schema.Plain (Schema.JString "mine")))
  ∧ SnapshotClient.fs
      (SnapshotClient.dump SnapshotExamples.getClient
         SnapshotExamples.schemaSnapshot SnapshotExamples.split
         (SnapshotExamples.beside 0)).2
      !! ["srv"; "dump"; "notes.txt"] = None
  ∧ SnapshotClient.fs
      (SnapshotClient.dump SnapshotExamples.getClient
         SnapshotExamples.schemaSnapshot SnapshotExamples.split
         (SnapshotExamples.beside 0)).2
      !! ["srv"; "www"; "index.json"]
    = Some (Fs.File (Schema.Plain (Schema.JString "home"))).
Proof.
  split; [vm_compute; reflexivity|].
  split; [vm_compute; reflexivity|].
  split; [vm_compute; reflexivity|].
  refine (proj2 (dump_keeps_outside_files SnapshotExamples.split
                   SnapshotExamples.getClient SnapshotExamples.schemaSnapshot
                   (SnapshotExamples.beside 0) _
                   ["srv"; "www"; "index.json"]
                   (Schema.Plain (Schema.JString "home")) _) _).
  - intros data [= <-] _.
    apply (bool_decide_unpack
             (SnapshotClient.well_named SnapshotExamples.snapshot)).
    vm_compute. exact I.
  - by intros [k [=]].
  - vm_compute. reflexivity.
Defined.

Lemma unchecked_name_leaves_directory_witness :
  ¬ ["srv"; "dump"] `prefix_of` ["srv"; "stray.json"]
  ∧ ∃ content,
      SnapshotClient.fs
        (SnapshotClient.saveData SnapshotExamples.split SnapshotExamples.stray
           (SnapshotExamples.initial 0)).2
        !! ["srv"; "stray.json"] = Some (Fs.File content).
Proof.
  refine (unchecked_name_leaves_directory ["srv"] "dump" "stray"
            (SnapshotExamples.collection "../../stray")
            SnapshotExamples.stray 2 (SnapshotExamples.initial 0)
            (SnapshotClient.saveData SnapshotExamples.split
               SnapshotExamples.stray (SnapshotExamples.initial 0)).2
            _ _ _ _).
  - reflexivity.
  - reflexivity.
  - by left.
  - refine (pair_of_fst
              (SnapshotClient.saveData SnapshotExamples.split
                 SnapshotExamples.stray (SnapshotExamples.initial 0))
              (Ok 2) _).
    vm_compute. reflexivity.
Defined.

(** ** The express helpers *)

Lemma snoc_neq {A} (l : list A) (x : A) : l ++ [x] ≠ l.
Proof.
  intros Heq. apply (f_equal length) in Heq.
  rewrite length_app in Heq. simpl in Heq. lia.
Qed.

(** X14: [ensureIsAdminHandler] lets a request through, calling
    [next()] without an error, exactly when it carries a user and the
    admin flag. Any other request is handed to [next] with an HTTP
    error: 401 when there is no accountability or no user in it,
    whatever the admin flag says, and 403 otherwise. *)
Theorem ensureIsAdminHandler_verdict (req : Validation.Request) :
  (Validation.ensureIsAdminHandler req = Validation.Next ↔
     ∃ a u, Validation.accountability req = Some a
            ∧ Validation.user a = Some u ∧ Validation.admin a = true)
  ∧ (Validation.ensureIsAdminHandler req ≠ Validation.Next →
     ∃ e, Validation.ensureIsAdminHandler req
            = Validation.NextError (Validation.Http e)
          ∧ (Validation.statusCode e = 401%Z ∨ Validation.statusCode e = 403%Z)
          ∧ (Validation.statusCode e = 401%Z ↔
               ∀ a, Validation.accountability req = Some a →
                    Validation.user a = None)).
Proof.
  unfold Validation.ensureIsAdminHandler.
  destruct req as [[[[u|] []]|]]; simpl.
  - split; [split; [eauto|done]|done].
  - split; [split; [done|]|].
    + intros (a & u' & [= <-] & _ & [=]).
    + intros _. eexists. split; [done|]. simpl. split; [auto|].
      split; [done|]. intros H. by specialize (H _ eq_refl).
  - split; [split; [done|]|].
    + intros (a & u' & [= <-] & [=] & _).
    + intros _. eexists. split; [done|]. simpl. split; [auto|].
      split; [|done]. by intros _ a [= <-].
  - split; [split; [done|]|].
    + intros (a & u' & [= <-] & [=] & _).
    + intros _. eexists. split; [done|]. simpl. split; [auto|].
      split; [|done]. by intros _ a [= <-].
  - split; [split; [done|]|].
    + intros (a & u' & [=] & _).
    + intros _. eexists. split; [done|]. simpl. split; [auto|].
      split; [|done]. by intros _ a [=].
Qed.

(** X15: [errorHandler] answers a request at most once. A response
    whose headers are sent is left as it is and the error goes to
    [next]; any other response is answered without a call of [next],
    with the message of the error and the status of an HTTP error or
    500 for any other error; and a second error on the response it
    answered is passed on, the answer staying what it was. *)
Theorem errorHandler_answers_once (err err' : Validation.error)
    (res : Validation.Response) :
  (Validation.headersSent res = true →
     Validation.errorHandler err res = (res, Validation.NextError err))
  ∧ (Validation.headersSent res = false →
     (Validation.errorHandler err res).2 = Validation.Answered
     ∧ Validation.body (Validation.errorHandler err res).1
         = Some (Validation.error_message err)
     ∧ Validation.status (Validation.errorHandler err res).1
         = match err with
           | Validation.Http e => Validation.statusCode e
           | Validation.Other _ => 500%Z
           end)
  ∧ Validation.errorHandler err' (Validation.errorHandler err res).1
      = ((Validation.errorHandler err res).1, Validation.NextError err').
Proof.
  unfold Validation.errorHandler.
  destruct (Validation.headersSent res) eqn:Hsent; simpl.
  - rewrite Hsent. done.
  - split; [done|]. split; [|done]. intros _. by destruct err.
Qed.

(** X16: [logError] always passes the error on to [next], and logs at
    most one entry: none exactly for the HTTP errors of a status below
    500, one for every other error. *)
Theorem logError_logs_server_errors (err : Validation.error)
    (lines : list Validation.log_entry) :
  (Validation.logError err lines).2 = Validation.NextError err
  ∧ ((Validation.logError err lines).1 = lines ↔
       ∃ e, err = Validation.Http e ∧ (Validation.statusCode e < 500)%Z)
  ∧ ∃ logged, (Validation.logError err lines).1 = lines ++ logged
              ∧ length logged ≤ 1.
Proof.
  unfold Validation.logError. destruct err as [e|m].
  - case_bool_decide; simpl.
    + split; [done|]. split; [split; [eauto|done]|].
      exists []. rewrite app_nil_r. split; [done|simpl; lia].
    + split; [done|]. split; [|by eexists [_]].
      split; [by intros ?%snoc_neq|]. intros (? & [= <-] & ?). lia.
  - simpl. split; [done|]. split; [|by eexists [_]].
    split; [by intros ?%snoc_neq|]. by intros (? & [=] & _).
Qed.

(** X17: what [validateInput] throws, through the error middlewares.
    The error it makes of a [ZodError] or of an error with a string for
    a message is a client error: [logError] logs nothing and passes it
    on, and [errorHandler], on a response not yet sent, answers with
    status 400 and the message of the validation. The [TypeError] that
    leaves when the parse threw [null] or [undefined] is no HTTP error:
    [logError] logs its message and [errorHandler] answers with status
    500. *)
Theorem invalid_input_through_middlewares {P T V : Type}
    (createError_other : V → Validation.failure) (params : P)
    (zodSchema : Validation.ZodSchema P T V)
    (lines : list Validation.log_entry) (res : Validation.Response) :
  Validation.headersSent res = false →
  (∀ e, Validation.validateInput createError_other params zodSchema
          = Throw (Validation.HttpFailure e) →
        (∃ issues, zodSchema params = Throw (Validation.ZodError issues))
        ∨ (∃ message, zodSchema params = Throw (Validation.WithMessage message)) →
        Validation.statusCode e = 400%Z
        ∧ Validation.logError (Validation.Http e) lines
          = (lines, Validation.NextError (Validation.Http e))
        ∧ Validation.errorHandler (Validation.Http e) res
          = ({| Validation.headersSent := true;
                Validation.status := 400;
                Validation.body := Some (Some (Validation.http_message e)) |},
             Validation.Answered))
  ∧ (zodSchema params = Throw Validation.Nullish →
     Validation.validateInput createError_other params zodSchema
       = Throw Validation.TypeErrorFailure
     ∧ ∀ message, message ≠ "" →
         Validation.logError (Validation.Other (Some message)) lines
           = (lines ++ [Validation.LogLine message],
              Validation.NextError (Validation.Other (Some message)))
         ∧ Validation.errorHandler (Validation.Other (Some message)) res
           = ({| Validation.headersSent := true;
                 Validation.status := 500;
                 Validation.body := Some (Some message) |},
              Validation.Answered)).
Proof.
  intros Hsent. unfold Validation.validateInput. split.
  - intros e Hthrown [[issues Hparse]|[message Hparse]];
      rewrite Hparse in Hthrown; simpl in Hthrown.
    all: injection Hthrown as <-; split; [done|]; split; [done|].
    all: unfold Validation.errorHandler; by rewrite Hsent.
  - intros ->. split; [done|]. intros message Hmessage. split.
    + unfold Validation.logError, Validation.message_or_value. simpl.
      by rewrite bool_decide_eq_false_2.
    + unfold Validation.errorHandler. by rewrite Hsent.
Qed.

(** X18: a request that [ensureIsAdminHandler] refuses is not logged
    by [logError], and [errorHandler], on a response not yet sent,
    answers it with status 401 when the request has no user and 403
    when it has one. *)
Theorem refused_request_answered (req : Validation.Request)
    (err : Validation.error) (lines : list Validation.log_entry)
    (res : Validation.Response) :
  Validation.ensureIsAdminHandler req = Validation.NextError err →
  Validation.headersSent res = false →
  Validation.logError err lines = (lines, Validation.NextError err)
  ∧ (Validation.errorHandler err res).2 = Validation.Answered
  ∧ Validation.status (Validation.errorHandler err res).1
      = match Validation.accountability req ≫= Validation.user with
        | Some _ => 403%Z
        | None => 401%Z
        end.
Proof.
  unfold Validation.ensureIsAdminHandler.
  destruct (Validation.accountability req ≫= Validation.user); simpl.
  - case_match; [|done]. intros [= <-] Hsent. split; [done|].
    unfold Validation.errorHandler. by rewrite Hsent.
  - intros [= <-] Hsent. split; [done|].
    unfold Validation.errorHandler. by rewrite Hsent.
Qed.

Lemma invalid_input_through_middlewares_witness :
  (Validation.statusCode
     {| Validation.statusCode := 400;
        Validation.http_message := "refinement failed" |} = 400%Z
   ∧ Validation.logError
       (Validation.Http
          {| Validation.statusCode := 400;
             Validation.http_message := "refinement failed" |}) []
     = ([], Validation.NextError
              (Validation.Http
                 {| Validation.statusCode := 400;
                    Validation.http_message := "refinement failed" |}))
   ∧ Validation.errorHandler
       (Validation.Http
          {| Validation.statusCode := 400;
             Validation.http_message := "refinement failed" |})
       ValidationExamples.unsent
     = ({| Validation.headersSent := true;
           Validation.status := 400;
           Validation.body := Some (Some "refinement failed") |},
        Validation.Answered))
  ∧ Validation.validateInput ValidationExamples.refused 0
      ValidationExamples.null_schema
    = Throw Validation.TypeErrorFailure
  ∧ Validation.logError
      (Validation.Other
         (Some "Cannot read properties of null (reading 'message')")) []
    = ([] ++ [Validation.LogLine
                "Cannot read properties of null (reading 'message')"],
       Validation.NextError
         (Validation.Other
            (Some "Cannot read properties of null (reading 'message')")))
  ∧ Validation.errorHandler
      (Validation.Other
         (Some "Cannot read properties of null (reading 'message')"))
      ValidationExamples.unsent
    = ({| Validation.headersSent := true;
          Validation.status := 500;
          Validation.body :=
            Some (Some "Cannot read properties of null (reading 'message')") |},
       Validation.Answered).
Proof.
  split.
  - refine (proj1 (invalid_input_through_middlewares
                     ValidationExamples.refused 200
                     ValidationExamples.broken_schema
                     [] ValidationExamples.unsent _)
              {| Validation.statusCode := 400;
                 Validation.http_message := "refinement failed" |} _ _).
    + reflexivity.
    + reflexivity.
    + right. by exists "refinement failed".
  - destruct (proj2 (invalid_input_through_middlewares
                       ValidationExamples.refused 0
                       ValidationExamples.null_schema
                       [] ValidationExamples.unsent eq_refl) eq_refl)
      as [Hescapes Hanswered].
    split; [exact Hescapes|].
    apply (Hanswered "Cannot read properties of null (reading 'message')").
    discriminate.
Defined.

(** The same middlewares on the [TypeError] of a parse that threw
    [null], its message as Node words it. *)
Example null_parse_answered_500 :
  Validation.validateInput ValidationExamples.refused 0
    ValidationExamples.null_schema
  = Throw Validation.TypeErrorFailure
  ∧ Validation.logError
      (Validation.Other
         (Some "Cannot read properties of null (reading 'message')")) []
    = ([Validation.LogLine
          "Cannot read properties of null (reading 'message')"],
       Validation.NextError
         (Validation.Other
            (Some "Cannot read properties of null (reading 'message')")))
  ∧ Validation.status
      (Validation.errorHandler
         (Validation.Other
            (Some "Cannot read properties of null (reading 'message')"))
         ValidationExamples.unsent).1 = 500%Z.
Proof. repeat apply conj; reflexivity. Qed.

Lemma refused_request_answered_witness :
  Validation.logError
    (Validation.Http
       (Validation.createError 403
          "You do not have permission to access this.")) []
  = ([], Validation.NextError
           (Validation.Http
              (Validation.createError 403
                 "You do not have permission to access this.")))
  ∧ (Validation.errorHandler
       (Validation.Http
          (Validation.createError 403
             "You do not have permission to access this."))
       ValidationExamples.unsent).2 = Validation.Answered
  ∧ Validation.status
      (Validation.errorHandler
         (Validation.Http
            (Validation.createError 403
               "You do not have permission to access this."))
         ValidationExamples.unsent).1 = 403%Z.
Proof.
  refine (refused_request_answered ValidationExamples.editor
            (Validation.Http
               (Validation.createError 403
                  "You do not have permission to access this."))
            [] ValidationExamples.unsent _ _).
  - reflexivity.
  - reflexivity.
Defined.

(** The three requests: the anonymous one and the editor are refused,
    the administrator goes through. *)
Example ensureIsAdminHandler_requests :
  Validation.ensureIsAdminHandler ValidationExamples.anonymous
  = Validation.NextError
      (Validation.Http
         (Validation.createError 401 "You must be logged in to access this."))
  ∧ Validation.ensureIsAdminHandler ValidationExamples.editor
    = Validation.NextError
        (Validation.Http
           (Validation.createError 403
              "You do not have permission to access this."))
  ∧ Validation.ensureIsAdminHandler ValidationExamples.administrator
    = Validation.Next.
Proof. repeat apply conj; reflexivity. Qed.
